(** * mnemoCast-client: a shallow embedding of the device runtime

  The Go sources are embedded function by function.  Conventions:
  - Go [int] / [int64] / [time.Duration] values are [Z]; where the source
    computes with them the 64-bit wrap-around is written out ([wrap64]).
  - [time.Time] is an instant counted in nanoseconds from the zero time
    (January 1, year 1, 00:00:00 UTC), so [IsZero] is "equal to 0".
  - A [sync.RWMutex] is an explicit piece of state; an acquisition that can
    never be granted is the outcome [Blocked].
  - The file system is a finite map from paths to nodes: a regular file
    with its bytes, or a directory.  Whether a system call fails, and
    into which pieces a write is cut, is an input of the function that
    makes the call.
  - What the Go standard library provides (AEAD, digest, base64, JSON,
    HTTP transport, clock, random source) enters as an interface or as an
    explicit input of the function that consumes it. *)

From Stdlib Require Import ZArith Lia Bool String Ascii List OrderedTypeEx.
From stdpp Require Import base tactics option list strings gmap sorting.

Local Open Scope string_scope.
Local Open Scope Z_scope.

(* ===================================================================== *)
(** * Part I: definitions                                                 *)
(* ===================================================================== *)

(** ** Go runtime basics *)

Module Go.

(** Two's complement reduction of a mathematical integer to [int64]. *)
Definition wrap64 (z : Z) : Z := (z + 2 ^ 63) mod 2 ^ 64 - 2 ^ 63.

Definition int64_min : Z := - 2 ^ 63.
Definition int64_max : Z := 2 ^ 63 - 1.

(** [a * b] on [int64]. *)
Definition mul64 (a b : Z) : Z := wrap64 (a * b).
(** [a + b] on [int64]. *)
Definition add64 (a b : Z) : Z := wrap64 (a + b).

(** [time.Time]: nanoseconds since the zero time. *)
Definition Time := Z.
Definition IsZero (t : Time) : bool := t =? 0.
Definition After (t u : Time) : bool := u <? t.
Definition Before (t u : Time) : bool := t <? u.
Definition Equal (t u : Time) : bool := t =? u.

(** A [time.Duration] result that saturates at the ends of [int64], as
    [Time.Sub] and [time.Since] do. *)
Definition sat64 (z : Z) : Z := Z.max int64_min (Z.min int64_max z).

(** [time.Duration]: nanoseconds, an [int64]. *)
Definition Duration := Z.
Definition Second : Duration := 1000000000.

(** Result of running a piece of Go code that may block for ever on a
    lock or panic. *)
Inductive outcome (A : Type) : Type :=
| Ret (a : A)
| Blocked
| Panic (msg : string).
Arguments Ret {A} a.
Arguments Blocked {A}.
Arguments Panic {A} msg.

Definition bind {A B} (m : outcome A) (k : A -> outcome B) : outcome B :=
  match m with
  | Ret a => k a
  | Blocked => Blocked
  | Panic s => Panic s
  end.

(** [sync.RWMutex].  The mutex is not reentrant: [RLock] waits while a
    writer holds it, [Lock] waits while anybody holds it.  The state below
    records the holders inside one call chain, so a wait on a lock held by
    the caller itself can never end. *)
Record RWMutex : Type := mkRWMutex { writer : bool; readers : nat }.

Definition unlocked : RWMutex := mkRWMutex false 0.

Definition RLock (m : RWMutex) : outcome RWMutex :=
  if writer m then Blocked else Ret (mkRWMutex false (S (readers m))).

Definition RUnlock (m : RWMutex) : outcome RWMutex :=
  match readers m with
  | O => Panic "sync: RUnlock of unlocked RWMutex"
  | S n => Ret (mkRWMutex (writer m) n)
  end.

Definition Lock (m : RWMutex) : outcome RWMutex :=
  if writer m then Blocked
  else match readers m with
       | O => Ret (mkRWMutex true 0)
       | S _ => Blocked
       end.

Definition Unlock (m : RWMutex) : outcome RWMutex :=
  if writer m then Ret (mkRWMutex false (readers m))
  else Panic "sync: Unlock of unlocked RWMutex".

End Go.

#[global] Instance outcome_bind : MBind Go.outcome :=
fun A B k m => Go.bind m k.
#[global] Instance outcome_ret : MRet Go.outcome := @Go.Ret.

(** ** internal/models *)

Module models.

(** [models.Ad].  The [Metadata] bag is read by none of the embedded
    functions and is left out. *)
Record Ad : Type := mkAd {
  ID : string;
  Title : string;
  Type_ : string;
  ContentURL : string;
  Duration : Z;
  StartTime : Go.Time;
  EndTime : Go.Time;
  Priority : Z
}.

Record AdDeliveryResponse : Type := mkAdDeliveryResponse {
  Ads : list Ad;
  PlaylistID : string;
  UpdatedAt : Go.Time
}.

(** [models.ScreenConfig]; the embedded [Identity] block plays no role in
    retry handling and is left out. *)
Record ScreenConfig : Type := mkScreenConfig {
  AdServerURL : string;
  HeartbeatInterval : Z;
  AdFetchInterval : Z;
  RetryAttempts : Z;
  RetryDelay : Z
}.

Definition DefaultConfig : ScreenConfig :=
  mkScreenConfig "http://10.42.0.1:8080" 30 60 3 5.

Record Credentials : Type := mkCredentials {
  ScreenID : string;
  Passkey : string
}.

Definition HasCredentials (c : Credentials) : bool :=
  negb (String.eqb (ScreenID c) "") && negb (String.eqb (Passkey c) "").

End models.

(** ** internal/player: Playlist *)

Module Playlist.
Import Go models.

Record t : Type := mk {
  ads : list Ad;
  currentIdx : Z;
  lastUpdate : Time;
  mu : RWMutex
}.

Definition NewPlaylist : t := mk [] 0 0 unlocked.

Definition with_mu (p : t) (m : RWMutex) : t :=
  mk (ads p) (currentIdx p) (lastUpdate p) m.

(** Body of the [for _, ad := range p.ads] loop of [FilterByTime]:
    does the iteration append [ad] to [activeAds]? *)
Definition keeps (now : Time) (ad : Ad) : bool :=
  if IsZero (StartTime ad) && IsZero (EndTime ad) then true
  else
    let startOK := IsZero (StartTime ad) || After now (StartTime ad)
                   || Equal now (StartTime ad) in
    let endOK := IsZero (EndTime ad) || Before now (EndTime ad)
                 || Equal now (EndTime ad) in
    startOK && endOK.

Fixpoint filter_loop (now : Time) (rest activeAds : list Ad) : list Ad :=
  match rest with
  | [] => activeAds
  | ad :: rest' =>
      if keeps now ad then filter_loop now rest' (activeAds ++ [ad])%list
      else filter_loop now rest' activeAds
  end.

(** [FilterByTime]: read-locks the playlist around the loop. *)
Definition FilterByTime (now : Time) (p : t) : outcome (list Ad * t) :=
  m1 ← RLock (mu p);
  let activeAds := filter_loop now (ads p) [] in
  m2 ← RUnlock m1;
  Ret (activeAds, with_mu p m2).

(** The comparison closure handed to [sort.Slice]. *)
Definition less (a b : Ad) : bool :=
  if negb (Priority a =? Priority b) then Priority b <? Priority a
  else String.ltb (ID a) (ID b).

(** [a] may stand before [b] in a slice sorted with [less]. *)
Definition before (a b : Ad) : Prop := less b a = false.

(** [sort.Slice] is modelled by insertion: the result is a permutation of
    the input in which no element is [less] than an earlier one.  Go leaves
    the relative order of elements that compare equal unspecified; here
    they keep their input order. *)
Fixpoint insert_by (x : Ad) (l : list Ad) : list Ad :=
  match l with
  | [] => [x]
  | y :: l' => if less y x then y :: insert_by x l' else x :: y :: l'
  end.

Definition sort_Slice (l : list Ad) : list Ad :=
  fold_right insert_by [] l.

(** [SortByPriority] copies its argument and sorts the copy; it takes no
    lock. *)
Definition SortByPriority (l : list Ad) : list Ad := sort_Slice l.

(** The tail of [GetNextAd] once the sorted slice is known:
    [ad := sortedAds[p.currentIdx%len(sortedAds)]; p.currentIdx++].
    Go's [%] truncates towards zero ([Z.rem]); a negative index panics. *)
Definition pick (sortedAds : list Ad) (idx : Z)
  : outcome (option Ad * Z) :=
  let i := Z.rem idx (Z.of_nat (length sortedAds)) in
  if i <? 0 then Panic "index out of range"
  else match nth_error sortedAds (Z.to_nat i) with
       | Some ad => Ret (Some ad, wrap64 (idx + 1))
       | None => Panic "index out of range"
       end.

(** [GetNextAd]: [p.mu.Lock()], deferred [p.mu.Unlock()], then the call
    to [p.FilterByTime(now)] on the same playlist, whose first action is
    [p.mu.RLock()].  [now] is the reading of the clock. *)
Definition GetNextAd (now : Time) (p : t) : outcome (option Ad * t) :=
  m1 ← Lock (mu p);
  '(activeAds, p1) ← FilterByTime now (with_mu p m1);
  if (length activeAds =? 0)%nat then
    m2 ← Unlock (mu p1);
    Ret (None, with_mu p1 m2)
  else
    let sortedAds := SortByPriority activeAds in
    if (0 <? length sortedAds)%nat then
      '(r, idx') ← pick sortedAds (currentIdx p1);
      m2 ← Unlock (mu p1);
      Ret (r, mk (ads p1) idx' (lastUpdate p1) m2)
    else
      m2 ← Unlock (mu p1);
      Ret (None, with_mu p1 m2).

(** [UpdateAds]; [now] is the reading of the clock. *)
Definition UpdateAds (now : Time) (r : AdDeliveryResponse) (p : t)
  : outcome t :=
  m1 ← Lock (mu p);
  let idx := if Z.of_nat (length (Ads r)) <=? currentIdx p then 0
             else currentIdx p in
  m2 ← Unlock m1;
  Ret (mk (Ads r) idx now m2).

Definition Reset (p : t) : outcome t :=
  m1 ← Lock (mu p);
  m2 ← Unlock m1;
  Ret (mk (ads p) 0 (lastUpdate p) m2).

(** [GetCount], [GetActiveAds], [GetActiveCount]. *)
Definition GetCount (p : t) : outcome (Z * t) :=
  m1 ← RLock (mu p);
  m2 ← RUnlock m1;
  Ret (Z.of_nat (length (ads p)), with_mu p m2).

Definition GetActiveAds (now : Time) (p : t) : outcome (list Ad * t) :=
  FilterByTime now p.

Definition GetActiveCount (now : Time) (p : t) : outcome (Z * t) :=
  '(active, p1) ← GetActiveAds now p;
  Ret (Z.of_nat (length active), p1).

End Playlist.

(** ** internal/player: Scheduler (durations) *)

Module Scheduler.
Import models Go.

Record t : Type := mk {
  defaultDuration : Duration;
  transitionDelay : Duration;
  minDuration : Duration;
  maxDuration : Duration
}.

Definition NewScheduler (defaultDurationSeconds transitionDelaySeconds : Z)
  : t :=
  let defaultDur := mul64 defaultDurationSeconds Second in
  let transitionDur := mul64 transitionDelaySeconds Second in
  mk defaultDur transitionDur (5 * Second) (300 * Second).

(** [GetAdDuration]: [time.Duration(ad.Duration) * time.Second] is an
    [int64] product. *)
Definition GetAdDuration (s : t) (ad : Ad) : Duration :=
  let duration :=
    if 0 <? models.Duration ad then mul64 (models.Duration ad) Second
    else defaultDuration s in
  let duration :=
    if duration <? minDuration s then minDuration s else duration in
  let duration :=
    if maxDuration s <? duration then maxDuration s else duration in
  duration.

Definition GetTransitionDelay (s : t) : Duration := transitionDelay s.

(** [ShouldTransition]; [now] is the clock reading used by [time.Since]. *)
Definition ShouldTransition (s : t) (ad : Ad) (startTime now : Time) : bool :=
  let duration := GetAdDuration s ad in
  let elapsed := sat64 (now - startTime) in
  duration <=? elapsed.

(** What the specification asks of [DurationFor], on mathematical
    integers: the ad's own duration if positive, else the default, clamped
    into [lo, hi]. *)
Definition clamp (lo hi x : Z) : Z := Z.min hi (Z.max lo x).

Definition spec_DurationFor (s : t) (ad : Ad) : Duration :=
  clamp (5 * Second) (300 * Second)
        (if 0 <? models.Duration ad then models.Duration ad * Second
         else defaultDuration s).

End Scheduler.

(** ** internal/client *)

Module client.
Import models Go.

(** What [net/http] and [encoding/json] contribute to the client: whether
    [http.NewRequest] accepts a method and URL, and the decoders of the two
    response bodies. *)
Class Env : Type := {
  Screen : Type;
  NewRequest_ok : string -> string -> bool;
  decodeScreen : string -> option Screen;
  decodeAds : string -> option AdDeliveryResponse
}.

(** Result of one [httpClient.Do]: a transport-level error, or a response
    with its status code and body. *)
Inductive DoResult : Type :=
| DoErr (err : string)
| DoResp (StatusCode : Z) (Body : string).

(** The network as seen by one operation: the result of its k-th call of
    [Do], counted from 0. *)
Definition Transport : Type := nat -> DoResult.

Definition shift (n : nat) (net : Transport) : Transport :=
  fun k => net (n + k)%nat.

(** Observable actions of the retry loops. *)
Inductive Event : Type :=
| EvSleep (d : Duration)
| EvDo.

Definition is_Do (e : Event) : bool :=
  match e with EvDo => true | EvSleep _ => false end.

Definition calls (evs : list Event) : nat := length (List.filter is_Do evs).

Definition sleeps (evs : list Event) : list Duration :=
  flat_map (fun e => match e with EvSleep d => [d] | EvDo => [] end) evs.

Inductive Error : Type :=
| ErrCreateRequest
| ErrRequestFailed (attempts : Z) (lastErr : string)
| ErrAuthFailed (body : string)
| ErrScreenNotFound (body : string)
| ErrStatus (code : Z) (body : string)
| ErrParse.

Record Client : Type := mkClient {
  baseURL : string;
  screenID : string;
  passkey : string
}.

Definition NewClient (baseURL screenID passkey : string) : Client :=
  mkClient baseURL screenID passkey.

Definition SetCredentials (c : Client) (screenID passkey : string) : Client :=
  mkClient (baseURL c) screenID passkey.

(** [doRequest]: the loop [for attempt := 0; attempt <= maxRetries;
    attempt++], unrolled over the number of iterations left; [k] is the
    number of [Do] calls already made. *)
Fixpoint doRequest_loop (iters : nat) (attempt : Z) (maxRetries : Z)
    (retryDelay : Duration) (net : Transport) (k : nat) (lastErr : string)
  : (Error + Z * string) * list Event :=
  match iters with
  | O => (inl (ErrRequestFailed (add64 maxRetries 1) lastErr), [])
  | S iters' =>
      let pre := if 0 <? attempt
                 then [EvSleep (mul64 retryDelay attempt)] else [] in
      match net k with
      | DoResp code body => (inr (code, body), (pre ++ [EvDo])%list)
      | DoErr err =>
          let '(r, evs) := doRequest_loop iters' (attempt + 1) maxRetries
                             retryDelay net (S k) err in
          (r, (pre ++ EvDo :: evs)%list)
      end
  end.

Definition doRequest (maxRetries : Z) (retryDelay : Duration)
    (net : Transport) : (Error + Z * string) * list Event :=
  doRequest_loop (Z.to_nat (maxRetries + 1)) 0 maxRetries retryDelay net 0 "".

Definition StatusOK : Z := 200.
Definition StatusNoContent : Z := 204.
Definition StatusUnauthorized : Z := 401.
Definition StatusNotFound : Z := 404.

Section operations.
Context `{E : Env}.

(** [Connect]: [c.doRequest(req, 3, 2*time.Second)]. *)
Definition Connect (c : Client) (net : Transport)
  : (Error + Screen) * list Event :=
  let url := baseURL c ++ "/api/v1/screens/" ++ screenID c ++ "/connect" in
  if negb (NewRequest_ok "POST" url) then (inl ErrCreateRequest, [])
  else
    match doRequest 3 (2 * Second) net with
    | (inl err, evs) => (inl err, evs)
    | (inr (code, body), evs) =>
        if code =? StatusUnauthorized then (inl (ErrAuthFailed body), evs)
        else if code =? StatusNotFound then (inl (ErrScreenNotFound body), evs)
        else if negb (code =? StatusOK) then (inl (ErrStatus code body), evs)
        else match decodeScreen body with
             | Some screen => (inr screen, evs)
             | None => (inl ErrParse, evs)
             end
    end.

(** [Heartbeat]: [c.doRequest(req, 3, 2*time.Second)]. *)
Definition Heartbeat (c : Client) (screenID : string) (net : Transport)
  : option Error * list Event :=
  let url := baseURL c ++ "/api/v1/screens/" ++ screenID ++ "/heartbeat" in
  if negb (NewRequest_ok "PUT" url) then (Some ErrCreateRequest, [])
  else
    match doRequest 3 (2 * Second) net with
    | (inl err, evs) => (Some err, evs)
    | (inr (code, body), evs) =>
        if negb (code =? StatusOK) && negb (code =? StatusNoContent)
        then (Some (ErrStatus code body), evs)
        else (None, evs)
    end.

(** [GetAds]: [c.doRequest(req, 3, 2*time.Second)]; [now] is the clock
    reading stamped on the synthesised empty manifest. *)
Definition GetAds (c : Client) (screenID : string) (now : Time)
    (net : Transport) : (Error + AdDeliveryResponse) * list Event :=
  let url := baseURL c ++ "/api/v1/screens/" ++ screenID ++ "/ads/deliver" in
  if negb (NewRequest_ok "GET" url) then (inl ErrCreateRequest, [])
  else
    match doRequest 3 (2 * Second) net with
    | (inl err, evs) => (inl err, evs)
    | (inr (code, body), evs) =>
        if code =? StatusNoContent
        then (inr (mkAdDeliveryResponse [] "" now), evs)
        else if negb (code =? StatusOK) then (inl (ErrStatus code body), evs)
        else match decodeAds body with
             | Some r => (inr r, evs)
             | None => (inl ErrParse, evs)
             end
    end.

End operations.

(** The three operations under one name, reduced to what the retry claim
    observes: the error (if any) and the actions performed. *)
Inductive Op : Type := OpConnect | OpHeartbeat | OpGetAds.

Definition run_op `{E : Env} (op : Op) (c : Client) (now : Time)
    (net : Transport) : option Error * list Event :=
  match op with
  | OpConnect =>
      match Connect c net with
      | (inl e, evs) => (Some e, evs)
      | (inr _, evs) => (None, evs)
      end
  | OpHeartbeat => Heartbeat c (screenID c) net
  | OpGetAds =>
      match GetAds c (screenID c) now net with
      | (inl e, evs) => (Some e, evs)
      | (inr _, evs) => (None, evs)
      end
  end.

(** Method and URL of the request an operation builds. *)
Definition request_of (op : Op) (c : Client) : string * string :=
  match op with
  | OpConnect =>
      ("POST", baseURL c ++ "/api/v1/screens/" ++ screenID c ++ "/connect")
  | OpHeartbeat =>
      ("PUT", baseURL c ++ "/api/v1/screens/" ++ screenID c ++ "/heartbeat")
  | OpGetAds =>
      ("GET", baseURL c ++ "/api/v1/screens/" ++ screenID c ++ "/ads/deliver")
  end.

Definition request_ok `{E : Env} (op : Op) (c : Client) : bool :=
  NewRequest_ok (fst (request_of op c)) (snd (request_of op c)).

(** Errors that report the status of a received response. *)
Definition is_status_error (code : Z) (e : Error) : bool :=
  match e with
  | ErrAuthFailed _ => code =? 401
  | ErrScreenNotFound _ => code =? 404
  | ErrStatus c _ => c =? code
  | _ => false
  end.

Definition is_DoErr (r : DoResult) : bool :=
  match r with DoErr _ => true | DoResp _ _ => false end.

(** Statuses an operation accepts. *)
Definition accepts (op : Op) (code : Z) : bool :=
  match op with
  | OpConnect => code =? 200
  | OpHeartbeat => (code =? 200) || (code =? 204)
  | OpGetAds => (code =? 200) || (code =? 204)
  end.

(** The client as [main] builds it from the loaded configuration:
    [client.NewClient(screenConfig.AdServerURL, screenID, passkey)].  The
    retry fields of the configuration are not handed over. *)
Definition client_of_config (cfg : ScreenConfig) (screenID passkey : string)
  : Client :=
  NewClient (AdServerURL cfg) screenID passkey.

(** The action sequence the specification describes when the first [fails]
    calls meet a transport failure: a [Do], then for each retry
    [attempt = 1, 2, ...] a sleep of [base_delay * attempt] and a [Do]. *)
Fixpoint retry_events (base_delay : Duration) (attempt : Z) (retries : nat)
  : list Event :=
  match retries with
  | O => []
  | S n => EvSleep (base_delay * attempt) :: EvDo
           :: retry_events base_delay (attempt + 1) n
  end.

Definition spec_events (base_delay : Duration) (retries : nat) : list Event :=
  EvDo :: retry_events base_delay 1 retries.

End client.

(** ** internal/heartbeat *)

Module heartbeat.
Import models Go client.

Inductive Status : Type :=
| StatusUnknown
| StatusConnected
| StatusDisconnected
| StatusError.

Record Scheduler : Type := mk {
  hclient : Client;
  screenID : string;
  interval : Duration;
  retryAttempts : Z;
  retryDelay : Duration;
  status : Status;
  lastSent : Time;
  lastError : option Error
}.

Definition NewScheduler (adClient : Client) (screenID : string)
    (intervalSeconds retryAttempts retryDelaySeconds : Z) : Scheduler :=
  mk adClient screenID (mul64 intervalSeconds Second) retryAttempts
     (mul64 retryDelaySeconds Second) StatusUnknown 0 None.

(** The scheduler as [main] builds it from the loaded configuration. *)
Definition scheduler_of_config (cfg : ScreenConfig) (c : Client)
    (screenID : string) : Scheduler :=
  NewScheduler c screenID (HeartbeatInterval cfg) (RetryAttempts cfg)
               (RetryDelay cfg).

Definition set_result (s : Scheduler) (st : Status) (sent : Time)
    (err : option Error) : Scheduler :=
  mk (hclient s) (screenID s) (interval s) (retryAttempts s) (retryDelay s)
     st sent err.

Section cycle.
Context `{E : Env}.

(** The retry loop of [sendHeartbeat], unrolled over the iterations left.
    Every attempt is one [s.client.Heartbeat(s.screenID)], which consumes
    its own share of the transport; [now] is the clock reading stored in
    [lastSent] on success.  The touch of the identity file after a success
    ignores its own errors and leaves the scheduler state alone. *)
Fixpoint sendHeartbeat_loop (iters : nat) (attempt : Z) (s : Scheduler)
    (now : Time) (net : Transport) (lastErr : option Error)
  : Scheduler * list Event :=
  match iters with
  | O =>
      (* all retries failed *)
      (set_result s StatusError (lastSent s) lastErr, [])
  | S iters' =>
      let pre := if 0 <? attempt
                 then [EvSleep (mul64 (retryDelay s) attempt)] else [] in
      match Heartbeat (hclient s) (screenID s) net with
      | (None, evs) =>
          (set_result s StatusConnected now None, (pre ++ evs)%list)
      | (Some err, evs) =>
          let '(s', evs') :=
            sendHeartbeat_loop iters' (attempt + 1) s now
                               (shift (calls evs) net) (Some err) in
          (s', (pre ++ evs ++ evs')%list)
      end
  end.

Definition sendHeartbeat (s : Scheduler) (now : Time) (net : Transport)
  : Scheduler * list Event :=
  sendHeartbeat_loop (Z.to_nat (retryAttempts s + 1)) 0 s now net None.

(** What the [select] of [run] can receive: cancellation of the context,
    or a tick of the ticker, which comes with the clock reading and the
    network behaviour met by that heartbeat cycle. *)
Inductive Select : Type :=
| CtxDone
| TickerC (now : Time) (net : Transport).

(** The goroutine [run] is inside its [for] loop, has returned, or has
    panicked. *)
Inductive Loop : Type :=
| Running (s : Scheduler)
| Returned (s : Scheduler)
| Panicked (s : Scheduler).

Definition sched (l : Loop) : Scheduler :=
  match l with Running s => s | Returned s => s | Panicked s => s end.

Definition is_running (l : Loop) : bool :=
  match l with Running _ => true | _ => false end.

(** [run] up to the loop: the initial heartbeat, then
    [time.NewTicker(s.interval)], which panics on a non-positive
    interval. *)
Definition run_init (s : Scheduler) (now : Time) (net : Transport) : Loop :=
  let s' := fst (sendHeartbeat s now net) in
  if interval s' <=? 0 then Panicked s' else Running s'.

(** One turn of the [for { select { ... } }]. *)
Definition run_step (l : Loop) (ev : Select) : Loop :=
  match l with
  | Returned s => Returned s
  | Panicked s => Panicked s
  | Running s =>
      match ev with
      | CtxDone => Returned s
      | TickerC now net => Running (fst (sendHeartbeat s now net))
      end
  end.

Definition run (s : Scheduler) (now : Time) (net : Transport)
    (evs : list Select) : Loop :=
  fold_left run_step evs (run_init s now net).

Definition is_CtxDone (ev : Select) : bool :=
  match ev with CtxDone => true | TickerC _ _ => false end.

(** A heartbeat cycle that exhausts its budget: every attempt it makes
    returns an error. *)
Fixpoint all_attempts_fail (iters : nat) (s : Scheduler) (net : Transport)
  : Prop :=
  match iters with
  | O => True
  | S iters' =>
      match Heartbeat (hclient s) (screenID s) net with
      | (None, _) => False
      | (Some _, evs) => all_attempts_fail iters' s (shift (calls evs) net)
      end
  end.

Definition cycle_fails (s : Scheduler) (net : Transport) : Prop :=
  all_attempts_fail (Z.to_nat (retryAttempts s + 1)) s net.

(** What attempt number [k] of a cycle (counted from 0) meets of the
    transport, the attempts before it having used their share, and the
    error it returns. *)
Fixpoint attempt_net (k : nat) (s : Scheduler) (net : Transport)
  : Transport :=
  match k with
  | O => net
  | S k' =>
      let net' := attempt_net k' s net in
      shift (calls (snd (Heartbeat (hclient s) (screenID s) net'))) net'
  end.

Definition attempt_error (k : nat) (s : Scheduler) (net : Transport)
  : option Error :=
  fst (Heartbeat (hclient s) (screenID s) (attempt_net k s net)).

End cycle.

End heartbeat.

(** ** Files *)

Module os.

Abbreviation bytes := (list Byte.byte).

(** What a path holds: a regular file with its bytes, or a directory
    (with the size [os.Stat] reports for it, which depends on the
    system). *)
Inductive Node : Type :=
| File (data : bytes)
| Dir (size : Z).

(** The file system, by path.  Whether a system call that changes it
    succeeds is the answer of the environment, an input of the function
    that issues the call; the map records what the paths hold after the
    calls that succeeded.  Directories made by [MkdirAll] are not entered:
    no embedded function looks at them afterwards. *)
Abbreviation FS := (gmap string Node).

(** [strings.Split(s, "/")]. *)
Fixpoint split_slash (s : string) : list string :=
  match s with
  | EmptyString => [""]
  | String c r =>
      if Ascii.eqb c "/" then "" :: split_slash r
      else match split_slash r with
           | e :: es => String c e :: es
           | [] => [String c ""]
           end
  end.

(** [strings.Join(elems, "/")]. *)
Fixpoint join_slash (elems : list string) : string :=
  match elems with
  | [] => ""
  | [e] => e
  | e :: elems' => e ++ "/" ++ join_slash elems'
  end.

(** One path element met by [filepath.Clean]; [out] holds the elements
    kept so far, the last one first.  Empty elements and [.] are dropped;
    [..] removes the element before it, is dropped at the root, and is kept
    at the front of a relative path. *)
Definition clean_step (rooted : bool) (out : list string) (e : string)
  : list string :=
  if String.eqb e "" || String.eqb e "." then out
  else if String.eqb e ".." then
    match out with
    | x :: out' => if String.eqb x ".." then e :: out else out'
    | [] => if rooted then [] else [e]
    end
  else e :: out.

(** [filepath.Clean], with the separator [/]. *)
Definition Clean (path : string) : string :=
  if String.eqb path "" then "."
  else
    let rooted := String.prefix "/" path in
    let out := rev (fold_left (clean_step rooted) (split_slash path) []) in
    let body := join_slash out in
    if rooted then "/" ++ body
    else if String.eqb body "" then "." else body.

(** [filepath.Join(elem...)]: leading empty elements are skipped, the rest
    is joined with the separator and cleaned. *)
Fixpoint JoinL (elem : list string) : string :=
  match elem with
  | [] => ""
  | e :: elem' =>
      if String.eqb e "" then JoinL elem' else Clean (join_slash elem)
  end.

(** [filepath.Join dir name] for a directory path that is clean already
    (the configuration directory, which [main] builds with
    [filepath.Join], and the directories below it) and a plain file name:
    there the final [Clean] changes nothing, and the two are put together
    with the separator. *)
Definition Join (a b : string) : string :=
  if String.eqb a "" then b
  else if String.eqb b "" then a
  else a ++ "/" ++ b.

(** The system calls the embedded code issues, one observable step each. *)
Inductive Syscall : Type :=
| SysMkdirAll (path : string)
| SysOpenTrunc (path : string)
| SysWrite (path : string) (data : bytes)
| SysClose (path : string)
| SysRename (oldpath newpath : string).

(** The effect of a call that succeeds.  [SysWrite] appends at the end of
    the file, where the offset of a file just opened with truncation
    stands. *)
Definition exec (op : Syscall) (fs : FS) : FS :=
  match op with
  | SysMkdirAll _ => fs
  | SysOpenTrunc p => <[p := File []]> fs
  | SysWrite p d =>
      match fs !! p with
      | Some (File old) => <[p := File (old ++ d)%list]> fs
      | _ => <[p := File d]> fs
      end
  | SysClose _ => fs
  | SysRename a b =>
      match fs !! a with
      | Some n => <[b := n]> (delete a fs)
      | None => fs
      end
  end.

(** The file-system states passed through while [ops] run, in order. *)
Fixpoint states (ops : list Syscall) (fs : FS) : list FS :=
  match ops with
  | [] => []
  | op :: ops' => let fs' := exec op fs in fs' :: states ops' fs'
  end.

Definition run (ops : list Syscall) (fs : FS) : FS :=
  fold_left (fun f op => exec op f) ops fs.

(** How one [os.WriteFile] goes, as the environment decides.  Either the
    open fails; or the file is opened (created, or truncated to nothing)
    and [File.Write] hands the data to [write(2)] piece by piece: [cuts]
    are the byte counts the first calls accept, and [rest_ok] tells whether
    the call for what is left then succeeds or fails.  [close_ok] tells
    whether [Close] succeeds. *)
Inductive WriteIO : Type :=
| WOpenErr
| WCuts (cuts : list positive) (rest_ok close_ok : bool).

(** The write that goes through in one piece. *)
Definition write_ok : WriteIO := WCuts [] true true.

(** The pieces written by the calls that [cuts] describes, and what is
    left of the data after them. *)
Fixpoint chop (cuts : list positive) (data : bytes) : list bytes * bytes :=
  match cuts with
  | [] => ([], data)
  | n :: cuts' =>
      match data with
      | [] => ([], [])
      | _ :: _ =>
          let '(ps, rest) := chop cuts' (drop (Pos.to_nat n) data) in
          (take (Pos.to_nat n) data :: ps, rest)
      end
  end.

(** [os.WriteFile(name, data, perm)]: open with [O_WRONLY|O_CREATE|O_TRUNC],
    write until everything is written or a call fails, close.  The result
    is the calls that took effect, in order, and whether [WriteFile]
    returns without error.  (The loop of [File.Write] stops once all bytes
    are out; it issues one call even for no data at all.) *)
Definition WriteFile (name : string) (data : bytes) (io : WriteIO)
  : list Syscall * bool :=
  match io with
  | WOpenErr => ([], false)
  | WCuts cuts rest_ok close_ok =>
      let '(ps, rest) := chop cuts data in
      let last_call := match rest, ps with
                       | [], _ :: _ => false
                       | _, _ => true
                       end in
      let pieces := if last_call && rest_ok then (ps ++ [rest])%list else ps in
      ((SysOpenTrunc name :: map (SysWrite name) pieces ++ [SysClose name])%list,
       (negb last_call || rest_ok) && close_ok)
  end.

(** [os.ReadFile]: the bytes of a regular file; a directory cannot be
    read. *)
Definition ReadFile (name : string) (fs : FS) : option bytes :=
  match fs !! name with
  | Some (File d) => Some d
  | _ => None
  end.

(** [os.Stat]: succeeds on whatever exists, file or directory. *)
Record FileInfo : Type := mkFileInfo { Size : Z; IsDir : bool }.

Definition Stat (name : string) (fs : FS) : option FileInfo :=
  match fs !! name with
  | Some (File d) => Some (mkFileInfo (Z.of_nat (length d)) false)
  | Some (Dir size) => Some (mkFileInfo size true)
  | None => None
  end.

Definition is_rename_to (target : string) (op : Syscall) : bool :=
  match op with
  | SysRename _ new => String.eqb new target
  | _ => false
  end.

End os.

(** ** unicode/utf8 *)

Module utf8.

Definition in_range (lo hi : N) (c : ascii) : bool :=
  let n := N_of_ascii c in ((lo <=? n) && (n <=? hi))%N.

(** The width of the UTF-8 encoding at the head of [s], as
    [utf8.DecodeRuneInString] accepts it (no overlong forms, no surrogates,
    nothing above U+10FFFF); 0 when the head byte starts no valid
    encoding. *)
Definition rune_size (s : string) : nat :=
  match s with
  | EmptyString => 0
  | String c0 r =>
      let b0 := N_of_ascii c0 in
      if (b0 <? 128)%N then 1
      else if (b0 <? 194)%N then 0
      else if (b0 <? 224)%N then
        match r with
        | String c1 _ => if in_range 128 191 c1 then 2 else 0
        | _ => 0
        end
      else if (b0 <? 240)%N then
        let lo := if (b0 =? 224)%N then 160%N else 128%N in
        let hi := if (b0 =? 237)%N then 159%N else 191%N in
        match r with
        | String c1 (String c2 _) =>
            if in_range lo hi c1 && in_range 128 191 c2 then 3 else 0
        | _ => 0
        end
      else if (b0 <? 245)%N then
        let lo := if (b0 =? 240)%N then 144%N else 128%N in
        let hi := if (b0 =? 244)%N then 143%N else 191%N in
        match r with
        | String c1 (String c2 (String c3 _)) =>
            if in_range lo hi c1 && in_range 128 191 c2 && in_range 128 191 c3
            then 4 else 0
        | _ => 0
        end
      else 0
  end%nat.

(** U+FFFD, the replacement character, in UTF-8. *)
Definition replacement : string :=
  String (ascii_of_N 239) (String (ascii_of_N 191) (String (ascii_of_N 189) "")).

(** The string with every byte that is not part of a valid encoding
    replaced by U+FFFD, one replacement for each such byte, as the string
    encoder of [encoding/json] writes a Go string;
    [skip] counts the bytes still to copy of the encoding under way. *)
Fixpoint coerce (skip : nat) (s : string) : string :=
  match s with
  | EmptyString => ""
  | String c r =>
      match skip with
      | S k => String c (coerce k r)
      | O =>
          match rune_size s with
          | O => replacement ++ coerce 0 r
          | S k => String c (coerce k r)
          end
      end
  end.

Definition ToValid (s : string) : string := coerce 0 s.

Definition Valid (s : string) : Prop := ToValid s = s.

End utf8.

(** [encoding/json] for one Go type.  [json.Marshal] returns no error on
    the records embedded here, which hold strings, integers and instants
    (an instant beyond the year 9999, which it would refuse, comes neither
    from [time.Now] nor from a decoded RFC 3339 text). *)
Class JSON (A : Type) : Type := {
  json_Marshal : A -> list Byte.byte;
  json_Unmarshal : list Byte.byte -> option A
}.

(** ** internal/ads: Storage *)

Module ads.
Import models Go os.

Record Storage : Type := mkStorage {
  adsDir : string;
  adsFile : string;
  mediaDir : string
}.

Definition NewStorage (configDir : string) : Storage :=
  let adsDir := Join configDir "ads" in
  mkStorage adsDir (Join adsDir "current_ads.json") (Join adsDir "media").

(** The wrapper written to the manifest file. *)
Record adsMetadata : Type := mkMeta {
  FetchedAt : Time;
  mPlaylistID : string;
  mUpdatedAt : Time;
  mAds : list Ad;
  AdsCount : Z
}.

Definition wrap (now : Time) (r : AdDeliveryResponse) : adsMetadata :=
  mkMeta now (PlaylistID r) (UpdatedAt r) (Ads r) (Z.of_nat (length (Ads r))).

(** What the environment answers to the system calls of [SaveAds]. *)
Record SaveIO : Type := mkSaveIO {
  mkdir_ads_ok : bool;
  mkdir_media_ok : bool;
  manifest_io : WriteIO
}.

Definition save_ok : SaveIO := mkSaveIO true true write_ok.

Inductive SaveError : Type := ErrMkdirAds | ErrMkdirMedia | ErrWriteAds.

(** [SaveAds]: the error, if any, and the system calls that took effect;
    [now] is the clock reading stored as [fetchedAt]. *)
Definition SaveAds `{JSON adsMetadata} (s : Storage) (now : Time)
    (r : AdDeliveryResponse) (io : SaveIO)
  : option SaveError * list Syscall :=
  if negb (mkdir_ads_ok io) then (Some ErrMkdirAds, [])
  else if negb (mkdir_media_ok io)
  then (Some ErrMkdirMedia, [SysMkdirAll (adsDir s)])
  else
    let data := json_Marshal (wrap now r) in
    let '(ops, ok) := WriteFile (adsFile s) data (manifest_io io) in
    (if ok then None else Some ErrWriteAds,
     ([SysMkdirAll (adsDir s); SysMkdirAll (mediaDir s)] ++ ops)%list).

Inductive LoadError : Type := ErrNotFound | ErrReadAds | ErrParseAds.

Definition LoadAds `{JSON adsMetadata} (s : Storage) (fs : FS)
  : LoadError + AdDeliveryResponse :=
  match Stat (adsFile s) fs with
  | None => inl ErrNotFound
  | Some _ =>
      match ReadFile (adsFile s) fs with
      | None => inl ErrReadAds
      | Some data =>
          match json_Unmarshal data with
          | Some m => inr (mkAdDeliveryResponse (mAds m) (mPlaylistID m)
                                                (mUpdatedAt m))
          | None => inl ErrParseAds
          end
      end
  end.

(** The manifest path is absent or holds a record that parses. *)
Definition manifest_intact `{JSON adsMetadata} (s : Storage) (st : FS)
  : Prop :=
  match st !! adsFile s with
  | None => True
  | Some (File content) => is_Some (json_Unmarshal content)
  | Some (Dir _) => False
  end.

(** [GetAdMediaPath]: [filepath.Join(s.mediaDir, adID, fileName)], where
    the ad id and the file name come from the server; the path is
    cleaned. *)
Definition GetAdMediaPath (s : Storage) (adID fileName : string) : string :=
  JoinL [mediaDir s; adID; fileName].

End ads.

(** ** pkg/storage: encryption *)

Module storage.
Import Go os.

(** What [crypto/sha256], [crypto/aes] with [crypto/cipher] (GCM) and
    [encoding/base64] compute.  [gcm_seal key nonce plaintext] is the
    ciphertext followed by the tag; [gcm_open] is its authenticated
    inverse. *)
Class Crypto : Type := {
  sha256_Sum256 : bytes -> bytes;
  gcm_seal : bytes -> bytes -> bytes -> bytes;
  gcm_open : bytes -> bytes -> bytes -> option bytes;
  base64_EncodeToString : bytes -> string;
  base64_DecodeString : string -> option bytes
}.

(** The documented contracts of those packages. *)
Class CryptoLaws (C : Crypto) : Prop := {
  sha256_size : forall k, length (sha256_Sum256 k) = 32%nat;
  gcm_open_seal : forall key nonce pt,
    length key = 32%nat -> length nonce = 12%nat ->
    gcm_open key nonce (gcm_seal key nonce pt) = Some pt;
  base64_decode_encode : forall b,
    base64_DecodeString (base64_EncodeToString b) = Some b
}.

(** [rand.Reader]: asked for [n] bytes, an error or some bytes. *)
Definition RandReader : Type := nat -> option bytes.

(** [io.ReadFull] / [rand.Read] into a buffer of [n] bytes: succeeds only
    with exactly [n] bytes. *)
Definition ReadFull (rand : RandReader) (n : nat) : option bytes :=
  match rand n with
  | Some b => if (length b =? n)%nat then Some b else None
  | None => None
  end.

Inductive Error : Type :=
| ErrCreateCipher
| ErrNonce
| ErrTooShort
| ErrDecrypt
| ErrBase64
| ErrGenerateKey.

(** [aes.NewCipher]: accepts keys of 16, 24 or 32 bytes. *)
Definition aes_NewCipher (key : bytes) : option bytes :=
  if (length key =? 16)%nat || (length key =? 24)%nat
     || (length key =? 32)%nat
  then Some key else None.

(** [gcm.NonceSize()] of the standard GCM built by [cipher.NewGCM]. *)
Definition NonceSize : nat := 12.

Section with_crypto.
Context `{C : Crypto}.

(** [gcm.Seal(dst, nonce, plaintext, nil)] and [gcm.Open(dst, nonce,
    ciphertext, nil)] panic on a nonce of the wrong length. *)
Definition Seal (block dst nonce plaintext : bytes) : outcome bytes :=
  if negb (length nonce =? NonceSize)%nat
  then Panic "crypto/cipher: incorrect nonce length given to GCM"
  else Ret (dst ++ gcm_seal block nonce plaintext)%list.

Definition Open (block nonce ciphertext : bytes) : outcome (option bytes) :=
  if negb (length nonce =? NonceSize)%nat
  then Panic "crypto/cipher: incorrect nonce length given to GCM"
  else Ret (gcm_open block nonce ciphertext).

(** Slice expressions [b[:n]] and [b[n:]] panic out of range. *)
Definition slice_to (b : bytes) (n : nat) : outcome bytes :=
  if (n <=? length b)%nat then Ret (take n b)
  else Panic "slice bounds out of range".

Definition slice_from (b : bytes) (n : nat) : outcome bytes :=
  if (n <=? length b)%nat then Ret (drop n b)
  else Panic "slice bounds out of range".

Definition Encrypt (data key : bytes) (rand : RandReader)
  : outcome (Error + bytes) :=
  let key32 := sha256_Sum256 key in
  match aes_NewCipher key32 with
  | None => Ret (inl ErrCreateCipher)
  | Some block =>
      match ReadFull rand NonceSize with
      | None => Ret (inl ErrNonce)
      | Some nonce =>
          ciphertext ← Seal block nonce nonce data;
          Ret (inr ciphertext)
      end
  end.

Definition Decrypt (encryptedData key : bytes) : outcome (Error + bytes) :=
  let key32 := sha256_Sum256 key in
  match aes_NewCipher key32 with
  | None => Ret (inl ErrCreateCipher)
  | Some block =>
      let nonceSize := NonceSize in
      if (length encryptedData <? nonceSize)%nat then Ret (inl ErrTooShort)
      else
        nonce ← slice_to encryptedData nonceSize;
        ciphertext ← slice_from encryptedData nonceSize;
        r ← Open block nonce ciphertext;
        match r with
        | None => Ret (inl ErrDecrypt)
        | Some plaintext => Ret (inr plaintext)
        end
  end.

Definition EncryptToBase64 (data key : bytes) (rand : RandReader)
  : outcome (Error + string) :=
  r ← Encrypt data key rand;
  match r with
  | inl err => Ret (inl err)
  | inr encrypted => Ret (inr (base64_EncodeToString encrypted))
  end.

Definition DecryptFromBase64 (encryptedBase64 : string) (key : bytes)
  : outcome (Error + bytes) :=
  match base64_DecodeString encryptedBase64 with
  | None => Ret (inl ErrBase64)
  | Some encrypted => Decrypt encrypted key
  end.

(** [GenerateEncryptionKey]: 32 bytes from the random source. *)
Definition GenerateEncryptionKey (rand : RandReader) : Error + bytes :=
  match ReadFull rand 32 with
  | Some key => inr key
  | None => inl ErrGenerateKey
  end.

End with_crypto.

End storage.

(** ** internal/credentials: Storage *)

Module credentials.
Import models Go os storage.

Record Storage : Type := mkStorage {
  configDir : string;
  keyFile : string;
  credsFile : string
}.

Definition NewStorage (configDir : string) : Storage :=
  mkStorage configDir (Join configDir ".encryption_key")
            (Join configDir "credentials.json.enc").

Inductive Error : Type :=
| ErrMkdir
| ErrKey (e : storage.Error)
| ErrSaveKey
| ErrEncrypt (e : storage.Error)
| ErrSaveCreds
| ErrCredsNotFound
| ErrRead
| ErrDecryptCreds (e : storage.Error)
| ErrUnmarshal.

(** What the environment answers to the system calls of [Save] and
    [Load]: to [MkdirAll] of the configuration directory, to the write of
    the key file and to the write of the credentials file. *)
Record IO : Type := mkIO {
  mkdir_ok : bool;
  key_io : WriteIO;
  creds_io : WriteIO
}.

Definition io_ok : IO := mkIO true write_ok write_ok.

(** The record as [encoding/json] writes it: a Go string is coerced to
    valid UTF-8, every other byte replaced by U+FFFD. *)
Definition coerce_utf8 (c : Credentials) : Credentials :=
  mkCredentials (utf8.ToValid (ScreenID c)) (utf8.ToValid (Passkey c)).

(** What [json.Unmarshal] reads from the text [json.Marshal] wrote for a
    record of two strings. *)
Class CredentialsJSON (J : JSON Credentials) : Prop := {
  json_credentials_round_trip : forall c,
    json_Unmarshal (json_Marshal c) = Some (coerce_utf8 c)
}.

Section with_libs.
Context `{C : Crypto} `{J : JSON Credentials}.

(** [getOrCreateKey]: the key file's bytes as they are when it can be
    read, else a fresh key written to the key file; [w] is how that write
    goes. *)
Definition getOrCreateKey (s : Storage) (rand : RandReader) (w : WriteIO)
    (fs : FS) : (Error + bytes) * FS :=
  match ReadFile (keyFile s) fs with
  | Some data => (inr data, fs)
  | None =>
      match GenerateEncryptionKey rand with
      | inl e => (inl (ErrKey e), fs)
      | inr key =>
          let '(ops, ok) := WriteFile (keyFile s) key w in
          (if ok then inr key else inl ErrSaveKey, run ops fs)
      end
  end.

(** [Save]; the result is the error, if any, and the files afterwards. *)
Definition Save (s : Storage) (creds : Credentials) (rand : RandReader)
    (io : IO) (fs : FS) : outcome (option Error * FS) :=
  if negb (mkdir_ok io) then Ret (Some ErrMkdir, fs)
  else
    match getOrCreateKey s rand (key_io io) fs with
    | (inl err, fs1) => Ret (Some err, fs1)
    | (inr key, fs1) =>
        let data := json_Marshal creds in
        r ← EncryptToBase64 data key rand;
        match r with
        | inl err => Ret (Some (ErrEncrypt err), fs1)
        | inr encryptedBase64 =>
            let '(ops, ok) :=
              WriteFile (credsFile s) (list_byte_of_string encryptedBase64)
                        (creds_io io) in
            Ret (if ok then None else Some ErrSaveCreds, run ops fs1)
        end
    end.

(** [Load]. *)
Definition Load (s : Storage) (rand : RandReader) (io : IO) (fs : FS)
  : outcome ((Error + Credentials) * FS) :=
  match Stat (credsFile s) fs with
  | None => Ret (inl ErrCredsNotFound, fs)
  | Some _ =>
      match getOrCreateKey s rand (key_io io) fs with
      | (inl err, fs1) => Ret (inl err, fs1)
      | (inr key, fs1) =>
          match ReadFile (credsFile s) fs1 with
          | None => Ret (inl ErrRead, fs1)
          | Some encryptedBase64 =>
              r ← DecryptFromBase64 (string_of_list_byte encryptedBase64) key;
              match r with
              | inl err => Ret (inl (ErrDecryptCreds err), fs1)
              | inr data =>
                  match json_Unmarshal data with
                  | Some creds => Ret (inr creds, fs1)
                  | None => Ret (inl ErrUnmarshal, fs1)
                  end
              end
          end
      end
  end.

(** [Exists] and [Delete]; removing a file that is not there is no
    error, and [Delete] is taken as it goes when [os.Remove] succeeds. *)
Definition Exists (s : Storage) (fs : FS) : bool :=
  match Stat (credsFile s) fs with Some _ => true | None => false end.

Definition Delete (s : Storage) (fs : FS) : FS := delete (credsFile s) fs.

End with_libs.

End credentials.

(** ** internal/player: Downloader *)

Module downloader.
Import models Go os.

Record Downloader : Type := mk {
  dstorage : ads.Storage;
  maxRetries : Z;
  retryDelay : Duration
}.

Definition NewDownloader (st : ads.Storage) (maxRetries retryDelaySeconds : Z)
  : Downloader :=
  mk st maxRetries (mul64 retryDelaySeconds Second).

(** [filepath.Ext]: the suffix starting at the last dot of the last
    path element.  [ext_scan s] returns whether [s] contains a separator
    and the extension found so far, reading [s] from its end. *)
Fixpoint ext_scan (s : string) : bool * string :=
  match s with
  | EmptyString => (false, "")
  | String c r =>
      let '(sep, e) := ext_scan r in
      if sep then (true, e)
      else if negb (String.eqb e "") then (Ascii.eqb c "/", e)
      else if Ascii.eqb c "." then (false, String c r)
      else (Ascii.eqb c "/", "")
  end.

Definition Ext (path : string) : string := snd (ext_scan path).

(** [strings.Split(s, "?")[0]]: what precedes the first question mark. *)
Fixpoint before_query (s : string) : string :=
  match s with
  | EmptyString => ""
  | String c r => if Ascii.eqb c "?" then "" else String c (before_query r)
  end.

(** [strings.ToLower], on the ASCII letters. *)
Definition lower_ascii (c : ascii) : ascii :=
  let n := nat_of_ascii c in
  if ((65 <=? n) && (n <=? 90))%nat then ascii_of_nat (n + 32) else c.

Fixpoint ToLower (s : string) : string :=
  match s with
  | EmptyString => ""
  | String c r => String (lower_ascii c) (ToLower r)
  end.

Definition getFileExtension (url adType : string) : string :=
  let ext := Ext url in
  let ext' := before_query ext in
  if negb (String.eqb ext "") && negb (String.eqb ext' "") then ext'
  else
    let t := ToLower adType in
    if String.eqb t "image" then ".jpg"
    else if String.eqb t "video" then ".mp4"
    else if String.eqb t "html" then ".html"
    else if String.eqb t "text" then ".txt"
    else ".bin".

Definition media_path (d : Downloader) (ad : Ad) : string :=
  let ext := getFileExtension (ContentURL ad) (Type_ ad) in
  let fileName := ID ad ++ ext in
  ads.GetAdMediaPath (dstorage d) (ID ad) fileName.

(** [GetLocalPath]. *)
Definition GetLocalPath (d : Downloader) (ad : Ad) (fs : FS)
  : string * bool :=
  let localPath := media_path d ad in
  match Stat localPath fs with
  | Some info => if 0 <? Size info then (localPath, true) else ("", false)
  | None => ("", false)
  end.

Definition HasPrefix (s p : string) : bool := String.prefix p s.

Definition TrimPrefix (s p : string) : string :=
  if String.prefix p s
  then substring (String.length p) (String.length s - String.length p) s
  else s.

(** What one [DownloadFile] meets: the request fails, or a response
    arrives and then the local calls go one of four ways: [MkdirAll] of
    the destination directory fails, [os.Create] fails, [io.Copy] fails
    after [written] bytes, or all of them succeed. *)
Inductive IOResult : Type :=
| IOMkdirErr
| IOCreateErr
| IOCopyErr (written : nat)
| IOOk.

Inductive Fetch : Type :=
| FetchErr
| FetchResp (code : Z) (body : bytes) (io : IOResult).

(** Errors of one download attempt, and of [DownloadAdMedia]. *)
Inductive AttemptError : Type :=
| ErrExecute
| ErrStatusCode (code : Z)
| ErrDestDir
| ErrCreateFile
| ErrWriteFile
| ErrEmpty.

Inductive Error : Type :=
| ErrLocalNotFound (path : string)
| ErrMediaDir
| ErrAfterAttempts (attempts : Z) (last : option AttemptError).

(** [DownloadFile]: [os.Create] truncates the destination, [io.Copy]
    fills it. *)
Definition DownloadFile (destPath : string) (f : Fetch) (fs : FS)
  : option AttemptError * FS :=
  match f with
  | FetchErr => (Some ErrExecute, fs)
  | FetchResp code body io =>
      if negb (code =? 200) then (Some (ErrStatusCode code), fs)
      else match io with
           | IOMkdirErr => (Some ErrDestDir, fs)
           | IOCreateErr => (Some ErrCreateFile, fs)
           | IOCopyErr n =>
               (Some ErrWriteFile, <[destPath := File (take n body)]> fs)
           | IOOk => (None, <[destPath := File body]> fs)
           end
  end.

(** The retry loop of [DownloadAdMedia], unrolled over the iterations
    left; [net k] is what the k-th [DownloadFile] meets.  The sleeps
    between attempts do not touch the files. *)
Fixpoint download_loop (iters : nat) (k : nat) (d : Downloader)
    (localPath : string) (net : nat -> Fetch)
    (lastErr : option AttemptError) (fs : FS) : (Error + string) * FS :=
  match iters with
  | O => (inl (ErrAfterAttempts (add64 (maxRetries d) 1) lastErr), fs)
  | S iters' =>
      match DownloadFile localPath (net k) fs with
      | (None, fs') =>
          match Stat localPath fs' with
          | Some info =>
              if 0 <? Size info then (inr localPath, fs')
              else download_loop iters' (S k) d localPath net (Some ErrEmpty) fs'
          | None =>
              download_loop iters' (S k) d localPath net (Some ErrEmpty) fs'
          end
      | (Some err, fs') =>
          download_loop iters' (S k) d localPath net (Some err) fs'
      end
  end.

(** [DownloadAdMedia]; [ensure_ok] tells whether [EnsureAdMediaDir]
    succeeds. *)
Definition DownloadAdMedia (d : Downloader) (ad : Ad) (ensure_ok : bool)
    (net : nat -> Fetch) (fs : FS) : (Error + string) * FS :=
  match GetLocalPath d ad fs with
  | (localPath, true) => (inr localPath, fs)
  | (_, false) =>
      if HasPrefix (ContentURL ad) "file://" then
        let localPath := TrimPrefix (ContentURL ad) "file://" in
        match Stat localPath fs with
        | Some _ => (inr localPath, fs)
        | None => (inl (ErrLocalNotFound localPath), fs)
        end
      else if negb ensure_ok then (inl ErrMediaDir, fs)
      else
        download_loop (Z.to_nat (maxRetries d + 1)) 0 d (media_path d ad)
                      net None fs
  end.

(** Does the character occur in the string? *)
Fixpoint has_char (c : ascii) (s : string) : bool :=
  match s with
  | EmptyString => false
  | String x r => Ascii.eqb x c || has_char c r
  end.

(** [IsCached]. *)
Definition IsCached (d : Downloader) (ad : Ad) (fs : FS) : bool :=
  snd (GetLocalPath d ad fs).

(** What [os.ReadDir] of the media directory answers: the directory is
    missing, another error, or its entries with their [IsDir] flag. *)
Inductive ReadDirResult : Type :=
| DirMissing
| DirError
| DirEntries (entries : list (string * bool)).

(** The loop of [CleanupOldMedia] over the entries: the directories handed
    to [os.RemoveAll], in order, and the count of those removed without
    error ([remove_ok] tells which removals succeed).  A Go map read of an
    absent key gives [false]. *)
Fixpoint cleanup_loop (mediaDir : string) (currentAdIDs : gmap string bool)
    (remove_ok : string -> bool) (entries : list (string * bool))
  : list string * Z :=
  match entries with
  | [] => ([], 0)
  | (name, isDir) :: rest =>
      let '(removed, cleaned) :=
        cleanup_loop mediaDir currentAdIDs remove_ok rest in
      if negb isDir then (removed, cleaned)
      else if negb (default false (currentAdIDs !! name)) then
        let adMediaDir := Join mediaDir name in
        (adMediaDir :: removed,
         if remove_ok adMediaDir then cleaned + 1 else cleaned)
      else (removed, cleaned)
  end.

(** [CleanupOldMedia]: the error flag and the directories it removes. *)
Definition CleanupOldMedia (d : Downloader) (currentAdIDs : gmap string bool)
    (dir : ReadDirResult) (remove_ok : string -> bool)
  : bool * list string :=
  match dir with
  | DirMissing => (false, [])
  | DirError => (true, [])
  | DirEntries entries =>
      (false,
       fst (cleanup_loop (ads.mediaDir (dstorage d)) currentAdIDs remove_ok
                         entries))
  end.

End downloader.

(** ** internal/player: Player *)

Module player.
Import models Go.

Inductive PlayerState : Type :=
| PlayerStateStopped
| PlayerStatePlaying
| PlayerStatePaused
| PlayerStateLoading
| PlayerStateError.

(** The fields of [Player] and [PlayerStats] written by the state
    machine.  The playlist is handed to [loadNextAd] beside the player;
    the downloader and the renderer enter through their answers. *)
Record Player : Type := mk {
  currentAd : option Ad;
  state : PlayerState;
  stats_State : PlayerState;
  TotalAdsPlayed : Z;
  LastError : option string
}.

Definition NewPlayer : Player :=
  mk None PlayerStateStopped PlayerStateStopped 0 None.

Definition is_state (a b : PlayerState) : bool :=
  match a, b with
  | PlayerStateStopped, PlayerStateStopped
  | PlayerStatePlaying, PlayerStatePlaying
  | PlayerStatePaused, PlayerStatePaused
  | PlayerStateLoading, PlayerStateLoading
  | PlayerStateError, PlayerStateError => true
  | _, _ => false
  end.

Definition set_state (p : Player) (s : PlayerState) : Player :=
  mk (currentAd p) s s (TotalAdsPlayed p) (LastError p).

(** [Start], [Stop], [Pause], [Resume]: what each does to the fields
    under the player's lock. *)
Definition Start (p : Player) : Player :=
  if is_state (state p) PlayerStatePlaying then p
  else set_state p PlayerStatePlaying.

Definition Stop (p : Player) : Player :=
  if is_state (state p) PlayerStateStopped then p
  else mk None PlayerStateStopped PlayerStateStopped (TotalAdsPlayed p)
          (LastError p).

Definition Pause (p : Player) : Player :=
  if negb (is_state (state p) PlayerStatePlaying) then p
  else set_state p PlayerStatePaused.

Definition Resume (p : Player) : Player :=
  if negb (is_state (state p) PlayerStatePaused) then p
  else set_state p PlayerStatePlaying.

(** [UpdateAds] forwards to the playlist and leaves these fields alone. *)
Definition UpdateAds (p : Player) : Player := p.

(** The locked sections of [loadNextAd], in source order. *)
Definition load_begin (p : Player) : Player :=
  set_state p PlayerStateLoading.

Definition load_no_ad (p : Player) : Player :=
  mk None PlayerStatePlaying PlayerStatePlaying (TotalAdsPlayed p)
     (LastError p).

Definition load_render_error (err : string) (p : Player) : Player :=
  mk (currentAd p) PlayerStateError PlayerStateError (TotalAdsPlayed p)
     (Some err).

Definition load_rendered (ad : Ad) (p : Player) : Player :=
  mk (Some ad) PlayerStatePlaying PlayerStatePlaying
     (add64 (TotalAdsPlayed p) 1) (LastError p).

(** What the downloader and the renderer make of the ad the playlist
    hands over: no media, a render error, or the ad on screen. *)
Inductive MediaAnswer : Type :=
| NoMedia
| RenderFailed (err : string)
| Rendered.

(** [loadNextAd] run without interruption: the player as the call leaves
    it, and how the call ends.  After its first locked section it calls
    [p.playlist.GetNextAd()]; [now] is the clock reading there. *)
Definition loadNextAd (now : Time) (media : Ad -> MediaAnswer) (p : Player)
    (pl : Playlist.t) : Player * outcome Playlist.t :=
  let p1 := load_begin p in
  match Playlist.GetNextAd now pl with
  | Blocked => (p1, Blocked)
  | Panic msg => (p1, Panic msg)
  | Ret (None, pl') => (load_no_ad p1, Ret pl')
  | Ret (Some ad, pl') =>
      match media ad with
      | NoMedia => (p1, Ret pl')
      | RenderFailed err => (load_render_error err p1, Ret pl')
      | Rendered => (load_rendered ad p1, Ret pl')
      end
  end.

(** One atomic step of the player: a whole API call, or one locked
    section of the playback goroutine.  API calls come from other
    goroutines and may fall between any two sections of [loadNextAd]; the
    answer of the playlist selector is left open. *)
Inductive step : Player -> Player -> Prop :=
| step_Start p : step p (Start p)
| step_Stop p : step p (Stop p)
| step_Pause p : step p (Pause p)
| step_Resume p : step p (Resume p)
| step_UpdateAds p : step p (UpdateAds p)
| step_load_begin p : step p (load_begin p)
| step_load_no_ad p : step p (load_no_ad p)
| step_load_render_error p err : step p (load_render_error err p)
| step_load_rendered p ad : step p (load_rendered ad p).

Inductive reachable : Player -> Prop :=
| reach_new : reachable NewPlayer
| reach_step p q : reachable p -> step p q -> reachable q.

(** One [ticker.C] turn of [playbackLoop]: nothing unless the state is
    playing; then a new ad is loaded when there is none or when the
    scheduler says the current one is due ([due]). *)
Definition tick (now : Time) (due : bool) (media : Ad -> MediaAnswer)
    (p : Player) (pl : Playlist.t) : Player * outcome Playlist.t :=
  if negb (is_state (state p) PlayerStatePlaying) then (p, Ret pl)
  else if match currentAd p with None => true | Some _ => due end
       then loadNextAd now media p pl
       else (p, Ret pl).

(** A stopped player shows nothing, and the statistics mirror the
    state. *)
Definition stopped_means_idle (p : Player) : Prop :=
  (state p = PlayerStateStopped -> currentAd p = None) /\
  stats_State p = state p.

Definition in_active_state (p : Player) : bool :=
  is_state (state p) PlayerStateLoading
  || is_state (state p) PlayerStatePlaying
  || is_state (state p) PlayerStatePaused.

End player.

(** ** internal/ads: Fetcher *)

Module fetcher.
Import models Go os client.

Record Fetcher : Type := mk {
  fclient : Client;
  screenID : string;
  interval : Duration;
  retryAttempts : Z;
  retryDelay : Duration;
  fstorage : ads.Storage;
  lastAds : option AdDeliveryResponse;
  lastFetch : Time;
  lastError : option Error
}.

Definition NewFetcher (adClient : Client) (screenID configDir : string)
    (intervalSeconds retryAttempts retryDelaySeconds : Z) : Fetcher :=
  mk adClient screenID (mul64 intervalSeconds Second) retryAttempts
     (mul64 retryDelaySeconds Second) (ads.NewStorage configDir)
     None 0 None.

Definition set_result (f : Fetcher) (r : option AdDeliveryResponse)
    (fetched : Time) (err : option Error) : Fetcher :=
  mk (fclient f) (screenID f) (interval f) (retryAttempts f) (retryDelay f)
     (fstorage f) r fetched err.

Section cycle.
Context `{E : Env} `{J : JSON ads.adsMetadata}.

(** The retry loop of [fetchAds], unrolled over the iterations left.
    [now] stands for the clock readings of the attempt that succeeds: the
    stamp of a synthesised empty manifest, [lastFetch], and the
    [fetchedAt] written by [SaveAds]; [io] is how the system calls of
    [SaveAds] go.  A failure of [SaveAds] is only logged. *)
Fixpoint fetchAds_loop (iters : nat) (attempt : Z) (f : Fetcher)
    (now : Time) (net : Transport) (io : ads.SaveIO)
    (lastErr : option Error) (fs : FS)
  : Fetcher * FS * list Event :=
  match iters with
  | O => (set_result f (lastAds f) (lastFetch f) lastErr, fs, [])
  | S iters' =>
      let pre := if 0 <? attempt
                 then [EvSleep (mul64 (retryDelay f) attempt)] else [] in
      match GetAds (fclient f) (screenID f) now net with
      | (inr r, evs) =>
          (set_result f (Some r) now None,
           run (snd (ads.SaveAds (fstorage f) now r io)) fs,
           (pre ++ evs)%list)
      | (inl err, evs) =>
          let '(f', fs', evs') :=
            fetchAds_loop iters' (attempt + 1) f now
                          (shift (calls evs) net) io (Some err) fs in
          (f', fs', (pre ++ evs ++ evs')%list)
      end
  end.

Definition fetchAds (f : Fetcher) (now : Time) (net : Transport)
    (io : ads.SaveIO) (fs : FS) : Fetcher * FS * list Event :=
  fetchAds_loop (Z.to_nat (retryAttempts f + 1)) 0 f now net io None fs.

Definition LoadAdsFromStorage (f : Fetcher) (fs : FS)
  : ads.LoadError + AdDeliveryResponse :=
  ads.LoadAds (fstorage f) fs.

(** A fetch cycle in which every attempt returns an error. *)
Fixpoint all_attempts_fail (iters : nat) (f : Fetcher) (now : Time)
    (net : Transport) : Prop :=
  match iters with
  | O => True
  | S iters' =>
      match GetAds (fclient f) (screenID f) now net with
      | (inr _, _) => False
      | (inl _, evs) => all_attempts_fail iters' f now (shift (calls evs) net)
      end
  end.

Definition cycle_fails (f : Fetcher) (now : Time) (net : Transport) : Prop :=
  all_attempts_fail (Z.to_nat (retryAttempts f + 1)) f now net.

(** What attempt number [k] of a cycle (counted from 0) meets of the
    transport, the attempts before it having used their share, and the
    error it returns, if any. *)
Fixpoint attempt_net (k : nat) (f : Fetcher) (now : Time) (net : Transport)
  : Transport :=
  match k with
  | O => net
  | S k' =>
      let net' := attempt_net k' f now net in
      shift (calls (snd (GetAds (fclient f) (screenID f) now net'))) net'
  end.

Definition attempt_error (k : nat) (f : Fetcher) (now : Time)
    (net : Transport) : option Error :=
  match fst (GetAds (fclient f) (screenID f) now (attempt_net k f now net)) with
  | inl err => Some err
  | inr _ => None
  end.

End cycle.

End fetcher.

(** ** internal/credentials: Manager *)

Module manager.
Import models Go os storage credentials.

Record Manager : Type := mk { mstorage : Storage }.

Definition NewManager (configDir : string) : Manager :=
  mk (NewStorage configDir).

Inductive Error : Type :=
| ErrCredentialsNotFound
| ErrInvalidCredentials
| ErrLoadFailed (e : credentials.Error)
| ErrSaveFailed (e : credentials.Error).

Definition IsValid (c : Credentials) : bool := HasCredentials c.

Section with_libs.
Context `{C : Crypto} `{J : JSON Credentials}.

Definition GetOrCreate (m : Manager) (screenID : string) (rand : RandReader)
    (io : IO) (fs : FS) : outcome (Credentials * FS) :=
  if Exists (mstorage m) fs then
    '(r, fs1) ← credentials.Load (mstorage m) rand io fs;
    match r with
    | inr creds => Ret (creds, fs1)
    | inl _ => Ret (mkCredentials screenID "", fs1)
    end
  else Ret (mkCredentials screenID "", fs).

Definition Load (m : Manager) (rand : RandReader) (io : IO) (fs : FS)
  : outcome ((Error + Credentials) * FS) :=
  if negb (Exists (mstorage m) fs) then Ret (inl ErrCredentialsNotFound, fs)
  else
    '(r, fs1) ← credentials.Load (mstorage m) rand io fs;
    match r with
    | inl err => Ret (inl (ErrLoadFailed err), fs1)
    | inr creds => Ret (inr creds, fs1)
    end.

Definition Save (m : Manager) (creds : Credentials) (rand : RandReader)
    (io : IO) (fs : FS) : outcome (option Error * FS) :=
  if negb (IsValid creds) then Ret (Some ErrInvalidCredentials, fs)
  else
    '(r, fs1) ← credentials.Save (mstorage m) creds rand io fs;
    match r with
    | Some err => Ret (Some (ErrSaveFailed err), fs1)
    | None => Ret (None, fs1)
    end.

Definition SetCredentials (m : Manager) (screenID passkey : string)
    (rand : RandReader) (io : IO) (fs : FS) : outcome (option Error * FS) :=
  Save m (mkCredentials screenID passkey) rand io fs.

Definition GetCredentials (m : Manager) (rand : RandReader) (io : IO)
    (fs : FS) : outcome ((Error + string * string) * FS) :=
  '(r, fs1) ← Load m rand io fs;
  match r with
  | inl err => Ret (inl err, fs1)
  | inr creds =>
      if negb (HasCredentials creds) then Ret (inl ErrCredentialsNotFound, fs1)
      else Ret (inr (ScreenID creds, Passkey creds), fs1)
  end.

Definition Validate (m : Manager) (rand : RandReader) (io : IO) (fs : FS)
  : outcome (option Error * FS) :=
  '(r, fs1) ← Load m rand io fs;
  match r with
  | inl err => Ret (Some err, fs1)
  | inr creds =>
      if negb (IsValid creds) then Ret (Some ErrInvalidCredentials, fs1)
      else Ret (None, fs1)
  end.

End with_libs.

End manager.

(** ** internal/config: Loader *)

Module config.
Import models Go os.

Record Loader : Type := mk { configDir : string; configFile : string }.

Definition NewLoader (configDir : string) : Loader :=
  mk configDir (Join configDir "config.json").

Inductive Error : Type := ErrReadConfig | ErrParseConfig.

Definition with_url (c : ScreenConfig) (url : string) : ScreenConfig :=
  mkScreenConfig url (HeartbeatInterval c) (AdFetchInterval c)
                 (RetryAttempts c) (RetryDelay c).

(** The defaults [Load] fills in, field by field, and whether any was
    needed. *)
Definition apply_defaults (config : ScreenConfig) : ScreenConfig * bool :=
  let needsSave := false in
  let '(fetch, needsSave) :=
    if AdFetchInterval config =? 0 then (60, true)
    else (AdFetchInterval config, needsSave) in
  let '(hb, needsSave) :=
    if HeartbeatInterval config =? 0 then (30, true)
    else (HeartbeatInterval config, needsSave) in
  let '(attempts, needsSave) :=
    if RetryAttempts config =? 0 then (3, true)
    else (RetryAttempts config, needsSave) in
  let '(delay, needsSave) :=
    if RetryDelay config =? 0 then (5, true)
    else (RetryDelay config, needsSave) in
  (mkScreenConfig (AdServerURL config) hb fetch attempts delay, needsSave).

Section with_json.
Context `{J : JSON ScreenConfig}.

(** [Save], when none of its system calls fails. *)
Definition Save (l : Loader) (config : ScreenConfig) (fs : FS) : FS :=
  run ([SysMkdirAll (configDir l)]
       ++ fst (WriteFile (configFile l) (json_Marshal config) write_ok))%list
      fs.

Definition CreateDefault (l : Loader) (fs : FS) : ScreenConfig * FS :=
  let config := with_url DefaultConfig "http://10.42.0.1:8080" in
  (config, Save l config fs).

Definition Load (l : Loader) (fs : FS) : (Error + ScreenConfig) * FS :=
  match Stat (configFile l) fs with
  | None => let '(config, fs') := CreateDefault l fs in (inr config, fs')
  | Some _ =>
      match ReadFile (configFile l) fs with
      | None => (inl ErrReadConfig, fs)
      | Some data =>
          match json_Unmarshal data with
          | None => (inl ErrParseConfig, fs)
          | Some config =>
              let '(config', needsSave) := apply_defaults config in
              (inr config', if needsSave then Save l config' fs else fs)
          end
      end
  end.

End with_json.

End config.

(** ** internal/player: RendererManager (selection) *)

Module renderers.
Import models.

(** The four renderers registered by [NewRendererManager], in order. *)
Inductive Renderer : Type :=
| ImageRenderer
| VideoRenderer
| HTMLRenderer
| TextRenderer.

Definition CanRender (r : Renderer) (ad : Ad) : bool :=
  let adType := Type_ ad in
  match r with
  | ImageRenderer =>
      String.eqb adType "image" || String.eqb adType "jpg"
      || String.eqb adType "jpeg" || String.eqb adType "png"
      || String.eqb adType "gif" || String.eqb adType "webp"
  | VideoRenderer =>
      String.eqb adType "video" || String.eqb adType "mp4"
      || String.eqb adType "webm" || String.eqb adType "mov"
      || String.eqb adType "avi"
  | HTMLRenderer => String.eqb adType "html"
  | TextRenderer => String.eqb adType "text"
  end.

Definition registered : list Renderer :=
  [ImageRenderer; VideoRenderer; HTMLRenderer; TextRenderer].

(** The loop of [GetRenderer] over a renderer list. *)
Fixpoint first_able (rs : list Renderer) (ad : Ad) : option Renderer :=
  match rs with
  | [] => None
  | r :: rs' => if CanRender r ad then Some r else first_able rs' ad
  end.

Definition GetRenderer (ad : Ad) : option Renderer :=
  first_able registered ad.

(** The type tags some renderer accepts. *)
Definition known_types : list string :=
  ["image"; "jpg"; "jpeg"; "png"; "gif"; "webp";
   "video"; "mp4"; "webm"; "mov"; "avi"; "html"; "text"].

End renderers.

(** ** internal/identity: generator *)

Module identity.
Import os storage.

(** [(b & mask) | bits] on a byte. *)
Definition and_or (b : Byte.byte) (mask bits : N) : Byte.byte :=
  match Byte.of_N (N.lor (N.land (Byte.to_N b) mask) bits) with
  | Some b' => b'
  | None => b
  end.

Definition hex_digit (n : N) : ascii :=
  match n with
  | 0 => "0" | 1 => "1" | 2 => "2" | 3 => "3" | 4 => "4" | 5 => "5"
  | 6 => "6" | 7 => "7" | 8 => "8" | 9 => "9" | 10 => "a" | 11 => "b"
  | 12 => "c" | 13 => "d" | 14 => "e" | _ => "f"
  end%N%char.

(** The verb [%x] on a byte slice: two lower-case hex digits per byte. *)
Fixpoint hex (bs : bytes) : string :=
  match bs with
  | [] => ""
  | b :: bs' =>
      String (hex_digit (Byte.to_N b / 16))
             (String (hex_digit (Byte.to_N b mod 16)) (hex bs'))
  end.

(** [b[i] = v] on a slice; out of range is a panic, which the fixed
    16-byte buffer rules out. *)
Definition set_byte (i : nat) (v : Byte.byte) (bs : bytes) : bytes :=
  <[i := v]> bs.

(** [GenerateUUID]. *)
Definition GenerateUUID (rand : RandReader) : option string :=
  match ReadFull rand 16 with
  | None => None
  | Some b =>
      let b := match b !! 6%nat with
               | Some b6 => set_byte 6 (and_or b6 15 64) b
               | None => b
               end in
      let b := match b !! 8%nat with
               | Some b8 => set_byte 8 (and_or b8 63 128) b
               | None => b
               end in
      Some (hex (take 4 b) ++ "-" ++ hex (take 2 (drop 4 b)) ++ "-"
            ++ hex (take 2 (drop 6 b)) ++ "-" ++ hex (take 2 (drop 8 b))
            ++ "-" ++ hex (drop 10 b))
  end.

(** [GenerateScreenID]. *)
Definition GenerateScreenID (rand : RandReader) : option string :=
  match GenerateUUID rand with
  | Some uuid => Some ("screen-" ++ uuid)
  | None => None
  end.

(** Lower-case hexadecimal digits, and the positions of the hyphens in
    the 8-4-4-4-12 layout. *)
Definition is_hex (c : ascii) : bool :=
  existsb (Ascii.eqb c) (list_ascii_of_string "0123456789abcdef").

Definition is_hyphen_position (i : nat) : bool :=
  existsb (Nat.eqb i) [8; 13; 18; 23]%nat.

End identity.

(** ** A small instance of the library interfaces

    Stand-ins for the Go packages, small enough to run the embedded code
    on concrete inputs.  They satisfy the contracts the theorems assume and
    nothing more. *)

Module standin.
Import models os storage.

(** A 32-byte "digest": the input padded or cut to 32 bytes. *)
Definition pad32 (k : bytes) : bytes :=
  take 32 (k ++ replicate 32 Byte.x00)%list.

(** A 16-byte tag appended to the plaintext; opening checks it. *)
Definition tag : bytes := replicate 16 Byte.xff.

Definition seal (key nonce pt : bytes) : bytes := (pt ++ tag)%list.

Fixpoint bytes_eqb (a b : bytes) : bool :=
  match a, b with
  | [], [] => true
  | x :: a', y :: b' => Byte.eqb x y && bytes_eqb a' b'
  | _, _ => false
  end.

Definition open (key nonce ct : bytes) : option bytes :=
  let n := (length ct - 16)%nat in
  if (16 <=? length ct)%nat && bytes_eqb (drop n ct) tag
  then Some (take n ct) else None.

#[global] Instance crypto : Crypto := {|
  sha256_Sum256 := pad32;
  gcm_seal := seal;
  gcm_open := open;
  base64_EncodeToString := string_of_list_byte;
  base64_DecodeString := fun s => Some (list_byte_of_string s)
|}.

(** Numbers in unary, and a string behind its length in unary. *)
Fixpoint unary (n : nat) : string :=
  match n with O => "" | S n' => String "1" (unary n') end.

Fixpoint read_unary (s : string) : option (nat * string) :=
  match s with
  | EmptyString => None
  | String c r =>
      if Ascii.eqb c "0" then Some (O, r)
      else if Ascii.eqb c "1" then
        match read_unary r with
        | Some (n, r') => Some (S n, r')
        | None => None
        end
      else None
  end.

Fixpoint split_at (n : nat) (s : string) : option (string * string) :=
  match n with
  | O => Some ("", s)
  | S n' =>
      match s with
      | EmptyString => None
      | String c r =>
          match split_at n' r with
          | Some (a, b) => Some (String c a, b)
          | None => None
          end
      end
  end.

Definition put_string (s : string) : string :=
  unary (String.length s) ++ String "0" s.

Definition get_string (s : string) : option (string * string) :=
  match read_unary s with
  | Some (n, r) => split_at n r
  | None => None
  end.

(** Credentials: the two strings, coerced to valid UTF-8 as
    [encoding/json] does, the first behind its length. *)
#[global] Instance json_credentials : JSON Credentials := {|
  json_Marshal := fun c =>
    list_byte_of_string
      (put_string (utf8.ToValid (ScreenID c)) ++ utf8.ToValid (Passkey c));
  json_Unmarshal := fun b =>
    match get_string (string_of_list_byte b) with
    | Some (a, p) => Some (mkCredentials a p)
    | None => None
    end
|}.

(** Integers in binary, lowest bit first, behind a sign. *)
Fixpoint put_pos (p : positive) : string :=
  match p with
  | xH => "1"
  | xO q => String "0" (put_pos q)
  | xI q => String "1" (put_pos q)
  end.

Fixpoint get_pos (s : string) : option positive :=
  match s with
  | EmptyString => None
  | String c r =>
      if String.eqb r "" then (if Ascii.eqb c "1" then Some xH else None)
      else match get_pos r with
           | Some q => if Ascii.eqb c "1" then Some (xI q)
                       else if Ascii.eqb c "0" then Some (xO q) else None
           | None => None
           end
  end.

Definition put_Z (z : Z) : string :=
  put_string (match z with
              | Z0 => "z"
              | Zpos p => String "+" (put_pos p)
              | Zneg p => String "-" (put_pos p)
              end).

Definition get_Z (s : string) : option (Z * string) :=
  match get_string s with
  | Some (String c d, r) =>
      if Ascii.eqb c "z" then Some (0, r)
      else match get_pos d with
           | Some p => if Ascii.eqb c "+" then Some (Zpos p, r)
                       else if Ascii.eqb c "-" then Some (Zneg p, r) else None
           | None => None
           end
  | _ => None
  end.

Definition put_ad (a : Ad) : string :=
  put_string (ID a) ++ put_string (Title a) ++ put_string (Type_ a)
  ++ put_string (ContentURL a) ++ put_Z (models.Duration a)
  ++ put_Z (StartTime a) ++ put_Z (EndTime a) ++ put_Z (Priority a).

Definition get_ad (s : string) : option (Ad * string) :=
  '(id, s) ← get_string s;
  '(title, s) ← get_string s;
  '(type, s) ← get_string s;
  '(url, s) ← get_string s;
  '(duration, s) ← get_Z s;
  '(start, s) ← get_Z s;
  '(stop, s) ← get_Z s;
  '(priority, s) ← get_Z s;
  Some (mkAd id title type url duration start stop priority, s).

Fixpoint put_ads (l : list Ad) : string :=
  match l with
  | [] => ""
  | a :: l' => put_ad a ++ put_ads l'
  end.

Fixpoint get_ads (n : nat) (s : string) : option (list Ad * string) :=
  match n with
  | O => Some ([], s)
  | S n' =>
      '(a, s) ← get_ad s;
      '(l, s) ← get_ads n' s;
      Some (a :: l, s)
  end.

(** The manifest wrapper, field by field, between braces. *)
#[global] Instance json_adsMetadata : JSON ads.adsMetadata := {|
  json_Marshal := fun m =>
    list_byte_of_string
      ("{" ++ put_Z (ads.FetchedAt m) ++ put_string (ads.mPlaylistID m)
       ++ put_Z (ads.mUpdatedAt m) ++ put_Z (ads.AdsCount m)
       ++ unary (length (ads.mAds m)) ++ String "0" (put_ads (ads.mAds m))
       ++ "}");
  json_Unmarshal := fun b =>
    match string_of_list_byte b with
    | String "{" s =>
        '(fetched, s) ← get_Z s;
        '(playlist, s) ← get_string s;
        '(updated, s) ← get_Z s;
        '(count, s) ← get_Z s;
        '(n, s) ← read_unary s;
        '(l, s) ← get_ads n s;
        if String.eqb s "}"
        then Some (ads.mkMeta fetched playlist updated l count) else None
    | _ => None
    end
|}.

(** A client environment in which every request can be built and every
    body parses. *)
#[global] Instance client_env : client.Env := {|
  client.Screen := string;
  client.NewRequest_ok := fun _ _ => true;
  client.decodeScreen := fun body => Some body;
  client.decodeAds := fun body => Some (mkAdDeliveryResponse [] body 0)
|}.

(** A codec for the configuration: the five fields on five lines, the
    numbers in unary. *)
Fixpoint split_line (s : string) : option (string * string) :=
  match s with
  | EmptyString => None
  | String c r =>
      if Ascii.eqb c "010" then Some ("", r)
      else match split_line r with
           | Some (a, b) => Some (String c a, b)
           | None => None
           end
  end.

Definition config_lines (c : ScreenConfig) : string :=
  AdServerURL c ++ String "010"
    (unary (Z.to_nat (HeartbeatInterval c)) ++ String "010"
       (unary (Z.to_nat (AdFetchInterval c)) ++ String "010"
          (unary (Z.to_nat (RetryAttempts c)) ++ String "010"
             (unary (Z.to_nat (RetryDelay c)))))).

Definition parse_config (s : string) : option ScreenConfig :=
  match split_line s with
  | Some (url, r1) =>
      match split_line r1 with
      | Some (hb, r2) =>
          match split_line r2 with
          | Some (fetch, r3) =>
              match split_line r3 with
              | Some (attempts, delay) =>
                  Some (mkScreenConfig url
                          (Z.of_nat (String.length hb))
                          (Z.of_nat (String.length fetch))
                          (Z.of_nat (String.length attempts))
                          (Z.of_nat (String.length delay)))
              | None => None
              end
          | None => None
          end
      | None => None
      end
  | None => None
  end.

#[global] Instance json_config : JSON ScreenConfig := {|
  json_Marshal := fun c => list_byte_of_string (config_lines c);
  json_Unmarshal := fun b => parse_config (string_of_list_byte b)
|}.

Definition rand_zero : RandReader := fun n => Some (replicate n Byte.x00).

Definition net_down : client.Transport := fun _ => client.DoErr "dial tcp".

End standin.

(** ** Example data *)

Module example.
Import models.

(** Three ads around the instant 1000: no window, a start in the future,
    an end in the past. *)
Definition ad_U : Ad := mkAd "U" "" "image" "http://cdn/u.jpg" 10 0 0 0.
Definition ad_V : Ad := mkAd "V" "" "image" "http://cdn/v.jpg" 10 4600 0 0.
Definition ad_W : Ad := mkAd "W" "" "image" "http://cdn/w.jpg" 10 0 940 0.

Definition three_ads : Playlist.t :=
  Playlist.mk [ad_U; ad_V; ad_W] 0 0 Go.unlocked.

(** An ad whose duration in seconds is valid for [int] but whose
    nanosecond count exceeds [int64]. *)
Definition ad_long : Ad :=
  mkAd "L" "" "image" "http://cdn/l.jpg" 9223372037 0 0 0.

Definition ad_ten : Ad := mkAd "T" "" "image" "http://cdn/t.jpg" 10 0 0 0.

(** The client of the default configuration. *)
Definition default_client : client.Client :=
  client.client_of_config DefaultConfig "screen-1" "passkey-1".

(** The heartbeat scheduler of the default configuration. *)
Definition default_heartbeat : heartbeat.Scheduler :=
  heartbeat.scheduler_of_config DefaultConfig default_client "screen-1".

Definition home_storage : ads.Storage := ads.NewStorage "/home/u/.mnemocast".

Definition manifest_old : AdDeliveryResponse :=
  mkAdDeliveryResponse [ad_U] "playlist-1" 900.

Definition manifest_new : AdDeliveryResponse :=
  mkAdDeliveryResponse [ad_U; ad_W] "playlist-2" 1000.

(** Files after a first successful [SaveAds]. *)
Definition fs_with_manifest : os.FS :=
  os.run (snd (ads.SaveAds home_storage 950 manifest_old ads.save_ok)) ∅.

(** An ad that points at a local file, and a file system holding that
    file with no content. *)
Definition ad_local : Ad :=
  mkAd "local-1" "" "image" "file:///tmp/empty.png" 10 0 0 0.

Definition fs_empty_png : os.FS := {[ "/tmp/empty.png" := os.File [] ]}.

(** An ad that points at a directory, and a file system holding it. *)
Definition ad_tmp : Ad :=
  mkAd "local-2" "" "image" "file:///tmp" 10 0 0 0.

Definition fs_tmp_dir : os.FS := {[ "/tmp" := os.Dir 4096 ]}.

(** An ad whose id leads out of the media directory. *)
Definition ad_dotdot : Ad :=
  mkAd "../current_ads" "" "image" "http://cdn/x.json" 10 0 0 0.

Definition home_downloader : downloader.Downloader :=
  downloader.NewDownloader home_storage 3 5.

Definition creds_one : Credentials := mkCredentials "screen-1" "passkey-1".

(** A passkey of one byte, 0xFF, which is no UTF-8 text. *)
Definition creds_raw : Credentials :=
  mkCredentials "screen-1" (String (ascii_of_N 255) "").

(** A key file of three bytes, shorter than any AES key. *)
Definition fs_short_key : os.FS :=
  {[ credentials.keyFile (credentials.NewStorage "/home/u/.mnemocast")
     := os.File [Byte.x01; Byte.x02; Byte.x03] ]}.

(** The ad fetcher of the default configuration. *)
Definition default_fetcher : fetcher.Fetcher :=
  fetcher.NewFetcher default_client "screen-1" "/home/u/.mnemocast" 60 3 5.

(** A server that has nothing to show: every request is answered 204. *)
Definition net_no_content : client.Transport :=
  fun _ => client.DoResp 204 "".

(** A configuration file that names the server and nothing else. *)
Definition config_url_only : models.ScreenConfig :=
  mkScreenConfig "http://ads.example:8080" 0 0 0 0.

Definition fs_config_url_only : os.FS :=
  {[ config.configFile (config.NewLoader "/home/u/.mnemocast")
     := os.File (json_Marshal (JSON := standin.json_config)
                   config_url_only) ]}.

End example.

(* ===================================================================== *)
(** * Part II: properties                                                 *)
(* ===================================================================== *)

(** ** Files: what a write leaves behind *)

Section files.
Import os.

Lemma chop_concat (cuts : list positive) (data : bytes) :
  (concat (fst (chop cuts data)) ++ snd (chop cuts data))%list = data.
Proof.
  revert data. induction cuts as [|n cuts IH]; intros data; simpl; [done|].
  destruct data as [|b data]; [done|].
  specialize (IH (drop (Pos.to_nat n) (b :: data))).
  destruct (chop cuts (drop (Pos.to_nat n) (b :: data))) as [ps rest].
  simpl in *. rewrite <- app_assoc, IH. apply take_drop.
Qed.

Lemma run_writes (name : string) (ps : list bytes) (acc : bytes) (fs : FS) :
  run (map (SysWrite name) ps) (<[name := File acc]> fs)
  = <[name := File (acc ++ concat ps)]> fs.
Proof.
  revert acc. induction ps as [|p ps IH]; intros acc; simpl.
  - by rewrite app_nil_r.
  - unfold run in *. simpl. rewrite lookup_insert_eq, insert_insert_eq.
    by rewrite IH, <- app_assoc.
Qed.

Lemma states_writes (name : string) (ps : list bytes) (acc : bytes)
    (fs st : FS) :
  In st (states (map (SysWrite name) ps) (<[name := File acc]> fs)) ->
  exists k, st = <[name := File (acc ++ concat (take k ps))]> fs.
Proof.
  revert acc. induction ps as [|p ps IH]; intros acc; simpl; [done|].
  rewrite lookup_insert_eq, insert_insert_eq. intros [<-|Hin].
  - exists 1%nat. simpl. by rewrite app_nil_r.
  - apply IH in Hin as [k ->]. exists (S k). simpl. by rewrite <- app_assoc.
Qed.

Lemma run_app (a b : list Syscall) (fs : FS) :
  run (a ++ b) fs = run b (run a fs).
Proof. unfold run. apply fold_left_app. Qed.

Lemma states_app (a b : list Syscall) (fs st : FS) :
  In st (states (a ++ b) fs) <->
  In st (states a fs) \/ In st (states b (run a fs)).
Proof.
  revert fs. induction a as [|op a IH]; intros fs; simpl; [tauto|].
  rewrite IH. unfold run. simpl. tauto.
Qed.

(** The pieces [WriteFile] writes make up a prefix of the data, all of it
    when it returns without error. *)
Lemma WriteFile_pieces (name : string) (data : bytes) (io : WriteIO) :
  io = WOpenErr /\ WriteFile name data io = ([], false) \/
  io <> WOpenErr /\
  exists pieces ok,
    WriteFile name data io
    = ((SysOpenTrunc name :: map (SysWrite name) pieces
        ++ [SysClose name])%list, ok) /\
    concat pieces `prefix_of` data /\
    (ok = true -> concat pieces = data).
Proof.
  destruct io as [|cuts rest_ok close_ok]; [by left|]. right.
  split; [done|].
  unfold WriteFile. pose proof (chop_concat cuts data) as Hc.
  destruct (chop cuts data) as [ps rest]. simpl in Hc.
  set (last_call := match rest, ps with [], _ :: _ => false | _, _ => true end).
  destruct (last_call && rest_ok) eqn:Hl.
  - exists (ps ++ [rest])%list. eexists. split; [done|].
    rewrite concat_app. simpl. rewrite app_nil_r, Hc. done.
  - exists ps. eexists. split; [done|]. split; [by exists rest|].
    intros Hok. apply andb_true_iff in Hok as [Hok _].
    assert (Hlast : last_call = false).
    { destruct last_call, rest_ok; simpl in *; done. }
    unfold last_call in Hlast. destruct rest; [|done].
    by rewrite app_nil_r in Hc.
Qed.

(** What [WriteFile] does to the files: nothing when the open fails;
    otherwise the path holds the empty file first, a prefix of the data at
    every moment after that, and all of it after a return without error. *)
Lemma WriteFile_effect (name : string) (data : bytes) (io : WriteIO)
    (fs : FS) (ops : list Syscall) (ok : bool) :
  WriteFile name data io = (ops, ok) ->
  (io = WOpenErr /\ ops = [] /\ ok = false) \/
  (io <> WOpenErr /\
   In (<[name := File []]> fs) (states ops fs) /\
   (forall st, In st (states ops fs) ->
      exists w, w `prefix_of` data /\ st = <[name := File w]> fs) /\
   exists w, w `prefix_of` data /\ run ops fs = <[name := File w]> fs /\
             (ok = true -> w = data)).
Proof.
  destruct (WriteFile_pieces name data io)
    as [[-> ->]|(Hio & pieces & ok' & -> & Hpre & Hok)];
    intros [= <- <-]; [by left|].
  right. split; [done|]. split; [by left|]. split.
  - cbn [states]. intros st [<-|Hin].
    { exists []. split; [apply prefix_nil|done]. }
    cbn [exec] in Hin. apply states_app in Hin as [Hin|Hin].
    + apply states_writes in Hin as [k ->]. simpl.
      exists (concat (take k pieces)). split; [|done].
      etrans; [|exact Hpre].
      rewrite <- (take_drop k pieces) at 2. rewrite concat_app.
      by apply prefix_app_r.
    + rewrite run_writes in Hin. simpl in Hin.
      destruct Hin as [<-|[]]. by exists (concat pieces).
  - exists (concat pieces). split; [done|]. split; [|done].
    change (SysOpenTrunc name :: map (SysWrite name) pieces ++ [SysClose name])%list
      with ([SysOpenTrunc name] ++ map (SysWrite name) pieces
            ++ [SysClose name])%list.
    rewrite !run_app. cbn [run fold_left exec]. by rewrite run_writes.
Qed.

Lemma run_WriteFile_ok (name : string) (data : bytes) (fs : FS) :
  run (fst (WriteFile name data write_ok)) fs = <[name := File data]> fs.
Proof.
  unfold run, WriteFile, write_ok; simpl.
  destruct data; simpl; by rewrite lookup_insert_eq, insert_insert_eq.
Qed.

Lemma WriteFile_write_ok (name : string) (data : bytes) :
  snd (WriteFile name data write_ok) = true.
Proof. unfold WriteFile, write_ok. simpl. by destruct data. Qed.

End files.

(** ** Playlist: the time-window filter *)

Section playlist_filter.
Import Go models Playlist.

Lemma filter_loop_acc (now : Time) (l acc : list Ad) :
  filter_loop now l acc = (acc ++ List.filter (keeps now) l)%list.
Proof.
  revert acc; induction l as [|a l IH]; intros acc; simpl.
  - by rewrite app_nil_r.
  - destruct (keeps now a); rewrite IH; [by rewrite <- app_assoc|done].
Qed.

Lemma keeps_window (now : Time) (a : Ad) :
  keeps now a = true <->
  (IsZero (StartTime a) = true \/ StartTime a <= now) /\
  (IsZero (EndTime a) = true \/ now <= EndTime a).
Proof.
  unfold keeps, IsZero, After, Before, Equal.
  destruct (StartTime a =? 0) eqn:Hs, (EndTime a =? 0) eqn:He; simpl;
    rewrite ?andb_true_iff, ?orb_true_iff, ?Z.ltb_lt, ?Z.eqb_eq; lia.
Qed.

Lemma FilterByTime_unlocked (now : Time) (p : Playlist.t) :
  writer (mu p) = false ->
  FilterByTime now p = Ret (List.filter (keeps now) (ads p), p).
Proof.
  destruct p as [l i u [w r]]; simpl; intros ->.
  unfold FilterByTime, RLock; simpl.
  by rewrite filter_loop_acc.
Qed.

(** C7.  On a playlist that no writer holds, [FilterByTime now] returns
    the ads of the playlist, in order, that satisfy: (start time absent or
    [now >= start]) and (end time absent or [now <= end]).  An ad with no
    bound is always kept; an ad with no start and an end before [now] is
    dropped. *)
Theorem FilterByTime_keeps_iff_in_window (now : Time) (p : Playlist.t) :
  writer (mu p) = false ->
  exists kept,
    FilterByTime now p = Ret (kept, p) /\
    kept = List.filter (keeps now) (ads p) /\
    (forall a, In a kept <->
       In a (ads p) /\
       (IsZero (StartTime a) = true \/ StartTime a <= now) /\
       (IsZero (EndTime a) = true \/ now <= EndTime a)) /\
    (forall a, In a (ads p) -> IsZero (StartTime a) = true ->
       IsZero (EndTime a) = true -> In a kept) /\
    (forall a, IsZero (StartTime a) = true -> IsZero (EndTime a) = false ->
       EndTime a < now -> ~ In a kept).
Proof.
  intros Hw. exists (List.filter (keeps now) (ads p)).
  split; [by apply FilterByTime_unlocked|]. split; [done|].
  split; [|split].
  - intros a. rewrite filter_In, keeps_window. tauto.
  - intros a Hin Hs He. apply filter_In. split; [done|].
    apply keeps_window. tauto.
  - intros a Hs He Hlt Hin. apply filter_In in Hin as [_ Hk].
    apply keeps_window in Hk as [_ [Hz|Hle]]; [congruence|lia].
Qed.

End playlist_filter.

Lemma FilterByTime_keeps_iff_in_window_witness :
  exists kept,
    Playlist.FilterByTime 1000
      example.three_ads = Go.Ret (kept, example.three_ads) /\
    kept = [example.ad_U].
Proof.
  destruct (FilterByTime_keeps_iff_in_window 1000 example.three_ads eq_refl)
    as (kept & Hrun & Hk & _).
  exists kept. split; [exact Hrun|]. rewrite Hk. reflexivity.
Defined.

(** ** Playlist: priority order and the round-robin cursor *)

Section playlist_next.
Import Go models Playlist.

Lemma less_spec (a b : Ad) :
  less a b = true <->
  Priority b < Priority a \/
  (Priority a = Priority b /\ String_as_OT.lt (ID a) (ID b)).
Proof.
  unfold less. destruct (Priority a =? Priority b) eqn:Hp; simpl.
  - apply Z.eqb_eq in Hp. unfold String.ltb.
    rewrite <- String_as_OT.cmp_lt. unfold String_as_OT.cmp.
    destruct (String.compare (ID a) (ID b));
      (split; [intros Hx|intros [Hx|[_ Hx]]]);
      try discriminate; try lia; auto.
  - apply Z.eqb_neq in Hp. rewrite Z.ltb_lt. split; [tauto|].
    intros [H|[H _]]; [done|lia].
Qed.

Lemma slt_irrefl (s : string) : ~ String_as_OT.lt s s.
Proof. intros H. by apply String_as_OT.lt_not_eq in H. Qed.

Lemma slt_cases (s u : string) :
  String_as_OT.lt s u \/ s = u \/ String_as_OT.lt u s.
Proof.
  destruct (String_as_OT.compare s u) as [H|H|H]; auto.
Qed.

Lemma less_asym (a b : Ad) : less a b = true -> less b a = false.
Proof.
  intros Hab. apply not_true_is_false. intros Hba.
  apply less_spec in Hab, Hba.
  destruct Hab as [?|[? Hab]], Hba as [?|[? Hba]]; try lia.
  apply (slt_irrefl (ID a)). eapply String_as_OT.lt_trans; eauto.
Qed.

#[local] Instance before_total : Total before.
Proof.
  intros a b. unfold before.
  destruct (less b a) eqn:H; [right; by apply less_asym|by left].
Qed.

#[local] Instance before_trans : Transitive before.
Proof.
  intros a b c Hab Hbc. unfold before in *.
  apply not_true_is_false. intros Hca.
  apply not_true_iff_false in Hab, Hbc.
  rewrite less_spec in Hab, Hbc. apply less_spec in Hca.
  assert (Hba : Priority b <= Priority a).
  { destruct (Z.le_gt_cases (Priority b) (Priority a)) as [Hle|Hgt];
      [done|]. exfalso. apply Hab. left. lia. }
  assert (Hcb : Priority c <= Priority b).
  { destruct (Z.le_gt_cases (Priority c) (Priority b)) as [Hle|Hgt];
      [done|]. exfalso. apply Hbc. left. lia. }
  destruct Hca as [Hlt|[Heq Hca]]; [lia|].
  destruct (slt_cases (ID c) (ID b)) as [Hs|[Hs|Hs]].
  - apply Hbc. right. split; [lia|done].
  - apply Hab. right. split; [lia|]. by rewrite <- Hs.
  - apply Hab. right. split; [lia|].
    eapply String_as_OT.lt_trans; eauto.
Qed.

Lemma insert_by_Permutation (x : Ad) (l : list Ad) :
  Permutation (insert_by x l) (x :: l).
Proof.
  induction l as [|y l IH]; simpl; [done|].
  destruct (less y x); [|done].
  rewrite IH. apply perm_swap.
Qed.

Lemma insert_by_Sorted (x : Ad) (l : list Ad) :
  Sorted before l -> Sorted before (insert_by x l).
Proof.
  induction l as [|y l IH]; simpl; intros Hs.
  - repeat constructor.
  - apply Sorted_inv in Hs as [Hs Hhd].
    destruct (less y x) eqn:Hyx.
    + constructor; [by apply IH|].
      destruct l as [|z l]; simpl.
      * constructor. by apply less_asym.
      * destruct (less z x); constructor.
        -- by apply HdRel_inv in Hhd.
        -- by apply less_asym.
    + constructor; [by constructor|]. by constructor.
Qed.

(** The model of [sort.Slice] returns a permutation of its input ... *)
Lemma SortByPriority_Permutation (l : list Ad) :
  Permutation (SortByPriority l) l.
Proof.
  unfold SortByPriority, sort_Slice.
  induction l as [|x l IH]; simpl; [done|].
  by rewrite insert_by_Permutation, IH.
Qed.

(** ... in which no ad is [less] than one standing before it: priorities
    descend, and among equal priorities ids ascend. *)
Lemma SortByPriority_sorted (l : list Ad) :
  StronglySorted before (SortByPriority l).
Proof.
  apply Sorted_StronglySorted; [apply _|].
  unfold SortByPriority, sort_Slice.
  induction l as [|x l IH]; simpl; [constructor|].
  by apply insert_by_Sorted.
Qed.

(** With the sorted slice in hand and a cursor that has not overflowed,
    the selection is the element at [cursor mod length] and the cursor
    moves on by one. *)
Lemma pick_cyclic (sortedAds : list Ad) (idx : Z) :
  sortedAds <> [] -> 0 <= idx ->
  exists ad,
    nth_error sortedAds (Z.to_nat (idx mod Z.of_nat (length sortedAds)))
      = Some ad /\
    pick sortedAds idx = Ret (Some ad, wrap64 (idx + 1)).
Proof.
  intros Hne Hidx. unfold pick.
  assert (Hlen : 0 < Z.of_nat (length sortedAds))
    by (destruct sortedAds; [done|simpl; lia]).
  rewrite Z.rem_mod_nonneg by lia.
  pose proof (Z.mod_pos_bound idx _ Hlen) as Hb.
  destruct (Z.ltb_spec (idx mod Z.of_nat (length sortedAds)) 0); [lia|].
  destruct (nth_error sortedAds _) as [ad|] eqn:Hnth.
  - by exists ad.
  - apply nth_error_None in Hnth. lia.
Qed.

(** What the statements of [GetNextAd] compute between locking and
    unlocking, had the filter been reached with the lock free: from a
    non-empty selection of active ads and a cursor that has not overflowed,
    the ad at [cursor mod length] of the active ads in priority order. *)
Lemma selection_is_cyclic (now : Time) (p : Playlist.t) :
  writer (mu p) = false -> 0 <= currentIdx p ->
  List.filter (keeps now) (ads p) <> [] ->
  exists kept sorted ad,
    FilterByTime now p = Ret (kept, p) /\
    sorted = SortByPriority kept /\
    Permutation sorted (List.filter (keeps now) (ads p)) /\
    StronglySorted before sorted /\
    nth_error sorted
      (Z.to_nat (currentIdx p mod Z.of_nat (length sorted))) = Some ad /\
    pick sorted (currentIdx p) = Ret (Some ad, wrap64 (currentIdx p + 1)).
Proof.
  intros Hw Hidx Hne.
  assert (Hs : SortByPriority (List.filter (keeps now) (ads p)) <> []).
  { intros Hnil. apply Hne, Permutation_nil_r.
    rewrite <- Hnil. symmetry. apply SortByPriority_Permutation. }
  destruct (pick_cyclic _ _ Hs Hidx) as (ad & Hnth & Hpick).
  exists (List.filter (keeps now) (ads p)),
         (SortByPriority (List.filter (keeps now) (ads p))), ad.
  repeat split; try done.
  - by apply FilterByTime_unlocked.
  - apply SortByPriority_Permutation.
  - apply SortByPriority_sorted.
Qed.

(** C1.  [GetNextAd] never returns: it takes the write lock of the
    playlist and, still holding it, calls [FilterByTime], which waits for
    the read lock of the same mutex.  Whatever the playlist, the cursor and
    the clock, the call ends in no result. *)
Theorem GetNextAd_blocks_on_own_lock (now : Time) (p : Playlist.t) :
  GetNextAd now p = Blocked.
Proof.
  destruct p as [l i u [w r]]. unfold GetNextAd, Lock; simpl.
  destruct w; [done|]. destruct r; done.
Qed.

End playlist_next.

(** ** Scheduler: ad durations *)

(** Case split on the innermost comparisons of the goal. *)
Ltac split_ltb :=
  repeat match goal with
  | |- context [?a <? ?b] =>
      lazymatch a with
      | context [Z.ltb] => fail
      | _ => lazymatch b with
             | context [Z.ltb] => fail
             | _ => destruct (Z.ltb_spec a b)
             end
      end
  end.

Section scheduler_duration.
Import models Go Scheduler.

Lemma wrap64_small (z : Z) :
  int64_min <= z <= int64_max -> wrap64 z = z.
Proof.
  unfold wrap64, int64_min, int64_max. intros H.
  rewrite Z.mod_small; lia.
Qed.

(** Whatever the ad, the result lies between 5 s and 300 s. *)
Lemma GetAdDuration_range (dflt delay : Z) (ad : Ad) :
  5 * Second <= GetAdDuration (NewScheduler dflt delay) ad <= 300 * Second.
Proof.
  unfold GetAdDuration, NewScheduler, Second; simpl.
  split_ltb; lia.
Qed.

(** A duration between 5 and 300 seconds is returned as it is. *)
Lemma GetAdDuration_in_bounds (dflt delay : Z) (ad : Ad) :
  5 <= models.Duration ad <= 300 ->
  GetAdDuration (NewScheduler dflt delay) ad = models.Duration ad * Second.
Proof.
  intros H. unfold GetAdDuration, NewScheduler, mul64; simpl.
  destruct (Z.ltb_spec 0 (models.Duration ad)); [|lia].
  rewrite (wrap64_small (models.Duration ad * Second))
    by (unfold int64_min, int64_max, Second; lia).
  unfold Second.
  split_ltb; lia.
Qed.

(** As long as the nanosecond count of the ad's duration fits [int64],
    the code computes what the specification describes. *)
Lemma GetAdDuration_without_overflow (dflt delay : Z) (ad : Ad) :
  models.Duration ad * Second <= int64_max ->
  GetAdDuration (NewScheduler dflt delay) ad
  = spec_DurationFor (NewScheduler dflt delay) ad.
Proof.
  intros H. unfold GetAdDuration, spec_DurationFor, clamp, NewScheduler.
  simpl. destruct (Z.ltb_spec 0 (models.Duration ad)).
  - unfold mul64. rewrite wrap64_small
      by (unfold int64_min, int64_max, Second in *; lia).
    unfold Second in *; split_ltb; lia.
  - unfold Second in *; split_ltb; lia.
Qed.

(** C6.  For the ad duration 9223372037 (seconds) the product with
    [time.Second] leaves [int64] and wraps to a negative number, so
    [GetAdDuration] answers the minimum, 5 s, where the clamped duration of
    the specification is the maximum, 300 s. *)
Theorem GetAdDuration_wraps_to_minimum :
  GetAdDuration (NewScheduler 30 1) example.ad_long = 5 * Second /\
  spec_DurationFor (NewScheduler 30 1) example.ad_long = 300 * Second /\
  mul64 (models.Duration example.ad_long) Second < 0.
Proof. by vm_compute. Qed.

End scheduler_duration.

(** ** Server client: the retry wrapper *)

Section client_retry.
Import models Go client.

(** C4, as stated, fails.  With the default configuration (3 attempts,
    base delay 5 s) and a network that is down, [Connect] sleeps 2 s, 4 s
    and 6 s between its four attempts, not 5 s, 10 s and 15 s; and with
    five configured attempts it still stops after three retries. *)
Lemma client_retry_ignores_configuration :
  let evs := snd (run_op OpConnect example.default_client 0
                         standin.net_down) in
  sleeps evs = [2 * Second; 4 * Second; 6 * Second] /\
  evs <> spec_events (RetryDelay DefaultConfig * Second)
                     (Z.to_nat (RetryAttempts DefaultConfig)) /\
  snd (run_op OpConnect
         (client_of_config (mkScreenConfig "http://10.42.0.1:8080" 30 60 5 5)
                           "screen-1" "passkey-1")
         0 standin.net_down)
  = spec_events (2 * Second) 3.
Proof. vm_compute. repeat split; discriminate. Qed.

Lemma doRequest_all_fail (net : Transport) :
  (forall k, (k <= 3)%nat -> is_DoErr (net k) = true) ->
  exists last,
    doRequest 3 (2 * Second) net
    = (inl (ErrRequestFailed 4 last), spec_events (2 * Second) 3).
Proof.
  intros Hdown.
  pose proof (Hdown 0%nat ltac:(lia)) as H0.
  pose proof (Hdown 1%nat ltac:(lia)) as H1.
  pose proof (Hdown 2%nat ltac:(lia)) as H2.
  pose proof (Hdown 3%nat ltac:(lia)) as H3.
  unfold doRequest.
  change (Z.to_nat (3 + 1)) with 4%nat. cbn [doRequest_loop].
  destruct (net 0%nat); [|discriminate H0].
  destruct (net 1%nat); [|discriminate H1].
  destruct (net 2%nat); [|discriminate H2].
  destruct (net 3%nat) as [last|]; [|discriminate H3].
  exists last. reflexivity.
Qed.

Lemma doRequest_response (net : Transport) (fails : nat) (code : Z)
    (body : string) :
  (fails <= 3)%nat ->
  (forall k, (k < fails)%nat -> is_DoErr (net k) = true) ->
  net fails = DoResp code body ->
  doRequest 3 (2 * Second) net
  = (inr (code, body), spec_events (2 * Second) fails).
Proof.
  intros Hle Hfail Hresp.
  unfold doRequest.
  change (Z.to_nat (3 + 1)) with 4%nat. cbn [doRequest_loop].
  destruct fails as [|[|[|[|n]]]]; [| | | |lia].
  - rewrite Hresp. reflexivity.
  - pose proof (Hfail 0%nat ltac:(lia)) as H0.
    destruct (net 0%nat); [|discriminate H0].
    rewrite Hresp. reflexivity.
  - pose proof (Hfail 0%nat ltac:(lia)) as H0.
    pose proof (Hfail 1%nat ltac:(lia)) as H1.
    destruct (net 0%nat); [|discriminate H0].
    destruct (net 1%nat); [|discriminate H1].
    rewrite Hresp. reflexivity.
  - pose proof (Hfail 0%nat ltac:(lia)) as H0.
    pose proof (Hfail 1%nat ltac:(lia)) as H1.
    pose proof (Hfail 2%nat ltac:(lia)) as H2.
    destruct (net 0%nat); [|discriminate H0].
    destruct (net 1%nat); [|discriminate H1].
    destruct (net 2%nat); [|discriminate H2].
    rewrite Hresp. reflexivity.
Qed.

Section with_env.
Context `{E : Env}.

Lemma run_op_events (op : Op) (c : Client) (now : Time) (net : Transport) :
  request_ok op c = true ->
  snd (run_op op c now net) = snd (doRequest 3 (2 * Second) net).
Proof.
  unfold request_ok. intros Hreq.
  destruct op; simpl in Hreq;
    unfold run_op, Connect, Heartbeat, GetAds; rewrite Hreq; simpl;
    destruct (doRequest 3 (2 * Second) net) as [[e|[code body]] evs]; simpl;
    try reflexivity.
  - destruct (code =? StatusUnauthorized); [done|].
    destruct (code =? StatusNotFound); [done|].
    destruct (negb (code =? StatusOK)); [done|].
    by destruct (decodeScreen body).
  - by destruct (negb (code =? StatusOK) && negb (code =? StatusNoContent)).
  - destruct (code =? StatusNoContent); [done|].
    destruct (negb (code =? StatusOK)); [done|].
    by destruct (decodeAds body).
Qed.

Lemma run_op_transport_error (op : Op) (c : Client) (now : Time)
    (net : Transport) (e : Error) (evs : list Event) :
  request_ok op c = true ->
  doRequest 3 (2 * Second) net = (inl e, evs) ->
  fst (run_op op c now net) = Some e.
Proof.
  unfold request_ok. intros Hreq Hdo.
  destruct op; simpl in Hreq;
    unfold run_op, Connect, Heartbeat, GetAds; rewrite Hreq, Hdo; done.
Qed.

Lemma run_op_status (op : Op) (c : Client) (now : Time) (net : Transport)
    (code : Z) (body : string) (evs : list Event) :
  request_ok op c = true ->
  doRequest 3 (2 * Second) net = (inr (code, body), evs) ->
  accepts op code = false ->
  exists e, fst (run_op op c now net) = Some e /\
            is_status_error code e = true.
Proof.
  unfold request_ok. intros Hreq Hdo Hacc.
  destruct op; simpl in Hreq, Hacc;
    unfold run_op, Connect, Heartbeat, GetAds; rewrite Hreq, Hdo; simpl;
    unfold StatusUnauthorized, StatusNotFound, StatusOK, StatusNoContent.
  - destruct (Z.eqb_spec code 401) as [->|?]; [by eexists|].
    destruct (Z.eqb_spec code 404) as [->|?]; [by eexists|].
    rewrite Hacc. simpl. eexists. split; [done|]. simpl. apply Z.eqb_refl.
  - apply orb_false_iff in Hacc as [-> ->]. simpl.
    eexists. split; [done|]. simpl. apply Z.eqb_refl.
  - apply orb_false_iff in Hacc as [-> ->]. simpl.
    eexists. split; [done|]. simpl. apply Z.eqb_refl.
Qed.

End with_env.

(** C4, amended.  For each of Connect, Heartbeat and GetAds, once the
    request is built: transport failures are retried up to 3 more times
    with a sleep of 2 s times the attempt number before each retry, both
    numbers fixed in the client; when all four attempts fail the operation
    reports the failed request; a response received on any attempt ends the
    loop there, and a status outside the accept set is reported as that
    status error without a further attempt. *)
Theorem client_retry_fixed_three_by_two_seconds `{E : Env}
    (op : Op) (c : Client) (now : Time) (net : Transport) :
  request_ok op c = true ->
  ((forall k, (k <= 3)%nat -> is_DoErr (net k) = true) ->
     snd (run_op op c now net) = spec_events (2 * Second) 3 /\
     exists last, fst (run_op op c now net) = Some (ErrRequestFailed 4 last))
  /\
  (forall fails code body,
     (fails <= 3)%nat ->
     (forall k, (k < fails)%nat -> is_DoErr (net k) = true) ->
     net fails = DoResp code body ->
     snd (run_op op c now net) = spec_events (2 * Second) fails /\
     (accepts op code = false ->
        exists e, fst (run_op op c now net) = Some e /\
                  is_status_error code e = true)).
Proof.
  intros Hreq. split.
  - intros Hdown.
    destruct (doRequest_all_fail net Hdown) as [last Hreq3].
    rewrite (run_op_events op c now net Hreq), Hreq3. split; [done|].
    exists last. by apply (run_op_transport_error op c now net _ _ Hreq Hreq3).
  - intros fails code body Hle Hfail Hresp.
    pose proof (doRequest_response net fails code body Hle Hfail Hresp)
      as Hreq3.
    rewrite (run_op_events op c now net Hreq), Hreq3. split; [done|].
    intros Hacc. by apply (run_op_status op c now net _ _ _ Hreq Hreq3).
Qed.

Lemma client_retry_fixed_three_by_two_seconds_witness :
  snd (run_op OpHeartbeat example.default_client 0 standin.net_down)
  = spec_events (2 * Second) 3.
Proof.
  apply (client_retry_fixed_three_by_two_seconds (E := standin.client_env)
           OpHeartbeat example.default_client 0 standin.net_down eq_refl).
  intros k _. reflexivity.
Defined.

End client_retry.

(** ** Heartbeat loop *)

Section heartbeat_loop.
Import models Go client heartbeat.
Context `{E : Env}.

Lemma sendHeartbeat_loop_config (iters : nat) (attempt : Z) (s : Scheduler)
    (now : Time) (net : Transport) (lastErr : option Error) :
  let s' := fst (sendHeartbeat_loop iters attempt s now net lastErr) in
  retryAttempts s' = retryAttempts s /\ interval s' = interval s.
Proof.
  revert attempt net lastErr.
  induction iters as [|n IH]; intros attempt net lastErr; simpl; [done|].
  destruct (Heartbeat (hclient s) (screenID s) net) as [[err|] evs]; [|done].
  specialize (IH (attempt + 1) (shift (calls evs) net) (Some err)).
  by destruct (sendHeartbeat_loop n _ s now _ _).
Qed.

Lemma sendHeartbeat_loop_fails (iters : nat) (attempt : Z) (s : Scheduler)
    (now : Time) (net : Transport) (lastErr : option Error) :
  all_attempts_fail iters s net ->
  let s' := fst (sendHeartbeat_loop iters attempt s now net lastErr) in
  status s' = StatusError /\
  lastSent s' = lastSent s /\
  match iters with
  | O => lastError s' = lastErr
  | S _ => exists e, lastError s' = Some e
  end.
Proof.
  revert attempt net lastErr.
  induction iters as [|n IH]; intros attempt net lastErr Hfail; simpl.
  - done.
  - simpl in Hfail.
    destruct (Heartbeat (hclient s) (screenID s) net) as [[err|] evs];
      [|done].
    specialize (IH (attempt + 1) (shift (calls evs) net) (Some err) Hfail).
    destruct (sendHeartbeat_loop n _ s now _ _) as [s' evs']. simpl in *.
    destruct IH as (Hst & Hsent & Herr). repeat split; [done..|].
    destruct n; [by exists err|done].
Qed.

Lemma sendHeartbeat_fails (s : Scheduler) (now : Time) (net : Transport) :
  cycle_fails s net ->
  status (fst (sendHeartbeat s now net)) = StatusError /\
  (0 <= retryAttempts s ->
   exists e, lastError (fst (sendHeartbeat s now net)) = Some e).
Proof.
  intros Hfail. unfold sendHeartbeat.
  destruct (sendHeartbeat_loop_fails _ 0 s now net None Hfail)
    as (Hst & _ & Herr).
  split; [done|]. intros Hpos.
  destruct (Z.to_nat (retryAttempts s + 1)) eqn:Hn; [lia|done].
Qed.

(** A cycle in which some attempt succeeds leaves the status connected
    and clears the last error. *)
Lemma sendHeartbeat_loop_status (iters : nat) (attempt : Z) (s : Scheduler)
    (now : Time) (net : Transport) (lastErr : option Error) :
  let s' := fst (sendHeartbeat_loop iters attempt s now net lastErr) in
  (status s' = StatusError /\ lastSent s' = lastSent s) \/
  (status s' = StatusConnected /\ lastSent s' = now /\ lastError s' = None).
Proof.
  revert attempt net lastErr.
  induction iters as [|n IH]; intros attempt net lastErr; simpl; [by left|].
  destruct (Heartbeat (hclient s) (screenID s) net) as [[err|] evs];
    [|by right].
  specialize (IH (attempt + 1) (shift (calls evs) net) (Some err)).
  by destruct (sendHeartbeat_loop n _ s now _ _).
Qed.

Lemma run_init_running (s : Scheduler) (now : Time) (net : Transport) :
  0 < interval s ->
  run_init s now net = Running (fst (sendHeartbeat s now net)).
Proof.
  intros Hpos. unfold run_init, sendHeartbeat.
  destruct (sendHeartbeat_loop_config (Z.to_nat (retryAttempts s + 1)) 0 s
              now net None) as [_ ->].
  by destruct (Z.leb_spec (interval s) 0); [lia|].
Qed.

Lemma run_snoc (s : Scheduler) (now : Time) (net : Transport)
    (evs : list Select) (ev : Select) :
  run s now net (evs ++ [ev]) = run_step (run s now net evs) ev.
Proof. unfold run. by rewrite fold_left_app. Qed.

Lemma run_running (s : Scheduler) (now : Time) (net : Transport)
    (evs : list Select) :
  0 < interval s ->
  is_running (run s now net evs) = negb (existsb is_CtxDone evs).
Proof.
  intros Hpos.
  induction evs as [|ev evs IH] using rev_ind.
  - unfold run; simpl. by rewrite run_init_running.
  - rewrite run_snoc, existsb_app; simpl.
    rewrite orb_false_r, negb_orb, <- IH.
    destruct (run s now net evs), ev; done.
Qed.

Lemma run_config (s : Scheduler) (now : Time) (net : Transport)
    (evs : list Select) :
  retryAttempts (sched (run s now net evs)) = retryAttempts s.
Proof.
  induction evs as [|ev evs IH] using rev_ind.
  - unfold run, run_init; simpl.
    destruct (_ <=? 0); apply sendHeartbeat_loop_config.
  - rewrite run_snoc.
    destruct (run s now net evs) as [s0|s0|s0], ev; simpl in *; try done.
    unfold sendHeartbeat.
    destruct (sendHeartbeat_loop_config (Z.to_nat (retryAttempts s0 + 1)) 0
                s0 now0 net0 None) as [-> _]. done.
Qed.

Lemma attempt_net_shift (k : nat) (s : Scheduler) (net : Transport) :
  attempt_net (S k) s net
  = attempt_net k s
      (shift (calls (snd (Heartbeat (hclient s) (screenID s) net))) net).
Proof.
  induction k as [|k IH]; [done|].
  change (attempt_net (S (S k)) s net)
    with (shift (calls (snd (Heartbeat (hclient s) (screenID s)
                              (attempt_net (S k) s net))))
                (attempt_net (S k) s net)).
  by rewrite IH.
Qed.

(** A cycle that fails records the error of its last attempt. *)
Lemma sendHeartbeat_loop_last_error (iters : nat) (attempt : Z)
    (s : Scheduler) (now : Time) (net : Transport) (lastErr : option Error) :
  all_attempts_fail iters s net ->
  lastError (fst (sendHeartbeat_loop iters attempt s now net lastErr))
  = match iters with
    | O => lastErr
    | S n => attempt_error n s net
    end.
Proof.
  revert attempt net lastErr.
  induction iters as [|n IH]; intros attempt net lastErr Hfail; [done|].
  cbn [sendHeartbeat_loop all_attempts_fail] in *.
  destruct (Heartbeat (hclient s) (screenID s) net) as [[err|] evs] eqn:Hhb;
    [|done].
  specialize (IH (attempt + 1) (shift (calls evs) net) (Some err) Hfail).
  destruct (sendHeartbeat_loop n _ s now _ _) as [s' evs']. simpl in *.
  rewrite IH. destruct n as [|m].
  - unfold attempt_error. simpl. by rewrite Hhb.
  - unfold attempt_error. rewrite attempt_net_shift. by rewrite Hhb.
Qed.

Lemma sendHeartbeat_last_error (s : Scheduler) (now : Time)
    (net : Transport) :
  cycle_fails s net ->
  lastError (fst (sendHeartbeat s now net))
  = if retryAttempts s <? 0 then None
    else attempt_error (Z.to_nat (retryAttempts s)) s net.
Proof.
  intros Hfail. unfold sendHeartbeat.
  rewrite sendHeartbeat_loop_last_error by done.
  destruct (Z.ltb_spec (retryAttempts s) 0).
  - by replace (Z.to_nat (retryAttempts s + 1)) with O by lia.
  - by replace (Z.to_nat (retryAttempts s + 1))
      with (S (Z.to_nat (retryAttempts s))) by lia.
Qed.

Lemma run_panicked (s : Scheduler) (now : Time) (net : Transport)
    (evs : list Select) :
  interval s <= 0 ->
  run s now net evs = Panicked (fst (sendHeartbeat s now net)).
Proof.
  intros Hint.
  induction evs as [|ev evs IH] using rev_ind.
  - unfold run, run_init, sendHeartbeat; simpl.
    destruct (sendHeartbeat_loop_config (Z.to_nat (retryAttempts s + 1)) 0 s
                now net None) as [_ ->].
    by destruct (Z.leb_spec (interval s) 0); [|lia].
  - by rewrite run_snoc, IH.
Qed.

(** C9, as stated, fails.  The configuration loader replaces only a zero
    by its default, so a retry count of -1 and a heartbeat interval of -1
    reach the scheduler.  With the retry count -1 a heartbeat cycle makes
    no attempt: it ends in status error and leaves no last error.  With the
    interval -1 the goroutine ends right after the first cycle, in the
    panic of [time.NewTicker], though its context was never cancelled. *)
Lemma heartbeat_cycle_without_attempt_records_no_error :
  let cfg := mkScreenConfig "http://10.42.0.1:8080" 30 60 (-1) 5 in
  let cfg' := mkScreenConfig "http://10.42.0.1:8080" (-1) 60 3 5 in
  let s := scheduler_of_config cfg example.default_client "screen-1" in
  let s' := scheduler_of_config cfg' example.default_client "screen-1" in
  let l := run (E := standin.client_env) s 0 standin.net_down
               [TickerC 30 standin.net_down] in
  let l' := run (E := standin.client_env) s' 0 standin.net_down [] in
  config.apply_defaults cfg = (cfg, false) /\
  config.apply_defaults cfg' = (cfg', false) /\
  cycle_fails (E := standin.client_env) s standin.net_down /\
  is_running l = true /\
  status (sched l) = StatusError /\
  lastError (sched l) = None /\
  is_running l' = false /\
  l' = Panicked (sched l') /\
  status (sched l') = StatusError.
Proof. by vm_compute. Qed.

(** C9, amended.  With a positive heartbeat interval, the heartbeat
    goroutine leaves its loop exactly when it has received the
    cancellation of its context, whatever the heartbeats did.  When a
    cycle has used up its attempts without success, the shared status is
    error and the last error is the error of the last attempt, which is
    attempt number [retryAttempts]; with a negative [retryAttempts] no
    attempt is made and the last error is cleared.  The loop is still
    running and answers the next tick with another heartbeat cycle.  With
    an interval that is not positive the goroutine ends in the panic of
    [time.NewTicker] after its first cycle, whatever it receives. *)
Theorem heartbeat_loop_survives_failed_cycles (s : Scheduler) (now : Time)
    (net : Transport) (evs : list Select) :
  (0 < interval s ->
   is_running (run s now net evs) = negb (existsb is_CtxDone evs) /\
   (cycle_fails s net ->
      status (sched (run s now net [])) = StatusError /\
      is_running (run s now net []) = true) /\
   (forall now1 net1,
      existsb is_CtxDone evs = false ->
      cycle_fails (sched (run s now net evs)) net1 ->
      let s0 := sched (run s now net evs) in
      let l := run s now net (evs ++ [TickerC now1 net1]) in
      is_running l = true /\
      status (sched l) = StatusError /\
      lastError (sched l)
      = (if retryAttempts s <? 0 then None
         else attempt_error (Z.to_nat (retryAttempts s)) s0 net1) /\
      (0 <= retryAttempts s -> exists e, lastError (sched l) = Some e) /\
      forall now2 net2,
        run s now net (evs ++ [TickerC now1 net1; TickerC now2 net2])
        = Running (fst (sendHeartbeat (sched l) now2 net2)))) /\
  (interval s <= 0 ->
   run s now net evs = Panicked (fst (sendHeartbeat s now net)) /\
   is_running (run s now net evs) = false).
Proof.
  split; [|intros Hint; by rewrite run_panicked].
  intros Hint.
  split; [by apply run_running|]. split.
  - intros Hfail. unfold run; simpl. rewrite run_init_running by done.
    split; [|done]. by apply sendHeartbeat_fails.
  - intros now1 net1 Hnc Hfail. cbv zeta.
    pose proof (run_running s now net evs Hint) as Hrun. rewrite Hnc in Hrun.
    pose proof (run_config s now net evs) as Hcfg.
    rewrite run_snoc.
    destruct (run s now net evs) as [s0|s0|s0] eqn:Hl; [|done..].
    simpl in *.
    destruct (sendHeartbeat_fails s0 now1 net1 Hfail) as [Hst Herr].
    split; [done|]. split; [done|]. split; [|split].
    + rewrite sendHeartbeat_last_error by done. by rewrite Hcfg.
    + intros Hpos. apply Herr. by rewrite Hcfg.
    + intros now2 net2.
      change [TickerC now1 net1; TickerC now2 net2]
        with ([TickerC now1 net1] ++ [TickerC now2 net2])%list.
      by rewrite app_assoc, !run_snoc, Hl.
Qed.

End heartbeat_loop.

Lemma heartbeat_loop_survives_failed_cycles_witness :
  let l := heartbeat.run example.default_heartbeat 0 standin.net_down
             [heartbeat.TickerC 30 standin.net_down] in
  heartbeat.is_running l = true /\
  heartbeat.status (heartbeat.sched l) = heartbeat.StatusError.
Proof.
  destruct (heartbeat_loop_survives_failed_cycles
              (E := standin.client_env)
              example.default_heartbeat 0 standin.net_down [])
    as [H _].
  destruct (H eq_refl) as (_ & _ & H').
  destruct (H' 30 standin.net_down eq_refl) as (Hr & Hs & _).
  - by vm_compute.
  - split; [exact Hr|exact Hs].
Defined.

(** ** Player: state and current ad *)

Section player_invariant.
Import models player.

Lemma step_preserves_stopped_means_idle (p q : Player) :
  step p q -> stopped_means_idle p -> stopped_means_idle q.
Proof.
  unfold stopped_means_idle.
  intros Hstep [Hidle Hmirror].
  destruct Hstep; destruct p as [cur st sst n e]; simpl in *;
    unfold Start, Stop, Pause, Resume, UpdateAds, load_begin, load_no_ad,
           load_render_error, load_rendered, set_state; simpl;
    destruct st; simpl; split; auto; try discriminate.
Qed.

(** C2, as stated, fails: right after [Start] on a new player the state
    is playing and there is no current ad. *)
Lemma currentAd_iff_active_fails_after_Start :
  reachable (Start NewPlayer) /\
  state (Start NewPlayer) = PlayerStatePlaying /\
  currentAd (Start NewPlayer) = None /\
  ~ (forall p, reachable p ->
       (currentAd p <> None <-> in_active_state p = true)).
Proof.
  assert (Hr : reachable (Start NewPlayer))
    by (eapply reach_step; [apply reach_new|apply step_Start]).
  repeat split; [done|].
  intros H. destruct (H _ Hr) as [_ Hact]. by apply Hact.
Qed.

(** C2, amended.  In every reachable state: a stopped player has no
    current ad, that is, a current ad implies one of the states loading,
    playing, paused or error. *)
Theorem stopped_player_has_no_current_ad (p : Player) :
  reachable p ->
  (state p = PlayerStateStopped -> currentAd p = None) /\
  (currentAd p <> None ->
     in_active_state p = true \/ state p = PlayerStateError).
Proof.
  intros Hr.
  assert (Hinv : stopped_means_idle p).
  { induction Hr as [|p q _ IH Hstep]; [by split|].
    by eapply step_preserves_stopped_means_idle. }
  destruct Hinv as [Hidle _]. split; [done|].
  intros Had. unfold in_active_state.
  destruct (state p) eqn:Hst; simpl; auto.
Qed.

Lemma stopped_player_has_no_current_ad_witness :
  currentAd (Stop (load_rendered example.ad_U (Start NewPlayer))) = None.
Proof.
  apply (stopped_player_has_no_current_ad
           (Stop (load_rendered example.ad_U (Start NewPlayer)))).
  - eapply reach_step; [|apply step_Stop].
    eapply reach_step; [|apply step_load_rendered].
    eapply reach_step; [apply reach_new|apply step_Start].
  - reflexivity.
Defined.

End player_invariant.

(** ** Ad storage: writing the manifest *)

Section manifest_write.
Import models Go os ads.


Lemma existsb_rename_writes (target name : string) (pieces : list bytes) :
  existsb (is_rename_to target)
          (map (SysWrite name) pieces ++ [SysClose name]) = false.
Proof. induction pieces as [|p ps IH]; simpl; [done|exact IH]. Qed.


End manifest_write.

(** ** Media downloader *)

Section media_download.
Import models os downloader.

(** C5, as stated, fails on the file:// branch.  For an ad whose content
    URL is [file:///tmp/empty.png], with that file present and empty and
    nothing cached, [DownloadAdMedia] returns the path of the empty file;
    and for the content URL [file:///tmp] it returns the directory. *)
Lemma DownloadAdMedia_returns_empty_local_file :
  DownloadAdMedia example.home_downloader example.ad_local true
                  (fun _ => FetchErr) example.fs_empty_png
  = (inr "/tmp/empty.png", example.fs_empty_png) /\
  example.fs_empty_png !! "/tmp/empty.png" = Some (File []) /\
  Stat "/tmp/empty.png" example.fs_empty_png = Some (mkFileInfo 0 false) /\
  DownloadAdMedia example.home_downloader example.ad_tmp true
                  (fun _ => FetchErr) example.fs_tmp_dir
  = (inr "/tmp", example.fs_tmp_dir) /\
  example.fs_tmp_dir !! "/tmp" = Some (Dir 4096).
Proof. by vm_compute. Qed.

Lemma Stat_positive_file (path : string) (fs : FS) (info : FileInfo) :
  Stat path fs = Some info -> IsDir info = false -> 0 < Size info ->
  exists data, fs !! path = Some (File data) /\ data <> [].
Proof.
  unfold Stat. destruct (fs !! path) as [[data|sz]|]; simpl; [| |done].
  - intros [= <-] _ Hpos. exists data. split; [done|].
    intros ->. simpl in Hpos. lia.
  - by intros [= <-].
Qed.

Lemma DownloadFile_ok_file (dest : string) (f : Fetch) (fs fs' : FS) :
  DownloadFile dest f fs = (None, fs') ->
  exists body, fs' !! dest = Some (File body).
Proof.
  unfold DownloadFile. destruct f as [|code body io]; [done|].
  destruct (negb (code =? 200)); [done|].
  destruct io; try done. intros [= <-]. exists body. apply lookup_insert_eq.
Qed.

Lemma download_loop_nonempty (iters k : nat) (d : Downloader)
    (localPath : string) (net : nat -> Fetch)
    (lastErr : option AttemptError) (fs fs' : FS) (path : string) :
  download_loop iters k d localPath net lastErr fs = (inr path, fs') ->
  path = localPath /\
  exists data, fs' !! path = Some (File data) /\ data <> [].
Proof.
  revert k lastErr fs.
  induction iters as [|n IH]; intros k lastErr fs; simpl; [done|].
  destruct (DownloadFile localPath (net k) fs) as [[err|] fs1] eqn:Hdl;
    [by apply IH|].
  destruct (Stat localPath fs1) as [info|] eqn:Hstat; [|by apply IH].
  destruct (Z.ltb_spec 0 (Size info)); [|by apply IH].
  intros [= <- <-]. split; [done|].
  apply DownloadFile_ok_file in Hdl as [body Hbody].
  eapply Stat_positive_file; [done| |done].
  unfold Stat in Hstat. rewrite Hbody in Hstat. by injection Hstat as <-.
Qed.

(** C5, amended.  [DownloadAdMedia] returns an error or a path on which
    [os.Stat] succeeds.  The cache is looked at first: a hit returns the
    media path of the ad, whose reported size is positive, and touches
    nothing.  After a miss, a content URL with the scheme file:// is
    stripped of it and the rest is returned exactly when [os.Stat] succeeds
    on it, whatever is there (an empty file and a directory included);
    otherwise the call fails with "local file not found"; no file is
    written on this branch.  On the download branch a returned path is the
    media path of the ad and holds a regular file that is not empty. *)
Theorem DownloadAdMedia_returns_existing_file (d : Downloader) (ad : Ad)
    (ensure_ok : bool) (net : nat -> Fetch) (fs fs' : FS)
    (r : downloader.Error + string) :
  DownloadAdMedia d ad ensure_ok net fs = (r, fs') ->
  let local := TrimPrefix (ContentURL ad) "file://" in
  (forall path, r = inr path -> is_Some (Stat path fs')) /\
  (IsCached d ad fs = true ->
     r = inr (media_path d ad) /\ fs' = fs /\
     exists info, Stat (media_path d ad) fs = Some info /\ 0 < Size info) /\
  (IsCached d ad fs = false ->
   HasPrefix (ContentURL ad) "file://" = true ->
     fs' = fs /\
     (is_Some (Stat local fs) -> r = inr local) /\
     (Stat local fs = None -> r = inl (ErrLocalNotFound local))) /\
  (IsCached d ad fs = false ->
   HasPrefix (ContentURL ad) "file://" = false ->
     forall path, r = inr path ->
       path = media_path d ad /\
       exists data, fs' !! path = Some (File data) /\ data <> []).
Proof.
  unfold DownloadAdMedia, IsCached. intros Hrun. cbv zeta.
  destruct (GetLocalPath d ad fs) as [cached hit] eqn:Hcache.
  unfold GetLocalPath in Hcache. cbn [snd].
  destruct hit.
  - injection Hrun as <- <-.
    destruct (Stat (media_path d ad) fs) as [info|] eqn:Hstat; [|done].
    destruct (Z.ltb_spec 0 (Size info)); [|done].
    injection Hcache as <-.
    split; [|split; [|split]].
    + intros path [= <-]. by rewrite Hstat.
    + intros _. split; [done|]. split; [done|]. by exists info.
    + done.
    + done.
  - destruct (HasPrefix (ContentURL ad) "file://") eqn:Hpre.
    + destruct (Stat (TrimPrefix (ContentURL ad) "file://") fs)
        as [info|] eqn:Hloc; injection Hrun as <- <-.
      * split; [|split; [|split]].
        -- intros path [= <-]. by rewrite Hloc.
        -- done.
        -- done.
        -- done.
      * split; [|split; [|split]].
        -- done.
        -- done.
        -- intros _ _. split; [done|]. split; [|done]. by intros [? ?].
        -- done.
    + destruct ensure_ok; simpl in Hrun.
      * split; [|split; [|split]].
        -- intros path ->.
           apply download_loop_nonempty in Hrun as (_ & data & Hd & _).
           unfold Stat. by rewrite Hd.
        -- done.
        -- done.
        -- intros _ _ path ->.
           by apply download_loop_nonempty in Hrun.
      * injection Hrun as <- <-. by split; [|split; [|split]].
Qed.

Lemma DownloadAdMedia_returns_existing_file_witness :
  is_Some (Stat "/tmp" example.fs_tmp_dir).
Proof.
  refine (proj1 (DownloadAdMedia_returns_existing_file
                   example.home_downloader example.ad_tmp true
                   (fun _ => FetchErr) example.fs_tmp_dir example.fs_tmp_dir
                   (inr "/tmp") _) "/tmp" eq_refl).
  by vm_compute.
Defined.

End media_download.

(** ** The stand-in library keeps the contracts *)

Lemma bytes_eqb_refl (b : os.bytes) : standin.bytes_eqb b b = true.
Proof.
  induction b as [|x b IH]; simpl; [done|].
  rewrite IH, andb_true_r. by destruct x.
Qed.

#[global] Instance crypto_laws : storage.CryptoLaws standin.crypto.
Proof.
  split.
  - intros k. simpl. unfold standin.pad32.
    rewrite length_take, length_app, length_replicate. lia.
  - intros key nonce pt _ _. simpl. unfold standin.open, standin.seal.
    rewrite length_app.
    change (length standin.tag) with 16%nat.
    replace (length pt + 16 - 16)%nat with (length pt) by lia.
    rewrite drop_app_length, take_app_length, bytes_eqb_refl.
    by destruct (Nat.leb_spec 16 (length pt + 16)); [|lia].
  - intros b. simpl. by rewrite list_byte_of_string_of_list_byte.
Qed.

Lemma append_cons (c : ascii) (a b : string) :
  String c a ++ b = String c (a ++ b).
Proof. reflexivity. Qed.

Lemma append_assoc (a b c : string) : (a ++ b) ++ c = a ++ (b ++ c).
Proof.
  induction a as [|x a IH]; [done|]. by rewrite !append_cons, IH.
Qed.

Lemma read_unary_put (n : nat) (r : string) :
  standin.read_unary (standin.unary n ++ String "0" r) = Some (n, r).
Proof.
  induction n as [|n IH]; [done|].
  cbn [standin.unary]. rewrite append_cons. cbn [standin.read_unary].
  by rewrite IH.
Qed.

Lemma split_at_app (a p : string) :
  standin.split_at (String.length a) (a ++ p) = Some (a, p).
Proof.
  induction a as [|c a IH]; [done|].
  rewrite append_cons. cbn [String.length standin.split_at]. by rewrite IH.
Qed.

Lemma get_string_put (a p : string) :
  standin.get_string (standin.put_string a ++ p) = Some (a, p).
Proof.
  unfold standin.get_string, standin.put_string.
  rewrite append_assoc, append_cons, read_unary_put. apply split_at_app.
Qed.

#[global] Instance credentials_json_laws :
  credentials.CredentialsJSON standin.json_credentials.
Proof.
  split. intros c. cbn [json_Marshal json_Unmarshal standin.json_credentials].
  by rewrite string_of_list_byte_of_string, get_string_put.
Qed.

(** ** Secret vault and credentials *)

Section vault.
Import models Go os storage credentials.
Context `{C : Crypto} `{J : JSON Credentials}.

Lemma append_inj_l (a x y : string) : a ++ x = a ++ y -> x = y.
Proof. induction a as [|c a IH]; simpl; [done|]. intros [= H]. auto. Qed.

Lemma keyFile_not_credsFile (dir : string) :
  keyFile (NewStorage dir) <> credsFile (NewStorage dir).
Proof.
  unfold NewStorage, Join; simpl.
  destruct (String.eqb dir ""); [done|].
  intros H. by apply append_inj_l in H.
Qed.

(** [Decrypt] ends with a value, error or plaintext, on every input. *)
Lemma Decrypt_returns (encryptedData key : bytes) :
  exists r, Decrypt encryptedData key = Ret r.
Proof.
  unfold Decrypt.
  destruct (aes_NewCipher (sha256_Sum256 key)) as [block|]; [|by eexists].
  destruct (Nat.ltb_spec (length encryptedData) NonceSize); [by eexists|].
  unfold slice_to, slice_from.
  destruct (Nat.leb_spec NonceSize (length encryptedData)); [|lia].
  simpl. unfold Open.
  rewrite length_take, Nat.min_l by done. rewrite Nat.eqb_refl. simpl.
  destruct (gcm_open block _ _); by eexists.
Qed.

Lemma Load_returns (s : Storage) (rand : RandReader) (io : IO) (fs : FS) :
  exists r, Load s rand io fs = Ret r.
Proof.
  unfold Load.
  destruct (Stat (credsFile s) fs); [|by eexists].
  destruct (getOrCreateKey s rand (key_io io) fs) as [[err|key] fs1];
    [by eexists|].
  destruct (ReadFile (credsFile s) fs1) as [enc|]; [|by eexists].
  unfold DecryptFromBase64.
  destruct (base64_DecodeString _) as [encrypted|]; [|by eexists].
  destruct (Decrypt_returns encrypted key) as [[err|data] ->]; simpl;
    [by eexists|].
  destruct (json_Unmarshal data); by eexists.
Qed.

Lemma ReadFull_length (rand : RandReader) (n : nat) (b : bytes) :
  ReadFull rand n = Some b -> length b = n.
Proof.
  unfold ReadFull. destruct (rand n) as [b'|]; [|done].
  destruct (Nat.eqb_spec (length b') n); [|done]. by intros [= <-].
Qed.

(** What [getOrCreateKey] does to the files: nothing, unless the key file
    cannot be read and a key is generated; then the key file is opened and
    left with a prefix of the new key, all of it exactly when the call
    returns the key. *)
Lemma getOrCreateKey_effect (s : Storage) (rand : RandReader) (w : WriteIO)
    (fs : FS) (r : credentials.Error + bytes) (fs' : FS) :
  getOrCreateKey s rand w fs = (r, fs') ->
  (fs' = fs /\ (forall key, r = inr key -> ReadFile (keyFile s) fs = Some key))
  \/
  (ReadFile (keyFile s) fs = None /\
   exists key written,
     length key = 32%nat /\ written `prefix_of` key /\
     fs' = <[keyFile s := File written]> fs /\
     (r = inr key /\ written = key \/ r = inl ErrSaveKey)).
Proof.
  unfold getOrCreateKey, GenerateEncryptionKey.
  destruct (ReadFile (keyFile s) fs) as [k|] eqn:Hk.
  { intros [= <- <-]. left. split; [done|]. by intros key [= <-]. }
  destruct (ReadFull rand 32) as [key|] eqn:Hr.
  2:{ intros [= <- <-]. left. by split. }
  destruct (WriteFile (keyFile s) key w) as [ops ok] eqn:Hw.
  intros [= <- <-].
  destruct (WriteFile_effect _ _ _ fs _ _ Hw)
    as [(_ & -> & ->)|(_ & _ & _ & written & Hpre & Hrun & Hok)].
  - left. by split.
  - right. split; [done|]. exists key, written.
    split; [by apply ReadFull_length in Hr|]. split; [done|].
    split; [done|]. destruct ok; [left|by right]. split; [done|]. by apply Hok.
Qed.

Lemma getOrCreateKey_error (s : Storage) (rand : RandReader) (w : WriteIO)
    (fs fs' : FS) (e : credentials.Error) :
  getOrCreateKey s rand w fs = (inl e, fs') ->
  e = ErrSaveKey \/ exists e', e = ErrKey e'.
Proof.
  unfold getOrCreateKey, GenerateEncryptionKey.
  destruct (ReadFile (keyFile s) fs); [done|].
  destruct (ReadFull rand 32) as [key|]; [|intros [= <- _]; right; by eexists].
  destruct (WriteFile (keyFile s) key w) as [ops [|]]; [done|].
  intros [= <- _]. by left.
Qed.

Lemma getOrCreateKey_success (s : Storage) (rand : RandReader) (w : WriteIO)
    (fs : FS) (key : bytes) (fs0 : FS) :
  getOrCreateKey s rand w fs = (inr key, fs0) ->
  ReadFile (keyFile s) fs0 = Some key /\
  (forall p, p <> keyFile s -> fs0 !! p = fs !! p).
Proof.
  intros Hget.
  apply getOrCreateKey_effect in Hget
    as [[-> Hk]|(_ & k & written & _ & _ & -> & [[[= <-] ->]|?])];
    [by split; [apply Hk|]| |done].
  split; [unfold ReadFile; by rewrite lookup_insert_eq|].
  intros p Hp. by rewrite lookup_insert_ne.
Qed.

Context {L : CryptoLaws C}.

Lemma aes_NewCipher_digest (key : bytes) :
  aes_NewCipher (sha256_Sum256 key) = Some (sha256_Sum256 key).
Proof. unfold aes_NewCipher. by rewrite sha256_size. Qed.

Lemma Decrypt_Encrypt (data key nonce : bytes) (rand : RandReader) :
  ReadFull rand NonceSize = Some nonce ->
  exists sealed,
    Encrypt data key rand = Ret (inr sealed) /\
    Decrypt sealed key = Ret (inr data).
Proof.
  intros Hrand.
  assert (Hlen : length nonce = NonceSize) by by apply ReadFull_length in Hrand.
  exists (nonce ++ gcm_seal (sha256_Sum256 key) nonce data)%list.
  unfold Encrypt, Decrypt. rewrite aes_NewCipher_digest, Hrand.
  unfold Seal, Open, slice_to, slice_from.
  rewrite Hlen, Nat.eqb_refl. simpl. split; [done|].
  rewrite length_app, Hlen.
  destruct (Nat.ltb_spec (NonceSize + length (gcm_seal (sha256_Sum256 key) nonce data)) NonceSize); [lia|].
  destruct (Nat.leb_spec NonceSize (NonceSize + length (gcm_seal (sha256_Sum256 key) nonce data))); [|lia].
  simpl. rewrite take_app_length', drop_app_length' by done.
  rewrite Hlen, Nat.eqb_refl. simpl.
  rewrite gcm_open_seal; [done|apply sha256_size|done].
Qed.

Lemma Encrypt_then_Decrypt (data key sealed : bytes) (rand : RandReader) :
  Encrypt data key rand = Ret (inr sealed) ->
  Decrypt sealed key = Ret (inr data).
Proof.
  intros Henc.
  destruct (ReadFull rand NonceSize) as [nonce|] eqn:Hr.
  - destruct (Decrypt_Encrypt data key nonce rand Hr) as (sealed' & He & Hd).
    rewrite Henc in He. by injection He as ->.
  - unfold Encrypt in Henc. by rewrite aes_NewCipher_digest, Hr in Henc.
Qed.

(** After a [Save] that returned without error the key file can be read
    and the credentials file holds a blob that decrypts, under the key in
    the key file, to the JSON text of the record. *)
Lemma Save_success (dir : string) (creds : Credentials) (rand : RandReader)
    (io : IO) (fs fs1 : FS) :
  let s := NewStorage dir in
  Save s creds rand io fs = Ret (None, fs1) ->
  exists key blob,
    ReadFile (keyFile s) fs1 = Some key /\
    fs1 !! credsFile s = Some (File blob) /\
    DecryptFromBase64 (string_of_list_byte blob) key
    = Ret (inr (json_Marshal creds)).
Proof.
  simpl. pose proof (keyFile_not_credsFile dir) as Hne.
  set (s := NewStorage dir) in *.
  unfold Save. destruct (mkdir_ok io); simpl; [|done].
  destruct (getOrCreateKey s rand (key_io io) fs) as [[e|key] fs0] eqn:Hget;
    [done|].
  apply getOrCreateKey_success in Hget as [Hkey Hfr].
  unfold EncryptToBase64.
  destruct (Encrypt (json_Marshal creds) key rand) as [[e|sealed]| |msg]
    eqn:Henc; simpl; try done.
  change (Join dir "credentials.json.enc") with (credsFile s).
  change (Join dir ".encryption_key") with (keyFile s).
  destruct (WriteFile (credsFile s)
              (list_byte_of_string (base64_EncodeToString sealed))
              (creds_io io)) as [ops ok] eqn:Hw.
  destruct ok; [|done]. intros [= <-].
  destruct (WriteFile_effect _ _ _ fs0 _ _ Hw)
    as [(_ & _ & ?)|(_ & _ & _ & w & _ & -> & Hok)]; [done|].
  rewrite Hok by done.
  exists key, (list_byte_of_string (base64_EncodeToString sealed)).
  split; [|split].
  - unfold ReadFile in *. by rewrite lookup_insert_ne.
  - apply lookup_insert_eq.
  - unfold DecryptFromBase64.
    rewrite string_of_list_byte_of_string, base64_decode_encode.
    by apply Encrypt_then_Decrypt in Henc.
Qed.

Lemma Save_goes_through (dir : string) (creds : Credentials)
    (rand : RandReader) (fs : FS) :
  (forall n, is_Some (ReadFull rand n)) ->
  exists fs1, Save (NewStorage dir) creds rand io_ok fs = Ret (None, fs1).
Proof.
  intros Hrand. set (s := NewStorage dir).
  unfold Save, io_ok. cbn [mkdir_ok key_io creds_io negb].
  assert (Hkey : exists key fs0,
            getOrCreateKey s rand write_ok fs = (inr key, fs0)).
  { unfold getOrCreateKey, GenerateEncryptionKey.
    destruct (ReadFile (keyFile s) fs) as [k|]; [by eexists _, _|].
    destruct (Hrand 32%nat) as [key ->].
    destruct (WriteFile (keyFile s) key write_ok) as [ops ok] eqn:Hw.
    pose proof (WriteFile_write_ok (keyFile s) key) as Hok.
    rewrite Hw in Hok. simpl in Hok. subst ok. by eexists _, _. }
  destruct Hkey as (key & fs0 & ->).
  destruct (Hrand NonceSize) as [nonce Hnonce].
  destruct (Decrypt_Encrypt (json_Marshal creds) key nonce rand Hnonce)
    as (sealed & Henc & _).
  unfold EncryptToBase64. rewrite Henc. cbn -[WriteFile run credsFile].
  destruct (WriteFile (credsFile s)
              (list_byte_of_string (base64_EncodeToString sealed))
              write_ok) as [ops ok] eqn:Hw.
  pose proof (WriteFile_write_ok (credsFile s)
                (list_byte_of_string (base64_EncodeToString sealed))) as Hok.
  rewrite Hw in Hok. simpl in Hok. subst ok. by eexists.
Qed.

Context {JL : CredentialsJSON J}.

Lemma storage_Save_then_Load (dir : string) (creds : Credentials)
    (rand rand' : RandReader) (io io' : IO) (fs fs1 : FS) :
  Save (NewStorage dir) creds rand io fs = Ret (None, fs1) ->
  Load (NewStorage dir) rand' io' fs1 = Ret (inr (coerce_utf8 creds), fs1) /\
  Exists (NewStorage dir) fs1 = true.
Proof.
  intros Hsave.
  destruct (Save_success dir creds rand io fs fs1 Hsave)
    as (key & blob & Hkey & Hblob & Hdec).
  unfold Load, Exists, Stat, getOrCreateKey. rewrite Hblob, Hkey.
  unfold ReadFile. rewrite Hblob, Hdec. simpl.
  by rewrite json_credentials_round_trip.
Qed.

(** C10.  [Decrypt], [DecryptFromBase64] and the credentials [Load]
    return a value on every input: none of them panics on a slice or on
    the nonce handed to GCM.  An input shorter than the nonce gives the
    error "encrypted data too short"; an input that does not decode as
    base64 or that GCM refuses gives an error as well. *)
Theorem Decrypt_never_panics (encryptedData key : bytes) :
  (exists r, Decrypt encryptedData key = Ret r) /\
  ((length encryptedData < NonceSize)%nat ->
     Decrypt encryptedData key = Ret (inl ErrTooShort)) /\
  ((NonceSize <= length encryptedData)%nat ->
   gcm_open (sha256_Sum256 key) (take NonceSize encryptedData)
            (drop NonceSize encryptedData) = None ->
     Decrypt encryptedData key = Ret (inl ErrDecrypt)) /\
  (forall encryptedBase64,
     (exists r, DecryptFromBase64 encryptedBase64 key = Ret r) /\
     (base64_DecodeString encryptedBase64 = None ->
        DecryptFromBase64 encryptedBase64 key = Ret (inl ErrBase64))) /\
  (forall s rand io fs, exists r, Load s rand io fs = Ret r).
Proof.
  split; [apply Decrypt_returns|]. split; [|split; [|split]].
  - intros Hshort. unfold Decrypt. rewrite aes_NewCipher_digest.
    by destruct (Nat.ltb_spec (length encryptedData) NonceSize); [|lia].
  - intros Hlong Hrej. unfold Decrypt. rewrite aes_NewCipher_digest.
    destruct (Nat.ltb_spec (length encryptedData) NonceSize); [lia|].
    unfold slice_to, slice_from.
    destruct (Nat.leb_spec NonceSize (length encryptedData)); [|lia].
    simpl. unfold Open.
    rewrite length_take, Nat.min_l by done. rewrite Nat.eqb_refl. simpl.
    by rewrite Hrej.
  - intros b64. unfold DecryptFromBase64.
    destruct (base64_DecodeString b64) as [enc|]; [|by split; [eexists|]].
    split; [apply Decrypt_returns|done].
  - apply Load_returns.
Qed.


End vault.


Lemma rand_zero_delivers (n : nat) :
  is_Some (storage.ReadFull standin.rand_zero n).
Proof.
  unfold storage.ReadFull, standin.rand_zero.
  rewrite length_replicate, Nat.eqb_refl. by eexists.
Qed.

Lemma Decrypt_never_panics_witness :
  storage.Decrypt [Byte.x01; Byte.x02] [Byte.x0a]
  = Go.Ret (inl storage.ErrTooShort).
Proof.
  apply (Decrypt_never_panics (C := standin.crypto)
           (J := standin.json_credentials) (L := crypto_laws)
           [Byte.x01; Byte.x02] [Byte.x0a]).
  vm_compute. lia.
Defined.


(* ===================================================================== *)
(** * Part III: further properties of the embedded code                   *)
(* ===================================================================== *)

(** ** Playlist: order, cursor, counts *)

Section playlist_more.
Import Go models Playlist.

Lemma StronglySorted_lookup_lt {A} (R : relation A) (l : list A)
    (i j : nat) (a b : A) :
  StronglySorted R l -> (i < j)%nat ->
  l !! i = Some a -> l !! j = Some b -> R a b.
Proof.
  intros Hs. revert i j.
  induction Hs as [|x l Hs IH Hall]; intros i j Hij Hi Hj; [done|].
  destruct j as [|j]; [lia|]. destruct i as [|i]; simpl in *.
  - injection Hi as <-. by eapply Forall_lookup_1.
  - apply (IH i j); [lia|done..].
Qed.

(** X1.  [SortByPriority] returns the ads it was given, each as often as
    before, ordered so that an ad standing earlier never has a lower
    priority than one standing later, and among equal priorities never a
    greater id. *)
Theorem SortByPriority_orders_by_priority_then_id (l : list Ad) :
  Permutation (SortByPriority l) l /\
  length (SortByPriority l) = length l /\
  forall (i j : nat) (a b : Ad),
    (i < j)%nat ->
    SortByPriority l !! i = Some a -> SortByPriority l !! j = Some b ->
    Priority b <= Priority a /\
    (Priority a = Priority b -> ~ String_as_OT.lt (ID b) (ID a)).
Proof.
  split; [apply SortByPriority_Permutation|].
  split; [apply Permutation_length, SortByPriority_Permutation|].
  intros i j a b Hij Hi Hj.
  pose proof (StronglySorted_lookup_lt before _ i j a b
                (SortByPriority_sorted l) Hij Hi Hj) as Hb.
  unfold before in Hb. apply not_true_iff_false in Hb.
  rewrite less_spec in Hb. split.
  - destruct (Z.le_gt_cases (Priority b) (Priority a)); [done|].
    exfalso. apply Hb. left. lia.
  - intros Heq Hlt. apply Hb. right. split; [lia|done].
Qed.

(** X2.  [UpdateAds] on a free playlist replaces the ad list, stamps the
    update time and releases the lock.  A cursor that was not negative
    stays not negative, is kept when it is a valid index of the new list
    and is reset to zero otherwise, so with a non-empty new list it is a
    valid index afterwards. *)
Theorem UpdateAds_keeps_cursor_in_range (now : Time)
    (r : AdDeliveryResponse) (p : Playlist.t) :
  mu p = unlocked -> 0 <= currentIdx p ->
  exists p',
    UpdateAds now r p = Ret p' /\
    ads p' = Ads r /\ lastUpdate p' = now /\ mu p' = unlocked /\
    0 <= currentIdx p' /\
    (Ads r <> [] -> currentIdx p' < Z.of_nat (length (Ads r))) /\
    (currentIdx p < Z.of_nat (length (Ads r)) ->
       currentIdx p' = currentIdx p) /\
    (Z.of_nat (length (Ads r)) <= currentIdx p -> currentIdx p' = 0).
Proof.
  intros Hmu Hidx. unfold UpdateAds. rewrite Hmu. simpl.
  eexists. split; [reflexivity|]. simpl.
  repeat split; try done;
    destruct (Z.leb_spec (Z.of_nat (length (Ads r))) (currentIdx p));
    try lia.
  intros Hne. destruct (Ads r); [done|simpl; lia].
Qed.

Lemma UpdateAds_keeps_cursor_in_range_witness :
  exists p',
    UpdateAds 1000 (mkAdDeliveryResponse [example.ad_U] "pl" 990)
              (Playlist.mk [example.ad_U; example.ad_V; example.ad_W]
                           2 0 unlocked) = Ret p' /\
    currentIdx p' = 0.
Proof.
  destruct (UpdateAds_keeps_cursor_in_range 1000
              (mkAdDeliveryResponse [example.ad_U] "pl" 990)
              (Playlist.mk [example.ad_U; example.ad_V; example.ad_W]
                           2 0 unlocked) eq_refl)
    as (p' & Hrun & _ & _ & _ & _ & _ & _ & Hreset).
  - simpl. lia.
  - exists p'. split; [exact Hrun|]. apply Hreset. simpl. lia.
Defined.

(** X3.  On a playlist no writer holds, [GetCount] and [GetActiveCount]
    return and leave the playlist as it was, and the number of active ads
    is never above the number of ads; both are equal exactly when every ad
    is inside its time window. *)
Theorem GetActiveCount_at_most_GetCount (now : Time) (p : Playlist.t) :
  writer (mu p) = false ->
  exists total active,
    GetCount p = Ret (total, p) /\
    GetActiveCount now p = Ret (active, p) /\
    0 <= active <= total /\
    (active = total <-> forallb (keeps now) (ads p) = true).
Proof.
  intros Hw.
  exists (Z.of_nat (length (ads p))),
         (Z.of_nat (length (List.filter (keeps now) (ads p)))).
  split; [|split; [|split]].
  - destruct p as [l i u [w rd]]; simpl in *. by subst w.
  - unfold GetActiveCount, GetActiveAds.
    by rewrite (FilterByTime_unlocked now p Hw).
  - pose proof (List.filter_length_le (keeps now) (ads p)). lia.
  - split.
    + intros Heq. apply List.filter_length_forallb. lia.
    + intros Hall. f_equal. f_equal.
      induction (ads p) as [|a l IH]; simpl in *; [done|].
      apply andb_true_iff in Hall as [-> Hall]. simpl. by rewrite IH.
Qed.

Lemma GetActiveCount_at_most_GetCount_witness :
  exists total active,
    GetCount example.three_ads = Ret (total, example.three_ads) /\
    GetActiveCount 1000 example.three_ads
    = Ret (active, example.three_ads) /\
    active <= total.
Proof.
  destruct (GetActiveCount_at_most_GetCount 1000 example.three_ads eq_refl)
    as (total & active & Hc & Ha & Hle & _).
  exists total, active. split; [exact Hc|]. split; [exact Ha|]. lia.
Defined.

Lemma nth_error_is_lookup {A} (l : list A) (i : nat) :
  nth_error l i = l !! i.
Proof. revert i. induction l as [|x l IH]; intros [|i]; simpl; auto. Qed.

(** The selection step of [GetNextAd] is a round-robin: with a
    cursor [q * n + i] on a sorted slice of [n] ads ([0 <= q],
    [i < n]), it picks the ad at position [i] and moves the cursor to the
    next integer, wrapped to [int64]. *)
Theorem pick_round_robin (sortedAds : list Ad) (q : Z) (i : nat) (ad : Ad) :
  0 <= q -> sortedAds !! i = Some ad ->
  pick sortedAds (q * Z.of_nat (length sortedAds) + Z.of_nat i)
  = Ret (Some ad,
         wrap64 (q * Z.of_nat (length sortedAds) + Z.of_nat i + 1)).
Proof.
  intros Hq Hi.
  pose proof (lookup_lt_Some _ _ _ Hi) as Hlt.
  assert (Hne : sortedAds <> []) by (intros ->; simpl in Hlt; lia).
  destruct (pick_cyclic sortedAds
              (q * Z.of_nat (length sortedAds) + Z.of_nat i) Hne
              ltac:(nia)) as (ad' & Hnth & Hpick).
  assert (Hmod : (q * Z.of_nat (length sortedAds) + Z.of_nat i)
                 mod Z.of_nat (length sortedAds) = Z.of_nat i).
  { rewrite Z.add_comm, Z.mod_add by lia. apply Z.mod_small. lia. }
  rewrite Hmod, Nat2Z.id, nth_error_is_lookup, Hi in Hnth.
  injection Hnth as <-. exact Hpick.
Qed.

Lemma pick_round_robin_witness :
  pick [example.ad_U; example.ad_V; example.ad_W] 7
  = Ret (Some example.ad_V, 8).
Proof.
  apply (pick_round_robin [example.ad_U; example.ad_V; example.ad_W] 2 1
           example.ad_V); [lia|reflexivity].
Defined.

End playlist_more.

(** ** Scheduler: bounds *)

Section scheduler_more.
Import models Go Scheduler.

(** X4.  Whatever the ad and the default, [GetAdDuration] answers between
    5 s and 300 s.  A duration from 5 to 300 seconds is returned as it is,
    a positive one below 5 seconds gives 5 s, and one above 300 seconds
    whose nanosecond count still fits [int64] gives 300 s. *)
Theorem GetAdDuration_clamps (dflt delay : Z) (ad : Ad) :
  let d := GetAdDuration (NewScheduler dflt delay) ad in
  5 * Second <= d <= 300 * Second /\
  (5 <= models.Duration ad <= 300 -> d = models.Duration ad * Second) /\
  (0 < models.Duration ad <= 5 -> d = 5 * Second) /\
  (300 <= models.Duration ad ->
   models.Duration ad * Second <= int64_max -> d = 300 * Second).
Proof.
  simpl. split; [apply GetAdDuration_range|].
  split; [apply GetAdDuration_in_bounds|]. split.
  - intros H. rewrite GetAdDuration_without_overflow
      by (unfold int64_max, Second; lia).
    unfold spec_DurationFor, clamp, Second.
    destruct (Z.ltb_spec 0 (models.Duration ad)); lia.
  - intros H Hfit. rewrite GetAdDuration_without_overflow by done.
    unfold spec_DurationFor, clamp, Second.
    destruct (Z.ltb_spec 0 (models.Duration ad)); lia.
Qed.

(** X5.  [ShouldTransition] never fires before an ad has been shown for
    5 s and always fires once it has been shown for 300 s; once it fires
    it keeps firing as the clock advances. *)
Theorem ShouldTransition_between_min_and_max (dflt delay : Z) (ad : Ad)
    (startTime now : Time) :
  let s := NewScheduler dflt delay in
  (now - startTime < 5 * Second ->
     ShouldTransition s ad startTime now = false) /\
  (300 * Second <= now - startTime ->
     ShouldTransition s ad startTime now = true) /\
  (forall later, now <= later ->
     ShouldTransition s ad startTime now = true ->
     ShouldTransition s ad startTime later = true).
Proof.
  simpl. pose proof (GetAdDuration_range dflt delay ad) as Hr.
  unfold ShouldTransition, sat64, int64_min, int64_max, Second in *.
  repeat split.
  - intros H. apply Z.leb_gt. lia.
  - intros H. apply Z.leb_le. lia.
  - intros later Hl H. apply Z.leb_le in H. apply Z.leb_le. lia.
Qed.

End scheduler_more.

(** ** Server client: the retry loop in general *)

Section client_more.
Import models Go client.

Lemma calls_app (a b : list Event) :
  calls (a ++ b) = (calls a + calls b)%nat.
Proof. unfold calls. by rewrite List.filter_app, length_app. Qed.

Lemma sleeps_app (a b : list Event) :
  sleeps (a ++ b) = (sleeps a ++ sleeps b)%list.
Proof. unfold sleeps. by rewrite !flat_map_concat_map, map_app, concat_app. Qed.

Lemma calls_nil : calls [] = 0%nat.
Proof. done. Qed.

Lemma calls_Do (evs : list Event) : calls (EvDo :: evs) = S (calls evs).
Proof. done. Qed.

Lemma calls_Sleep (d : Duration) (evs : list Event) :
  calls (EvSleep d :: evs) = calls evs.
Proof. done. Qed.

(** What the loop of [doRequest] does from attempt number [attempt] on,
    with [iters] iterations left and [k] calls behind it. *)
Lemma doRequest_loop_spec (iters : nat) (attempt maxRetries : Z)
    (retryDelay : Duration) (net : Transport) (k : nat) (lastErr : string) :
  1 <= attempt ->
  let r := doRequest_loop iters attempt maxRetries retryDelay net k lastErr in
  sleeps (snd r)
  = map (fun j => mul64 retryDelay (attempt + Z.of_nat j))
        (seq 0 (calls (snd r))) /\
  match fst r with
  | inr (code, body) =>
      exists j, (j < iters)%nat /\ net (k + j)%nat = DoResp code body /\
                (forall i, (i < j)%nat -> is_DoErr (net (k + i)%nat) = true) /\
                calls (snd r) = S j
  | inl e =>
      (forall i, (i < iters)%nat -> is_DoErr (net (k + i)%nat) = true) /\
      calls (snd r) = iters /\
      exists last, e = ErrRequestFailed (add64 maxRetries 1) last
  end.
Proof.
  revert attempt k lastErr.
  induction iters as [|n IH]; intros attempt k lastErr Ha; simpl.
  - split; [done|]. split; [intros; lia|]. split; [done|by eexists].
  - destruct (Z.ltb_spec 0 attempt); [|lia].
    destruct (net k) as [err|code body] eqn:Hk.
    + specialize (IH (attempt + 1) (S k) err ltac:(lia)).
      destruct (doRequest_loop n (attempt + 1) maxRetries retryDelay net
                  (S k) err) as [r evs].
      unfold calls, sleeps in *. simpl in *.
      destruct IH as [Hsl IH]. split.
      * rewrite Hsl. f_equal; [f_equal; lia|].
        rewrite <- seq_shift, map_map. apply map_ext. intros j.
        f_equal. lia.
      * destruct r as [e|[code body]].
        -- destruct IH as (Hall & Hc & Hlast). split; [|split; [lia|done]].
           intros [|i] Hi; [by rewrite Nat.add_0_r, Hk|].
           replace (k + S i)%nat with (S k + i)%nat by lia.
           apply Hall. lia.
        -- destruct IH as (j & Hj & Hresp & Hall & Hc).
           exists (S j).
           replace (k + S j)%nat with (S k + j)%nat by lia.
           repeat split; [lia|done| |lia].
           intros [|i] Hi; [by rewrite Nat.add_0_r, Hk|].
           replace (k + S i)%nat with (S k + i)%nat by lia.
           apply Hall. lia.
    + unfold calls, sleeps. simpl. split; [f_equal; f_equal; lia|].
      exists 0%nat. rewrite Nat.add_0_r.
      repeat split; [lia|done|intros; lia].
Qed.

Lemma doRequest_outcome (maxRetries : Z)
    (retryDelay : Duration) (net : Transport) :
  let r := doRequest maxRetries retryDelay net in
  (calls (snd r) <= Z.to_nat (maxRetries + 1))%nat /\
  (maxRetries < 0 ->
     r = (inl (ErrRequestFailed (add64 maxRetries 1) ""), [])) /\
  match fst r with
  | inr (code, body) =>
      exists j, Z.of_nat j <= maxRetries /\ net j = DoResp code body /\
                (forall i, (i < j)%nat -> is_DoErr (net i) = true) /\
                calls (snd r) = S j
  | inl e =>
      (forall i, Z.of_nat i <= maxRetries -> is_DoErr (net i) = true) /\
      calls (snd r) = Z.to_nat (maxRetries + 1)
  end.
Proof.
  unfold doRequest. simpl.
  destruct (Z.to_nat (maxRetries + 1)) as [|n] eqn:Hn.
  - simpl. rewrite calls_nil.
    split; [lia|]. split; [done|]. split; [intros; lia|done].
  - simpl. destruct (net 0%nat) as [err|code body] eqn:H0.
    + pose proof (doRequest_loop_spec n (0 + 1) maxRetries retryDelay net 1
                    err ltac:(lia)) as [_ H].
      destruct (doRequest_loop n (0 + 1) maxRetries retryDelay net 1 err)
        as [r evs]. simpl in *. rewrite calls_Do.
      destruct r as [e|[code body]].
      * destruct H as (Hall & -> & _).
        split; [lia|]. split; [lia|]. split; [|done].
        intros [|i] Hi; [by rewrite H0|]. apply (Hall i). lia.
      * destruct H as (j & Hj & Hresp & Hall & ->).
        split; [lia|]. split; [lia|].
        exists (S j). repeat split; [lia|done|].
        intros [|i] Hi; [by rewrite H0|]. apply (Hall i). lia.
    + simpl. rewrite calls_Do, calls_nil.
      split; [lia|]. split; [lia|].
      exists 0%nat. repeat split; [lia|done|intros; lia].
Qed.

(** X6.  [doRequest] with any budget and delay makes at most
    [maxRetries + 1] calls, none at all when [maxRetries] is negative (it
    then reports a failed request without having sent one).  It returns a
    response exactly when one of these calls receives one: the first
    response, after as many calls as there were failures before it plus
    one.  It returns an error only after all [maxRetries + 1] calls
    failed. *)
Theorem doRequest_stops_at_first_response (maxRetries : Z)
    (retryDelay : Duration) (net : Transport) :
  let r := doRequest maxRetries retryDelay net in
  (calls (snd r) <= Z.to_nat (maxRetries + 1))%nat /\
  (maxRetries < 0 ->
     r = (inl (ErrRequestFailed (add64 maxRetries 1) ""), [])) /\
  match fst r with
  | inr (code, body) =>
      exists j, Z.of_nat j <= maxRetries /\ net j = DoResp code body /\
                (forall i, (i < j)%nat -> is_DoErr (net i) = true) /\
                calls (snd r) = S j
  | inl e =>
      (forall i, Z.of_nat i <= maxRetries -> is_DoErr (net i) = true) /\
      calls (snd r) = Z.to_nat (maxRetries + 1)
  end.
Proof. apply doRequest_outcome. Qed.

(** X7.  The sleeps of [doRequest] are, in order, the delay times 1, 2,
    ... (as [int64] products), one before every call but the first. *)
Theorem doRequest_sleeps_grow_linearly (maxRetries : Z)
    (retryDelay : Duration) (net : Transport) :
  let evs := snd (doRequest maxRetries retryDelay net) in
  sleeps evs
  = map (fun j => mul64 retryDelay (Z.of_nat j))
        (seq 1 (calls evs - 1)).
Proof.
  unfold doRequest. simpl.
  destruct (Z.to_nat (maxRetries + 1)) as [|n]; [done|]. simpl.
  destruct (net 0%nat) as [err|code body]; [|done].
  pose proof (doRequest_loop_spec n (0 + 1) maxRetries retryDelay net 1
                err ltac:(lia)) as [Hsl _].
  destruct (doRequest_loop n (0 + 1) maxRetries retryDelay net 1 err)
    as [r evs]. unfold calls, sleeps in *. simpl in *.
  rewrite Nat.sub_0_r, Hsl.
  rewrite <- seq_shift, map_map. apply map_ext. intros j. f_equal. lia.
Qed.

(** X8.  An operation of the client returns without error only if its
    request could be built and the first response it received carries a
    status it accepts (200 for Connect; 200 or 204 for Heartbeat and
    GetAds).  When the request cannot be built nothing is sent. *)
Theorem client_success_means_accepted_status `{E : Env}
    (op : Op) (c : Client) (now : Time) (net : Transport) :
  (request_ok op c = false ->
     run_op op c now net = (Some ErrCreateRequest, [])) /\
  (fst (run_op op c now net) = None ->
     request_ok op c = true /\
     exists j code body,
       (j <= 3)%nat /\ net j = DoResp code body /\
       (forall i, (i < j)%nat -> is_DoErr (net i) = true) /\
       accepts op code = true).
Proof.
  pose proof (doRequest_outcome 3 (2 * Second) net) as (_ & _ & Hresp).
  unfold request_ok.
  destruct op; simpl;
    unfold Connect, Heartbeat, GetAds;
    destruct (NewRequest_ok _ _); simpl; (split; [done|]);
    destruct (doRequest 3 (2 * Second) net) as [[e|[code body]] evs];
    simpl in *; try done; intros Hok; (split; [done|]);
    destruct Hresp as (j & Hj & Hnet & Hall & _);
    exists j, code, body; (repeat split; [lia|done|done|]);
    unfold StatusUnauthorized, StatusNotFound, StatusOK, StatusNoContent
      in *.
  - destruct (code =? 401); [done|]. destruct (code =? 404); [done|].
    by destruct (code =? 200).
  - by destruct (code =? 200), (code =? 204).
  - destruct (code =? 204); [by rewrite orb_true_r|].
    by destruct (code =? 200).
Qed.

End client_more.

(** ** Heartbeat: what a cycle costs and what it leaves behind *)

Section heartbeat_more.
Import models Go client heartbeat.
Context `{E : Env}.

Lemma Heartbeat_calls_le (c : Client) (id : string) (net : Transport) :
  (calls (snd (Heartbeat c id net)) <= 4)%nat.
Proof.
  unfold Heartbeat.
  destruct (negb (NewRequest_ok _ _)); [simpl; rewrite calls_nil; lia|].
  pose proof (doRequest_outcome 3 (2 * Second) net) as [Hle _].
  change (Z.to_nat (3 + 1)) with 4%nat in Hle.
  destruct (doRequest 3 (2 * Second) net) as [[e|[code body]] evs];
    cbn [fst snd] in *; [lia|].
  by destruct (negb (code =? StatusOK) && negb (code =? StatusNoContent)).
Qed.

Lemma sendHeartbeat_loop_calls (iters : nat) (attempt : Z) (s : Scheduler)
    (now : Time) (net : Transport) (lastErr : option Error) :
  (calls (snd (sendHeartbeat_loop iters attempt s now net lastErr))
   <= 4 * iters)%nat.
Proof.
  revert attempt net lastErr.
  induction iters as [|n IH]; intros attempt net lastErr; simpl;
    [rewrite calls_nil; lia|].
  pose proof (Heartbeat_calls_le (hclient s) (screenID s) net) as Hhb.
  destruct (Heartbeat (hclient s) (screenID s) net) as [[err|] evs].
  - specialize (IH (attempt + 1) (shift (calls evs) net) (Some err)).
    destruct (sendHeartbeat_loop n _ s now _ _) as [s' evs'].
    cbn [fst snd] in *.
    destruct (0 <? attempt); cbn [app];
      rewrite ?calls_Sleep, calls_app; lia.
  - cbn [fst snd] in *.
    destruct (0 <? attempt); cbn [app]; rewrite ?calls_Sleep; lia.
Qed.

(** X9.  One heartbeat cycle sends at most [4 * (retryAttempts + 1)]
    requests: each of its attempts is a client call with its own three
    retries.  With a negative [retryAttempts] it sends none. *)
Theorem sendHeartbeat_request_budget (s : Scheduler) (now : Time)
    (net : Transport) :
  (calls (snd (sendHeartbeat s now net))
   <= 4 * Z.to_nat (retryAttempts s + 1))%nat /\
  (retryAttempts s < 0 -> snd (sendHeartbeat s now net) = []).
Proof.
  split; [apply sendHeartbeat_loop_calls|].
  intros Hneg. unfold sendHeartbeat.
  by replace (Z.to_nat (retryAttempts s + 1)) with 0%nat by lia.
Qed.

Lemma Heartbeat_refused (c : Client) (id : string) (net : Transport)
    (code : Z) (body : string) :
  NewRequest_ok "PUT" (baseURL c ++ "/api/v1/screens/" ++ id
                       ++ "/heartbeat") = true ->
  (code =? 200) || (code =? 204) = false ->
  net 0%nat = DoResp code body ->
  Heartbeat c id net = (Some (ErrStatus code body), [EvDo]).
Proof.
  intros Hreq Hcode Hnet. unfold Heartbeat. rewrite Hreq. simpl.
  unfold doRequest. simpl. rewrite Hnet. simpl.
  unfold StatusOK, StatusNoContent.
  apply orb_false_iff in Hcode as [-> ->]. done.
Qed.

Lemma sendHeartbeat_loop_refused (iters : nat) (attempt : Z) (s : Scheduler)
    (now : Time) (net : Transport) (lastErr : option Error)
    (code : Z) (body : string) :
  NewRequest_ok "PUT" (baseURL (hclient s) ++ "/api/v1/screens/"
                       ++ screenID s ++ "/heartbeat") = true ->
  (code =? 200) || (code =? 204) = false ->
  (forall k, net k = DoResp code body) ->
  1 <= attempt ->
  let r := sendHeartbeat_loop iters attempt s now net lastErr in
  status (fst r) = StatusError /\
  lastError (fst r)
  = match iters with O => lastErr | S _ => Some (ErrStatus code body) end /\
  calls (snd r) = iters /\
  sleeps (snd r)
  = map (fun j => mul64 (retryDelay s) (attempt + Z.of_nat j)) (seq 0 iters).
Proof.
  intros Hreq Hcode. revert attempt net lastErr.
  induction iters as [|n IH]; intros attempt net lastErr Hnet Ha; simpl;
    [done|].
  rewrite (Heartbeat_refused _ _ net code body Hreq Hcode (Hnet 0%nat)).
  specialize (IH (attempt + 1) (shift (calls [EvDo]) net)
                (Some (ErrStatus code body))
                ltac:(intros k; apply Hnet) ltac:(lia)).
  destruct (sendHeartbeat_loop n (attempt + 1) s now _ _) as [s' evs'].
  cbn [fst snd] in *. destruct IH as (Hst & Herr & Hc & Hsl).
  destruct (Z.ltb_spec 0 attempt); [|lia]. cbn [app].
  rewrite calls_Sleep, calls_Do, Hc.
  change (sleeps (EvSleep (mul64 (retryDelay s) attempt) :: EvDo :: evs'))
    with (mul64 (retryDelay s) attempt :: sleeps evs').
  rewrite Hsl. repeat split; [done| |].
  - rewrite Herr. by destruct n.
  - cbn [seq map]. f_equal; [f_equal; lia|].
    rewrite <- seq_shift, map_map. apply map_ext. intros j. f_equal. lia.
Qed.

(** X10.  The heartbeat loop retries on a refused status as it does on a
    network failure.  Against a server that answers every heartbeat with
    one status other than 200 and 204 (a 401, say), a cycle sends
    [retryAttempts + 1] requests, sleeps the retry delay times 1, 2, ...
    between them, and ends with status error and that status as last
    error. *)
Theorem sendHeartbeat_retries_refused_status (s : Scheduler) (now : Time)
    (net : Transport) (code : Z) (body : string) :
  NewRequest_ok "PUT" (baseURL (hclient s) ++ "/api/v1/screens/"
                       ++ screenID s ++ "/heartbeat") = true ->
  (code =? 200) || (code =? 204) = false ->
  (forall k, net k = DoResp code body) ->
  0 <= retryAttempts s ->
  let r := sendHeartbeat s now net in
  status (fst r) = StatusError /\
  lastError (fst r) = Some (ErrStatus code body) /\
  calls (snd r) = Z.to_nat (retryAttempts s + 1) /\
  sleeps (snd r)
  = map (fun j => mul64 (retryDelay s) (Z.of_nat j))
        (seq 1 (Z.to_nat (retryAttempts s))).
Proof.
  intros Hreq Hcode Hnet Hpos. unfold sendHeartbeat.
  replace (Z.to_nat (retryAttempts s + 1))
    with (S (Z.to_nat (retryAttempts s))) by lia.
  cbn [sendHeartbeat_loop].
  rewrite (Heartbeat_refused _ _ net code body Hreq Hcode (Hnet 0%nat)).
  pose proof (sendHeartbeat_loop_refused (Z.to_nat (retryAttempts s))
                (0 + 1) s now (shift (calls [EvDo]) net)
                (Some (ErrStatus code body)) code body Hreq Hcode
                ltac:(intros k; apply Hnet) ltac:(lia)) as H.
  destruct (sendHeartbeat_loop (Z.to_nat (retryAttempts s)) (0 + 1) s now
              _ _) as [s' evs'].
  cbn [fst snd] in *. destruct H as (Hst & Herr & Hc & Hsl).
  change (0 <? 0) with false. cbn [app].
  rewrite calls_Do, Hc.
  change (sleeps (EvDo :: evs')) with (sleeps evs'). rewrite Hsl.
  repeat split; [done| |].
  - rewrite Herr. by destruct (Z.to_nat (retryAttempts s)).
  - rewrite <- seq_shift, map_map. apply map_ext. intros j. f_equal. lia.
Qed.

Lemma sendHeartbeat_loop_verdict (iters : nat) (attempt : Z) (s : Scheduler)
    (now : Time) (net : Transport) (lastErr : option Error) :
  let s' := fst (sendHeartbeat_loop iters attempt s now net lastErr) in
  (all_attempts_fail iters s net /\
   status s' = StatusError /\ lastSent s' = lastSent s) \/
  (~ all_attempts_fail iters s net /\
   status s' = StatusConnected /\ lastSent s' = now /\ lastError s' = None).
Proof.
  revert attempt net lastErr.
  induction iters as [|n IH]; intros attempt net lastErr; simpl;
    [by left|].
  destruct (Heartbeat (hclient s) (screenID s) net) as [[err|] evs].
  - specialize (IH (attempt + 1) (shift (calls evs) net) (Some err)).
    by destruct (sendHeartbeat_loop n _ s now _ _).
  - right. simpl. tauto.
Qed.

(** X11.  After a heartbeat cycle the status is connected or error,
    whatever it was before.  It is connected exactly when one attempt of
    this cycle succeeded, and then the last error is cleared and the send
    time is the clock reading of the cycle; it is error exactly when every
    attempt failed, and then the send time of the last success is kept. *)
Theorem sendHeartbeat_status_reflects_cycle (s : Scheduler) (now : Time)
    (net : Transport) :
  let s' := fst (sendHeartbeat s now net) in
  (status s' = StatusError <-> cycle_fails s net) /\
  (status s' = StatusConnected <-> ~ cycle_fails s net) /\
  (status s' = StatusConnected -> lastSent s' = now /\ lastError s' = None) /\
  (status s' = StatusError -> lastSent s' = lastSent s).
Proof.
  simpl. unfold sendHeartbeat, cycle_fails.
  destruct (sendHeartbeat_loop_verdict (Z.to_nat (retryAttempts s + 1)) 0 s
              now net None) as [(Hf & Hst & Hsent)|(Hf & Hst & Hsent & He)];
    rewrite Hst; repeat split; try done; try (intros; congruence).
Qed.

End heartbeat_more.

Lemma sendHeartbeat_retries_refused_status_witness :
  heartbeat.status
    (fst (heartbeat.sendHeartbeat example.default_heartbeat 0
            (fun _ => client.DoResp 401 "denied")))
  = heartbeat.StatusError.
Proof.
  apply (sendHeartbeat_retries_refused_status (E := standin.client_env)
           example.default_heartbeat 0 (fun _ => client.DoResp 401 "denied")
           401 "denied" eq_refl eq_refl).
  - intros k. reflexivity.
  - vm_compute. discriminate.
Defined.

(** ** Ad storage and ad fetcher *)

Section ads_more.
Import models Go os client ads.

(** After a [SaveAds] that returned without error the manifest path
    holds the serialized wrapper. *)
Lemma run_SaveAds `{J : JSON adsMetadata} (s : Storage) (now : Time)
    (r : AdDeliveryResponse) (io : SaveIO) (fs : FS) :
  fst (SaveAds s now r io) = None ->
  run (snd (SaveAds s now r io)) fs
  = <[adsFile s := File (json_Marshal (wrap now r))]> fs.
Proof.
  unfold SaveAds.
  destruct (mkdir_ads_ok io), (mkdir_media_ok io); simpl; try done.
  destruct (WriteFile (adsFile s) (json_Marshal (wrap now r))
              (manifest_io io)) as [ops ok] eqn:Hw. simpl.
  destruct ok; [|done]. intros _.
  change (run (SysMkdirAll (adsDir s) :: SysMkdirAll (mediaDir s) :: ops) fs)
    with (run ops fs).
  destruct (WriteFile_effect _ _ _ fs _ _ Hw)
    as [(_ & _ & ?)|(_ & _ & _ & w & _ & -> & Hok)]; [done|].
  by rewrite Hok.
Qed.

Lemma SaveAds_frame `{J : JSON adsMetadata} (s : Storage) (now : Time)
    (r : AdDeliveryResponse) (io : SaveIO) (fs : FS) (p : string) :
  p <> adsFile s -> run (snd (SaveAds s now r io)) fs !! p = fs !! p.
Proof.
  intros Hp. unfold SaveAds.
  destruct (mkdir_ads_ok io), (mkdir_media_ok io); simpl; try done.
  destruct (WriteFile (adsFile s) (json_Marshal (wrap now r))
              (manifest_io io)) as [ops ok] eqn:Hw. simpl.
  change (run (SysMkdirAll (adsDir s) :: SysMkdirAll (mediaDir s) :: ops) fs)
    with (run ops fs).
  destruct (WriteFile_effect _ _ _ fs _ _ Hw)
    as [(_ & -> & _)|(_ & _ & _ & w & _ & -> & _)]; [done|].
  by rewrite lookup_insert_ne.
Qed.

Lemma SaveAds_save_ok `{J : JSON adsMetadata} (s : Storage) (now : Time)
    (r : AdDeliveryResponse) :
  fst (SaveAds s now r save_ok) = None.
Proof.
  unfold SaveAds, save_ok. cbn [mkdir_ads_ok mkdir_media_ok manifest_io negb].
  pose proof (WriteFile_write_ok (adsFile s) (json_Marshal (wrap now r)))
    as Hok.
  destruct (WriteFile (adsFile s) (json_Marshal (wrap now r)) write_ok)
    as [ops ok]. simpl in *. by subst ok.
Qed.

(** X12.  A manifest that [SaveAds] has saved without error, however its
    write was cut into pieces, is the manifest [LoadAds] returns afterwards
    (the fetch stamp and the count stay in the file), provided the JSON
    text of the wrapper decodes back to it. *)
Theorem LoadAds_after_SaveAds `{J : JSON adsMetadata} (s : Storage)
    (now : Time) (r : AdDeliveryResponse) (io : SaveIO) (fs : FS) :
  json_Unmarshal (json_Marshal (wrap now r)) = Some (wrap now r) ->
  fst (SaveAds s now r io) = None ->
  LoadAds s (run (snd (SaveAds s now r io)) fs) = inr r.
Proof.
  intros Hjson Hok. rewrite run_SaveAds by done.
  unfold LoadAds, Stat, ReadFile. rewrite lookup_insert_eq.
  rewrite Hjson. by destruct r.
Qed.

Lemma LoadAds_after_SaveAds_witness :
  LoadAds example.home_storage
    (run (snd (SaveAds example.home_storage 1000 example.manifest_new
                 (mkSaveIO true true (WCuts [7%positive; 30%positive]
                                            true true))))
         example.fs_with_manifest)
  = inr example.manifest_new.
Proof.
  apply (LoadAds_after_SaveAds (J := standin.json_adsMetadata)).
  - by vm_compute.
  - by vm_compute.
Defined.

(** X13.  [LoadAds] reports a missing manifest as not found.  A reader
    that comes between the truncation and the first write of a running
    [SaveAds] finds an empty file and gets a parse error, since the empty
    input is no JSON text. *)
Theorem LoadAds_during_SaveAds_fails_to_parse `{J : JSON adsMetadata}
    (s : Storage) (now : Time) (r : AdDeliveryResponse) (fs : FS) :
  json_Unmarshal [] = None ->
  (fs !! adsFile s = None -> LoadAds s fs = inl ErrNotFound) /\
  (forall io,
     mkdir_ads_ok io = true -> mkdir_media_ok io = true ->
     manifest_io io <> WOpenErr ->
     In (<[adsFile s := File []]> fs) (states (snd (SaveAds s now r io)) fs))
  /\
  LoadAds s (<[adsFile s := File []]> fs) = inl ErrParseAds.
Proof.
  intros Hnil. split; [|split].
  - intros Habs. unfold LoadAds, Stat, ReadFile. by rewrite Habs.
  - intros io Ha Hm Hopen. unfold SaveAds. rewrite Ha, Hm. cbn [negb].
    destruct (WriteFile (adsFile s) (json_Marshal (wrap now r))
                (manifest_io io)) as [ops ok] eqn:Hw. simpl.
    destruct (WriteFile_effect _ _ _ fs _ _ Hw)
      as [(? & _)|(_ & Hin & _)]; [done|].
    right; right. exact Hin.
  - unfold LoadAds, Stat, ReadFile. rewrite lookup_insert_eq.
    by rewrite Hnil.
Qed.

Lemma LoadAds_during_SaveAds_fails_to_parse_witness :
  LoadAds example.home_storage
    (<[adsFile example.home_storage := File []]> example.fs_with_manifest)
  = inl ErrParseAds.
Proof.
  apply (LoadAds_during_SaveAds_fails_to_parse
           (J := standin.json_adsMetadata) example.home_storage 1000
           example.manifest_new example.fs_with_manifest eq_refl).
Defined.

End ads_more.

Section fetcher_more.
Import models Go os client fetcher.
Context `{E : Env} `{J : JSON ads.adsMetadata}.

Lemma fetch_attempt_net_shift (k : nat) (f : Fetcher) (now : Time)
    (net : Transport) :
  attempt_net (S k) f now net
  = attempt_net k f now
      (shift (calls (snd (GetAds (fclient f) (screenID f) now net))) net).
Proof.
  induction k as [|k IH]; [done|].
  change (attempt_net (S (S k)) f now net)
    with (shift (calls (snd (GetAds (fclient f) (screenID f) now
                              (attempt_net (S k) f now net))))
                (attempt_net (S k) f now net)).
  by rewrite IH.
Qed.

Lemma fetchAds_loop_verdict (iters : nat) (attempt : Z) (f : Fetcher)
    (now : Time) (net : Transport) (io : ads.SaveIO)
    (lastErr : option Error) (fs : FS) :
  let '(f', fs', _) := fetchAds_loop iters attempt f now net io lastErr fs in
  (all_attempts_fail iters f now net /\
   lastAds f' = lastAds f /\ lastFetch f' = lastFetch f /\ fs' = fs /\
   lastError f' = match iters with
                  | O => lastErr
                  | S n => attempt_error n f now net
                  end /\
   match iters with
   | O => True
   | S n => is_Some (attempt_error n f now net)
   end) \/
  (~ all_attempts_fail iters f now net /\
   exists r, lastAds f' = Some r /\ lastFetch f' = now /\
             lastError f' = None /\
             fs' = run (snd (ads.SaveAds (fstorage f) now r io)) fs).
Proof.
  revert attempt net lastErr.
  induction iters as [|n IH]; intros attempt net lastErr.
  - left. done.
  - cbn [fetchAds_loop all_attempts_fail].
    destruct (GetAds (fclient f) (screenID f) now net) as [[err|r] evs]
      eqn:Hget.
    + specialize (IH (attempt + 1) (shift (calls evs) net) (Some err)).
      destruct (fetchAds_loop n _ f now _ io _ fs) as [[f' fs'] evs'].
      destruct IH as [(Hf & Ha & Ht & Hfs & He & Hs)|(Hf & r & Hr)].
      * left. split; [done|]. split; [done|]. split; [done|].
        split; [done|]. rewrite He. destruct n as [|m].
        -- unfold attempt_error. simpl. rewrite Hget. by split; [|eexists].
        -- unfold attempt_error in *. rewrite fetch_attempt_net_shift.
           by rewrite Hget.
      * right. split; [done|]. by exists r.
    + right. split; [tauto|]. by exists r.
Qed.

(** X14.  A fetch cycle in which every attempt fails leaves the retained
    manifest, the time of the last fetch and the files as they were.  It
    records the error of its last attempt, which is attempt number
    [retryAttempts]; with a negative [retryAttempts] it makes no attempt
    and clears the recorded error. *)
Theorem fetchAds_failure_keeps_manifest (f : Fetcher) (now : Time)
    (net : Transport) (io : ads.SaveIO) (fs : FS) :
  cycle_fails f now net ->
  let '(f', fs', _) := fetchAds f now net io fs in
  lastAds f' = lastAds f /\ lastFetch f' = lastFetch f /\ fs' = fs /\
  lastError f'
  = (if retryAttempts f <? 0 then None
     else attempt_error (Z.to_nat (retryAttempts f)) f now net) /\
  (0 <= retryAttempts f -> is_Some (lastError f')).
Proof.
  unfold cycle_fails, fetchAds. intros Hfail.
  pose proof (fetchAds_loop_verdict (Z.to_nat (retryAttempts f + 1)) 0 f
                now net io None fs) as H.
  destruct (fetchAds_loop _ 0 f now net io None fs) as [[f' fs'] evs].
  destruct H as [(_ & Ha & Ht & Hfs & He & Hs)|(Hnf & _)]; [|done].
  split; [done|]. split; [done|]. split; [done|].
  destruct (Z.ltb_spec (retryAttempts f) 0).
  - replace (Z.to_nat (retryAttempts f + 1)) with O in * by lia.
    split; [done|]. lia.
  - replace (Z.to_nat (retryAttempts f + 1))
      with (S (Z.to_nat (retryAttempts f))) in * by lia.
    split; [done|]. intros _. by rewrite He.
Qed.


End fetcher_more.

Lemma fetchAds_failure_keeps_manifest_witness :
  let '(f', fs', _) :=
    fetcher.fetchAds example.default_fetcher 0 standin.net_down
                     ads.save_ok example.fs_with_manifest in
  fs' = example.fs_with_manifest.
Proof.
  pose proof (fetchAds_failure_keeps_manifest (E := standin.client_env)
                (J := standin.json_adsMetadata) example.default_fetcher 0
                standin.net_down ads.save_ok example.fs_with_manifest) as H.
  destruct (fetcher.fetchAds example.default_fetcher 0 standin.net_down
              ads.save_ok example.fs_with_manifest) as [[f' fs'] evs].
  apply H. by vm_compute.
Defined.


(** ** Credentials: what Save and Load do to the files *)

Section credentials_more.
Import models Go os storage credentials.
Context `{C : Crypto} `{J : JSON Credentials}.




End credentials_more.



(** ** Credentials manager *)

Section manager_more.
Import models Go os storage credentials.
Context `{C : Crypto} `{J : JSON Credentials}.


Lemma ToValid_nonempty (s : string) : s <> "" -> utf8.ToValid s <> "".
Proof.
  destruct s as [|c r]; [done|]. intros _.
  unfold utf8.ToValid. cbn [utf8.coerce].
  by destruct (utf8.rune_size (String c r)).
Qed.

Context {L : CryptoLaws C} {JL : CredentialsJSON J}.


End manager_more.


(** ** Configuration loader *)

Section config_more.
Import models Go os config.
Context `{J : JSON ScreenConfig}.

Lemma config_Save_file (l : Loader) (c : ScreenConfig) (fs : FS) :
  Save l c fs = <[configFile l := File (json_Marshal c)]> fs.
Proof.
  unfold Save.
  change (run ([SysMkdirAll (configDir l)]
               ++ fst (WriteFile (configFile l) (json_Marshal c) write_ok)) fs)
    with (run (fst (WriteFile (configFile l) (json_Marshal c) write_ok)) fs).
  apply run_WriteFile_ok.
Qed.


End config_more.


(** ** Media downloader: cache, frame, extensions, cleanup *)

Section downloader_more.
Import models Go os downloader.

Lemma DownloadFile_frame (dest : string) (f : Fetch) (fs fs' : FS)
    (err : option AttemptError) :
  DownloadFile dest f fs = (err, fs') ->
  forall p, p <> dest -> fs' !! p = fs !! p.
Proof.
  unfold DownloadFile. destruct f as [|code body io]; [by intros [= <- <-]|].
  destruct (negb (code =? 200)); [by intros [= <- <-]|].
  destruct io; intros [= <- <-] p Hp; by rewrite ?lookup_insert_ne.
Qed.

Lemma download_loop_frame (iters k : nat) (d : Downloader)
    (localPath : string) (net : nat -> Fetch)
    (lastErr : option AttemptError) (fs fs' : FS)
    (r : downloader.Error + string) :
  download_loop iters k d localPath net lastErr fs = (r, fs') ->
  forall p, p <> localPath -> fs' !! p = fs !! p.
Proof.
  revert k lastErr fs.
  induction iters as [|n IH]; intros k lastErr fs; simpl;
    [by intros [= <- <-]|].
  destruct (DownloadFile localPath (net k) fs) as [err fs1] eqn:Hdl.
  pose proof (DownloadFile_frame _ _ _ _ _ Hdl) as Hfr.
  assert (Hrec : forall e,
            download_loop n (S k) d localPath net e fs1 = (r, fs') ->
            forall p, p <> localPath -> fs' !! p = fs !! p).
  { intros e Hl p Hp. rewrite (IH _ _ _ Hl p Hp). by apply Hfr. }
  destruct err as [err|]; [apply Hrec|].
  destruct (Stat localPath fs1) as [info|]; [|apply Hrec].
  destruct (0 <? Size info); [|apply Hrec].
  intros [= <- <-]. done.
Qed.

Lemma download_loop_result (iters k : nat) (d : Downloader)
    (localPath : string) (net : nat -> Fetch)
    (lastErr : option AttemptError) (fs fs' : FS) (path : string) :
  download_loop iters k d localPath net lastErr fs = (inr path, fs') ->
  path = localPath /\
  exists info, Stat localPath fs' = Some info /\ 0 < Size info.
Proof.
  revert k lastErr fs.
  induction iters as [|n IH]; intros k lastErr fs; simpl; [done|].
  destruct (DownloadFile localPath (net k) fs) as [[err|] fs1]; [by apply IH|].
  destruct (Stat localPath fs1) as [info|] eqn:Hstat; [|by apply IH].
  destruct (Z.ltb_spec 0 (Size info)); [|by apply IH].
  intros [= <- <-]. split; [done|]. by exists info.
Qed.

(** X22.  A path returned by [DownloadAdMedia] is returned again by every
    later call on the files it left, whatever the network does then, and
    that later call changes no file: the media is fetched at most once. *)
Theorem DownloadAdMedia_second_call_is_free (d : Downloader) (ad : Ad)
    (ensure_ok ensure_ok' : bool) (net net' : nat -> Fetch) (fs fs' : FS)
    (path : string) :
  DownloadAdMedia d ad ensure_ok net fs = (inr path, fs') ->
  DownloadAdMedia d ad ensure_ok' net' fs' = (inr path, fs').
Proof.
  unfold DownloadAdMedia, GetLocalPath.
  destruct (Stat (media_path d ad) fs) as [info|] eqn:Hstat.
  - destruct (Z.ltb_spec 0 (Size info)) as [Hpos|Hz].
    + intros [= <- <-]. rewrite Hstat.
      by destruct (Z.ltb_spec 0 (Size info)); [|lia].
    + destruct (HasPrefix (ContentURL ad) "file://") eqn:Hpre.
      * destruct (Stat (TrimPrefix _ _) fs) as [sz|] eqn:Hloc; [|done].
        intros [= <- <-]. rewrite Hstat.
        destruct (Z.ltb_spec 0 (Size info)); [lia|]. by rewrite Hloc.
      * destruct ensure_ok; simpl; [|done]. intros Hdl.
        apply download_loop_result in Hdl as (-> & sz & -> & Hsz).
        by destruct (Z.ltb_spec 0 (Size sz)); [|lia].
  - destruct (HasPrefix (ContentURL ad) "file://") eqn:Hpre.
    + destruct (Stat (TrimPrefix _ _) fs) as [sz|] eqn:Hloc; [|done].
      intros [= <- <-]. by rewrite Hstat, Hloc.
    + destruct ensure_ok; simpl; [|done]. intros Hdl.
      apply download_loop_result in Hdl as (-> & sz & -> & Hsz).
      by destruct (Z.ltb_spec 0 (Size sz)); [|lia].
Qed.

Lemma DownloadAdMedia_second_call_is_free_witness :
  DownloadAdMedia example.home_downloader example.ad_U false
    (fun _ => FetchErr)
    (<["/home/u/.mnemocast/ads/media/U/U.jpg" := File [Byte.x41]]> ∅)
  = (inr "/home/u/.mnemocast/ads/media/U/U.jpg",
     <["/home/u/.mnemocast/ads/media/U/U.jpg" := File [Byte.x41]]> ∅).
Proof.
  apply (DownloadAdMedia_second_call_is_free example.home_downloader
           example.ad_U true false
           (fun _ => FetchResp 200 [Byte.x41] IOOk) (fun _ => FetchErr) ∅).
  vm_compute. reflexivity.
Defined.

Lemma download_loop_down (iters k : nat) (d : Downloader)
    (localPath : string) (net : nat -> Fetch)
    (lastErr : option AttemptError) (fs : FS) :
  (forall j, net j = FetchErr) ->
  download_loop iters k d localPath net lastErr fs
  = (inl (ErrAfterAttempts (add64 (maxRetries d) 1)
            (match iters with O => lastErr | S _ => Some ErrExecute end)),
     fs).
Proof.
  intros Hnet. revert k lastErr.
  induction iters as [|n IH]; intros k lastErr; simpl; [done|].
  rewrite Hnet. simpl. rewrite IH. by destruct n.
Qed.



Lemma download_loop_empty (iters k : nat) (d : Downloader)
    (localPath : string) (net : nat -> Fetch)
    (lastErr : option AttemptError) (fs : FS) :
  (forall j, net j = FetchResp 200 [] IOOk) ->
  download_loop iters k d localPath net lastErr fs
  = (inl (ErrAfterAttempts (add64 (maxRetries d) 1)
            (match iters with O => lastErr | S _ => Some ErrEmpty end)),
     match iters with O => fs | S _ => <[localPath := File []]> fs end).
Proof.
  intros Hnet. revert k lastErr fs.
  induction iters as [|n IH]; intros k lastErr fs; [done|].
  cbn [download_loop]. rewrite Hnet. cbn [DownloadFile Z.eqb negb].
  change (negb (200 =? 200)%positive) with false. cbv iota beta.
  unfold Stat. rewrite lookup_insert_eq.
  cbn [Size length Z.of_nat Z.ltb Z.compare].
  rewrite IH. destruct n; [done|]. by rewrite insert_insert_eq.
Qed.

(** X24.  When every download answers 200 with an empty body (and the
    retry count is not negative), [DownloadAdMedia] fails with "downloaded
    file is empty" and leaves an empty file at the media path of the ad; a
    later call sees no cache hit there. *)
Theorem DownloadAdMedia_empty_body_leaves_empty_file (d : Downloader)
    (ad : Ad) (net : nat -> Fetch) (fs : FS) :
  IsCached d ad fs = false ->
  HasPrefix (ContentURL ad) "file://" = false ->
  (forall j, net j = FetchResp 200 [] IOOk) ->
  0 <= maxRetries d ->
  let fs' := <[media_path d ad := File []]> fs in
  DownloadAdMedia d ad true net fs
  = (inl (ErrAfterAttempts (add64 (maxRetries d) 1) (Some ErrEmpty)), fs') /\
  IsCached d ad fs' = false.
Proof.
  intros Hmiss Hpre Hnet Hpos. simpl. split.
  - unfold DownloadAdMedia. unfold IsCached in Hmiss.
    destruct (GetLocalPath d ad fs) as [cached hit]. simpl in Hmiss.
    subst hit. rewrite Hpre. simpl.
    replace (Z.to_nat (maxRetries d + 1))
      with (S (Z.to_nat (maxRetries d))) by lia.
    by rewrite download_loop_empty.
  - unfold IsCached, GetLocalPath, Stat. by rewrite lookup_insert_eq.
Qed.

Lemma DownloadAdMedia_empty_body_leaves_empty_file_witness :
  DownloadAdMedia example.home_downloader example.ad_U true
    (fun _ => FetchResp 200 [] IOOk) ∅
  = (inl (ErrAfterAttempts 4 (Some ErrEmpty)),
     <[media_path example.home_downloader example.ad_U := File []]> ∅).
Proof.
  apply (DownloadAdMedia_empty_body_leaves_empty_file
           example.home_downloader example.ad_U
           (fun _ => FetchResp 200 [] IOOk) ∅);
    [reflexivity|reflexivity|done|by vm_compute].
Defined.

End downloader_more.

Section downloader_names.
Import models Go os downloader.

Lemma ext_scan_shape (s : string) :
  fst (ext_scan s) = has_char "/" s /\
  ((snd (ext_scan s) = "" /\
    (fst (ext_scan s) = false -> has_char "." s = false)) \/
   (exists r, snd (ext_scan s) = String "." r /\
              has_char "/" r = false /\ has_char "." r = false)).
Proof.
  induction s as [|c r [Hsep IH]]; simpl; [split; [done|by left]|].
  destruct (ext_scan r) as [sep e]. simpl in *. subst sep.
  destruct (has_char "/" r) eqn:Hslash; simpl.
  - rewrite orb_true_r. split; [done|].
    destruct IH as [[-> _]|IH]; [by left|by right].
  - rewrite orb_false_r.
    destruct (String.eqb_spec e "") as [->|Hne]; simpl.
    + destruct IH as [[_ Hdot]|(r' & ? & _)]; [|done].
      specialize (Hdot eq_refl).
      destruct (Ascii.eqb_spec c ".") as [->|Hc]; simpl.
      * split; [done|]. right. by exists r.
      * split; [done|]. left. split; [done|]. intros _. exact Hdot.
    + split; [done|]. destruct IH as [[? _]|IH]; [done|by right].
Qed.

Lemma before_query_clean (c : ascii) (s : string) :
  has_char c s = false -> has_char c (before_query s) = false.
Proof.
  induction s as [|x r IH]; simpl; [done|].
  intros H. apply orb_false_iff in H as [Hx Hr].
  destruct (Ascii.eqb x "?"); simpl; [done|]. by rewrite Hx, IH.
Qed.

Lemma before_query_no_query (s : string) :
  has_char "?" (before_query s) = false.
Proof.
  induction s as [|x r IH]; simpl; [done|].
  destruct (Ascii.eqb x "?") eqn:Hx; simpl; [done|]. by rewrite Hx.
Qed.

(** X25.  The extension chosen for the media file always is a dot
    followed by characters among which there is no further dot, no path
    separator and no question mark.  This bounds the extension only: the
    file name is the ad id followed by it, and the ad id is taken as the
    server sent it, so the name may still hold separators and dots (as
    for the id [../current_ads]). *)
Theorem getFileExtension_is_one_clean_suffix (url adType : string) :
  (exists r,
     getFileExtension url adType = String "." r /\
     has_char "/" r = false /\ has_char "?" r = false /\
     has_char "." r = false) /\
  has_char "/" (ID example.ad_dotdot
                ++ getFileExtension (ContentURL example.ad_dotdot)
                                    (Type_ example.ad_dotdot)) = true.
Proof.
  split; [|by vm_compute].
  unfold getFileExtension, Ext.
  destruct (ext_scan_shape url) as [_ [[-> _]|(r & -> & Hs & Hd)]]; simpl.
  - destruct (String.eqb (ToLower adType) "image"); [by eexists|].
    destruct (String.eqb (ToLower adType) "video"); [by eexists|].
    destruct (String.eqb (ToLower adType) "html"); [by eexists|].
    destruct (String.eqb (ToLower adType) "text"); by eexists.
  - exists (before_query r).
    split; [done|]. split; [by apply before_query_clean|].
    split; [apply before_query_no_query|by apply before_query_clean].
Qed.

Lemma append_nil_r (a : string) : a ++ "" = a.
Proof.
  induction a as [|c a IH]; [done|].
  change (String c (a ++ "") = String c a). by f_equal.
Qed.

Lemma Join_inj_r (a b b' : string) : Join a b = Join a b' -> b = b'.
Proof.
  unfold Join. destruct (String.eqb a ""); [done|].
  destruct (String.eqb_spec b ""), (String.eqb_spec b' ""); subst;
    try done; intros H.
  - assert (H' : a ++ "" = a ++ ("/" ++ b')) by by rewrite append_nil_r.
    by apply append_inj_l in H'.
  - assert (H' : a ++ ("/" ++ b) = a ++ "") by by rewrite append_nil_r.
    by apply append_inj_l in H'.
  - apply append_inj_l in H. by injection H.
Qed.

Lemma cleanup_loop_removed (mediaDir : string)
    (currentAdIDs : gmap string bool) (remove_ok : string -> bool)
    (entries : list (string * bool)) (path : string) :
  In path (fst (cleanup_loop mediaDir currentAdIDs remove_ok entries)) <->
  exists name, path = Join mediaDir name /\ In (name, true) entries /\
               default false (currentAdIDs !! name) = false.
Proof.
  induction entries as [|[name isDir] rest IH]; simpl.
  - split; [done|]. by intros (? & _ & [] & _).
  - destruct (cleanup_loop mediaDir currentAdIDs remove_ok rest)
      as [removed cleaned]. simpl in *.
    destruct isDir; simpl.
    + destruct (default false (currentAdIDs !! name)) eqn:Hcur; simpl.
      * rewrite IH. split.
        -- intros (n & ? & ? & ?). exists n. auto.
        -- intros (n & ? & [[= <-]|?] & ?); [congruence|]. by exists n.
      * rewrite IH. split.
        -- intros [<-|(n & ? & ? & ?)]; [by exists name; auto|].
           exists n. auto.
        -- intros (n & -> & [[= <-]|?] & ?); [by left|].
           right. by exists n.
    + rewrite IH. split.
      * intros (n & ? & ? & ?). exists n. auto.
      * intros (n & ? & [[=]|?] & ?). by exists n.
Qed.

(** X26.  [CleanupOldMedia] removes exactly the directories of the media
    folder whose name is not marked as a current ad.  It never removes the
    directory of a current ad, never touches an entry that is not a
    directory, and with the media folder missing it removes nothing and
    reports no error. *)
Theorem CleanupOldMedia_spares_current_ads (d : Downloader)
    (currentAdIDs : gmap string bool) (remove_ok : string -> bool)
    (entries : list (string * bool)) :
  CleanupOldMedia d currentAdIDs DirMissing remove_ok = (false, []) /\
  fst (CleanupOldMedia d currentAdIDs (DirEntries entries) remove_ok)
  = false /\
  forall name,
    In (Join (ads.mediaDir (dstorage d)) name)
       (snd (CleanupOldMedia d currentAdIDs (DirEntries entries) remove_ok))
    <-> In (name, true) entries /\ currentAdIDs !! name <> Some true.
Proof.
  split; [done|]. split; [done|]. intros name. simpl.
  rewrite cleanup_loop_removed. split.
  - intros (n & Hj & Hin & Hcur). apply Join_inj_r in Hj as <-.
    split; [done|]. intros Ht. by rewrite Ht in Hcur.
  - intros [Hin Hcur]. exists name. split; [done|]. split; [done|].
    destruct (currentAdIDs !! name) as [[]|]; done.
Qed.

End downloader_names.

(** ** Player: statistics, pause and the playback loop *)

Section player_more.
Import models Go player.

Lemma reachable_stopped_means_idle (p : Player) :
  reachable p -> stopped_means_idle p.
Proof.
  induction 1 as [|p q _ IH Hstep]; [by split|].
  by eapply step_preserves_stopped_means_idle.
Qed.

(** X27.  In every reachable state the state recorded in the statistics
    is the state of the player.  From there, [Pause] followed by [Resume]
    gives back a playing player unchanged, [Pause] does nothing unless the
    player is playing, and [Resume] does nothing unless it is paused. *)
Theorem Pause_then_Resume_restores_playing (p : Player) :
  reachable p ->
  stats_State p = state p /\
  (state p = PlayerStatePlaying -> Resume (Pause p) = p) /\
  (state p <> PlayerStatePlaying -> Pause p = p) /\
  (state p <> PlayerStatePaused -> Resume p = p).
Proof.
  intros Hr. destruct (reachable_stopped_means_idle p Hr) as [_ Hm].
  destruct p as [cur st sst n e]. simpl in *. subst sst.
  unfold Pause, Resume, set_state. simpl.
  repeat split; intros H; destruct st; try done.
Qed.

Lemma Pause_then_Resume_restores_playing_witness :
  Resume (Pause (Start NewPlayer)) = Start NewPlayer.
Proof.
  refine (proj1 (proj2
            (Pause_then_Resume_restores_playing (Start NewPlayer) _)) _).
  - eapply reach_step; [apply reach_new|apply step_Start].
  - reflexivity.
Defined.

(** X28.  The playback loop acts only in state playing, and there only
    when no ad is on screen or the current one is due.  The [loadNextAd]
    it then calls sets the state to loading and goes on to
    [Playlist.GetNextAd], which never returns: the call ends in no result,
    whatever the playlist, the clock, the downloader and the renderer, and
    leaves the player in state loading with its current ad and its count
    of played ads as they were.  No later section of [loadNextAd] is
    reached, so the playback loop loads no ad. *)
Theorem loadNextAd_never_returns (now : Time) (due : bool)
    (media : Ad -> MediaAnswer) (p : Player) (pl : Playlist.t) :
  loadNextAd now media p pl = (load_begin p, Blocked) /\
  state (load_begin p) = PlayerStateLoading /\
  stats_State (load_begin p) = PlayerStateLoading /\
  currentAd (load_begin p) = currentAd p /\
  TotalAdsPlayed (load_begin p) = TotalAdsPlayed p /\
  LastError (load_begin p) = LastError p /\
  (state p <> PlayerStatePlaying -> tick now due media p pl = (p, Ret pl)) /\
  (state p = PlayerStatePlaying -> currentAd p = None \/ due = true ->
   tick now due media p pl = (load_begin p, Blocked)) /\
  (state p = PlayerStatePlaying -> currentAd p <> None -> due = false ->
   tick now due media p pl = (p, Ret pl)).
Proof.
  assert (Hload : loadNextAd now media p pl = (load_begin p, Blocked)).
  { destruct pl as [l i u [w r]].
    unfold loadNextAd, Playlist.GetNextAd, Lock. simpl.
    destruct w; [done|]. by destruct r. }
  do 6 (split; [done|]). unfold tick. split; [|split].
  - intros Hs. by destruct (state p).
  - intros -> Hc. simpl. destruct (currentAd p); [|done].
    by destruct Hc as [? | ->].
  - intros -> Hc ->. simpl. by destruct (currentAd p).
Qed.

End player_more.

(** ** Renderer selection *)

Section renderers_more.
Import models renderers.

Lemma CanRender_known (r : Renderer) (ad : Ad) :
  CanRender r ad = true -> In (Type_ ad) known_types.
Proof.
  unfold CanRender, known_types. cbv zeta.
  destruct r; intros H;
    repeat (apply orb_true_iff in H; destruct H as [H|H]);
    apply String.eqb_eq in H; rewrite H; simpl; tauto.
Qed.

Lemma first_able_sound (rs : list Renderer) (ad : Ad) (r : Renderer) :
  first_able rs ad = Some r -> CanRender r ad = true.
Proof.
  induction rs as [|x rs IH]; simpl; [done|].
  destruct (CanRender x ad) eqn:Hx; [by intros [= <-]|done].
Qed.

(** X29.  [GetRenderer] finds a renderer exactly for the thirteen type
    tags the renderers name, compared as written (no case folding).  The
    renderer it returns accepts the ad and is the only one that does, so
    the order in which the renderers are registered never decides. *)
Theorem GetRenderer_by_exact_type_tag (ad : Ad) :
  (GetRenderer ad = None <-> ~ In (Type_ ad) known_types) /\
  (forall r, GetRenderer ad = Some r <-> CanRender r ad = true) /\
  GetRenderer (mkAd "a" "" "Image" "" 0 0 0 0) = None.
Proof.
  assert (Hex : forall r r', CanRender r ad = true ->
                             CanRender r' ad = true -> r = r').
  { intros r r'. unfold CanRender.
    destruct r, r'; try done;
      rewrite ?orb_true_iff, ?String.eqb_eq; intros H1 H2;
      repeat match goal with H : _ \/ _ |- _ => destruct H end;
      congruence. }
  assert (Hfind : forall r, CanRender r ad = true -> GetRenderer ad = Some r).
  { intros r Hr. unfold GetRenderer, registered. cbn [first_able].
    destruct (CanRender ImageRenderer ad) eqn:H1;
      [f_equal; by apply Hex|].
    destruct (CanRender VideoRenderer ad) eqn:H2;
      [f_equal; by apply Hex|].
    destruct (CanRender HTMLRenderer ad) eqn:H3;
      [f_equal; by apply Hex|].
    destruct (CanRender TextRenderer ad) eqn:H4;
      [f_equal; by apply Hex|].
    destruct r; congruence. }
  split; [|split; [|done]].
  - split.
    + intros Hnone Hin. unfold known_types in Hin. simpl in Hin.
      assert (Hsome : exists r, CanRender r ad = true).
      { unfold CanRender.
        repeat destruct Hin as [Hin|Hin]; try done; rewrite <- Hin;
          first [by exists ImageRenderer | by exists VideoRenderer
                | by exists HTMLRenderer | by exists TextRenderer]. }
      destruct Hsome as [r Hr]. apply Hfind in Hr. congruence.
    + intros Hnot. destruct (GetRenderer ad) as [r|] eqn:Hg; [|done].
      exfalso. apply Hnot. eapply CanRender_known.
      by eapply first_able_sound.
  - intros r. split; [apply first_able_sound|apply Hfind].
Qed.

End renderers_more.

(** ** Identifiers *)

Section identity_more.
Import os storage identity.

Lemma hex_digit_is_hex (n : N) : is_hex (hex_digit n) = true.
Proof.
  destruct n as [|p]; [reflexivity|].
  do 5 (try (destruct p as [p|p|]; try reflexivity)).
Qed.

Lemma version_nibble (b : Byte.byte) :
  hex_digit (Byte.to_N (and_or b 15 64) / 16) = "4"%char.
Proof. destruct b; reflexivity. Qed.

Lemma variant_nibble (b : Byte.byte) :
  In (hex_digit (Byte.to_N (and_or b 63 128) / 16))
     ["8"; "9"; "a"; "b"]%char.
Proof. destruct b; simpl; tauto. Qed.

(** X30.  Whenever the random source delivers sixteen bytes,
    [GenerateUUID] returns 36 characters in the 8-4-4-4-12 layout:
    hyphens at positions 8, 13, 18 and 23, lower-case hexadecimal digits
    everywhere else, the version digit 4 at position 14 and a variant
    digit 8, 9, a or b at position 19, whatever the bytes were.
    [GenerateScreenID] is that string behind the prefix screen-. *)
Theorem GenerateUUID_is_version_4 (rand : RandReader) (uuid : string) :
  GenerateUUID rand = Some uuid ->
  String.length uuid = 36%nat /\
  (forall i, (i < 36)%nat ->
     exists c, String.get i uuid = Some c /\
       if is_hyphen_position i then c = "-"%char else is_hex c = true) /\
  String.get 14 uuid = Some "4"%char /\
  (exists c, String.get 19 uuid = Some c /\ In c ["8"; "9"; "a"; "b"]%char)
  /\ GenerateScreenID rand = Some ("screen-" ++ uuid).
Proof.
  intros H. unfold GenerateScreenID. rewrite H.
  unfold GenerateUUID in H.
  destruct (ReadFull rand 16) as [b|] eqn:Hb; [|done].
  apply ReadFull_length in Hb.
  do 16 (destruct b as [|? b]; [done|]). destruct b; [|done]. clear Hb.
  cbv -[hex_digit Byte.to_N and_or N.div N.modulo] in H.
  injection H as <-.
  split; [reflexivity|]. split; [|split; [|split; [|done]]].
  - intros i Hi.
    do 36 (destruct i as [|i];
           [eexists; split; [reflexivity|];
            first [reflexivity | apply hex_digit_is_hex]|]).
    lia.
  - cbv [String.get]. by rewrite version_nibble.
  - eexists. split; [reflexivity|]. apply variant_nibble.
Qed.

Lemma GenerateUUID_is_version_4_witness :
  GenerateUUID standin.rand_zero
  = Some "00000000-0000-4000-8000-000000000000" /\
  String.get 14 "00000000-0000-4000-8000-000000000000" = Some "4"%char.
Proof.
  split; [reflexivity|].
  exact (proj1 (proj2 (proj2
           (GenerateUUID_is_version_4 standin.rand_zero
              "00000000-0000-4000-8000-000000000000" eq_refl)))).
Defined.

End identity_more.
